(** * fast_transfer: the transfer engine [TransferLogic]

    A shallow embedding of the planner, the session store, the archiver
    supervisor and the completion-callback pipeline of [TransferLogic],
    with the properties of the engine stated and proved over it.

    Conventions.
    - Python [int] is [Z]; Python [float] is IEEE-754 binary64, modelled
      by [spec_float] with [prec = 53] and [emax = 1024].
    - A Python [str] is a Rocq [string]: the bytes of its UTF-8
      encoding, a lone surrogate being held as the three bytes of its
      code point.
    - [self] is split in an immutable [config] and a mutable [state];
      methods are state transformers, and methods that may raise return
      an outcome together with the state reached when the exception
      left them. *)

From Stdlib Require Import ZArith List String Ascii Bool Lia.
From Stdlib Require Import Floats.SpecFloat.
From stdpp Require Import base option list gmap strings.

Local Open Scope Z_scope.

(** ** Python numbers *)

Module PyNum.

Definition prec : Z := 53.
Definition emax : Z := 1024.

Inductive number :=
| PyInt (z : Z)
| PyFloat (f : spec_float).

(** An integer as an exact, unrounded binary float. *)
Definition int_exact (z : Z) : spec_float :=
  match z with
  | Z0 => S754_zero false
  | Zpos p => S754_finite false p 0
  | Zneg p => S754_finite true p 0
  end.

(** [float(z)]: the nearest binary64. *)
Definition float_of_int (z : Z) : spec_float :=
  binary_normalize prec emax z 0 false.

(** [a / b] on two ints. CPython returns the correctly rounded
    quotient of the two integers, which is what [SFdiv] computes from
    the exact mantissas; [None] is ZeroDivisionError. The
    OverflowError of a quotient beyond the float range (2^1024) is not
    modelled: the IEEE result stands in for it. *)
Definition int_truediv (a b : Z) : option spec_float :=
  if b =? 0 then None
  else Some (SFdiv prec emax (int_exact a) (int_exact b)).

(** [x * k] for a float [x] and an int [k]. *)
Definition float_mul_int (x : spec_float) (k : Z) : spec_float :=
  SFmul prec emax x (float_of_int k).

(** Exact three-way comparison of a float with an int, as CPython's
    mixed comparison does it; [None] when the float is NaN. *)
Definition SF_compare_Z (f : spec_float) (z : Z) : option comparison :=
  match f with
  | S754_nan => None
  | S754_infinity s => Some (if s then Lt else Gt)
  | S754_zero _ => Some (0 ?= z)
  | S754_finite s m e =>
      let v := cond_Zopp s (Zpos m) in
      Some (if 0 <=? e then (v * 2 ^ e ?= z) else (v ?= z * 2 ^ (- e)))
  end.

Definition py_compare (a b : number) : option comparison :=
  match a, b with
  | PyInt x, PyInt y => Some (x ?= y)
  | PyFloat f, PyInt y => SF_compare_Z f y
  | PyInt x, PyFloat g => CompOpp <$> SF_compare_Z g x
  | PyFloat f, PyFloat g => SFcompare f g
  end.

(** [a < b], [a > b], [a <= b], [a >= b]; all false on NaN. *)
Definition py_lt (a b : number) : bool :=
  match py_compare a b with Some Lt => true | _ => false end.
Definition py_gt (a b : number) : bool :=
  match py_compare a b with Some Gt => true | _ => false end.
Definition py_le (a b : number) : bool :=
  match py_compare a b with Some (Lt | Eq) => true | _ => false end.
Definition py_ge (a b : number) : bool :=
  match py_compare a b with Some (Gt | Eq) => true | _ => false end.

(** The builtins [min(a, b)] and [max(a, b)]: the first argument is
    kept unless the second is strictly smaller (resp. greater). *)
Definition py_min (a b : number) : number := if py_lt b a then b else a.
Definition py_max (a b : number) : number := if py_gt b a then b else a.

(** [int(x)] for a float: truncation toward zero; [None] when it
    raises (NaN, infinities). *)
Definition int_of_float (f : spec_float) : option Z :=
  match f with
  | S754_zero _ => Some 0
  | S754_finite s m e =>
      Some (cond_Zopp s (if 0 <=? e then Zpos m * 2 ^ e
                         else Zpos m / 2 ^ (- e)))
  | _ => None
  end.

Definition is_nan (a : number) : bool :=
  match a with PyFloat S754_nan => true | _ => false end.

End PyNum.
Export PyNum.

(** ** Rounding to nearest even, read on integers *)

(** [binary_round_aux] is handed a real number [x] as its integer part
    [m], an exponent and the location of [x] between [m] and [m + 1].
    The two definitions below read such a truncated number as one
    integer: twice the integer part of [a / b], plus one when [a / b]
    is not an integer. *)
Definition sticky (a b : Z) : Z :=
  2 * (a / b) + (if a mod b =? 0 then 0 else 1).

(** The record of a right shift, as the integer [4 * m + 2 * r + s]. *)
Definition enc (mrs : shr_record) : Z :=
  4 * shr_m mrs + (if shr_r mrs then 2 else 0) + (if shr_s mrs then 1 else 0).

(** [round_nearest_even] on that integer. *)
Definition rne (n : Z) : Z :=
  let m := n / 4 in
  let c := n mod 4 in
  if c <=? 1 then m
  else if c =? 2 then (if Z.even m then m else m + 1)
  else m + 1.

(** The binary64 of the rounded mantissa [m] at the exponent [e]: a
    mantissa of 54 bits is [2 ^ 53], brought back to 53 bits. *)
Definition rounded (e m : Z) : spec_float :=
  match m with
  | Z.pos p =>
      if m =? 2 ^ 53 then S754_finite false (2 ^ 52)%positive (e + 1)
      else S754_finite false p e
  | _ => S754_zero false
  end.

(** The location [l] is that of [a / b] between its integer part and
    the next integer. *)
Definition located (a b : Z) (l : location) : Prop :=
  enc (shr_record_of_loc (a / b) l) = sticky (2 * a) b.

(** [a / b * 2 ^ e <= a' / b' * 2 ^ e'] *)
Definition value_le (a b e a' b' e' : Z) : Prop :=
  a * b' * 2 ^ (e - Z.min e e') <= a' * b * 2 ^ (e' - Z.min e e').

(** Two rounded mantissas with their exponents, in order. *)
Definition rounded_ord (e m e' m' : Z) : Prop :=
  0 <= m <= 2 ^ 53 /\ 0 <= m' <= 2 ^ 53 /\ e <= e'
  /\ (e = e' -> m <= m') /\ (e < e' -> 2 ^ 52 <= m').

(** The exponent and the scaled numerator [SFdiv] gives the quotient
    of the integers [p <= t], and the exponent of the result. *)
Definition quotient_e (p t : Z) : Z :=
  fexp prec emax (Zdigits2 p - Zdigits2 t).
Definition quotient_a (p t : Z) : Z := p * 2 ^ (- quotient_e p t).
Definition quotient_E (p t : Z) : Z :=
  fexp prec emax (Zdigits2 (quotient_a p t / t) + quotient_e p t).

(** ** Data model *)

(** [{'path': ..., 'size': ...}] *)
Record file_info := FileInfo { path : string; size : Z }.

(** A task dict, by its ['type']. A pack and a resume_extract carry
    ['pack_id'] and ['files'], a move_large carries ['file_info']. *)
Inductive task :=
| Pack (task_id : string) (pack_id : Z) (files : list file_info)
| MoveLarge (task_id : string) (info : file_info)
| ResumeExtract (task_id : string) (pack_id : Z) (files : list file_info).

Inductive task_type := pack | move_large | resume_extract.

Definition type_of (t : task) : task_type :=
  match t with
  | Pack _ _ _ => pack
  | MoveLarge _ _ => move_large
  | ResumeExtract _ _ _ => resume_extract
  end.

Definition task_id (t : task) : string :=
  match t with
  | Pack i _ _ | MoveLarge i _ | ResumeExtract i _ _ => i
  end.

Definition files_of (t : task) : list file_info :=
  match t with
  | Pack _ _ fs | ResumeExtract _ _ fs => fs
  | MoveLarge _ _ => []
  end.

Definition pack_id_of (t : task) : option Z :=
  match t with
  | Pack _ p _ | ResumeExtract _ p _ => Some p
  | MoveLarge _ _ => None
  end.

(** [sum(f['size'] for f in files)] *)
Definition sum_sizes (fs : list file_info) : Z :=
  foldr (fun f acc => size f + acc) 0 fs.

(** The byte size [_update_progress] credits for a task. *)
Definition task_size (t : task) : Z :=
  match t with
  | Pack _ _ fs | ResumeExtract _ _ fs => sum_sizes fs
  | MoveLarge _ fi => size fi
  end.

Definition is_pack (t : task) : bool :=
  match t with Pack _ _ _ => true | _ => false end.
Definition is_move_large (t : task) : bool :=
  match t with MoveLarge _ _ => true | _ => false end.

(** ** Planner: [_scan_and_plan] *)

(** The comparison of line 1144. *)
Definition is_large (threshold : number) (fi : file_info) : bool :=
  py_ge (PyInt (size fi)) threshold.

Module Planner.

Definition MiB : Z := 1024 * 1024.

(** Lines 1132-1135: the dynamic large-file threshold for a scan of
    [n_files] files of [total_transfer_size] bytes. [None] is the
    ZeroDivisionError of an empty scan, which the caller excludes. *)
Definition large_file_threshold (total_transfer_size n_files : Z)
  : option number :=
  avg_size ← int_truediv total_transfer_size n_files;
  let dynamic_threshold := float_mul_int avg_size 10 in
  let large_file_threshold :=
    py_min (PyFloat dynamic_threshold) (PyInt (256 * 1024 * 1024)) in
  Some (py_max large_file_threshold (PyInt (16 * 1024 * 1024))).

(** The specification's wording of the same threshold:
    [clamp(min(avg * 10, 256 MiB), lower = 16 MiB, upper = 256 MiB)]. *)
Definition clamp (x lower upper : number) : number :=
  if py_lt x lower then lower
  else if py_lt upper x then upper
  else x.

Definition spec_threshold (total_bytes file_count : Z) : option number :=
  avg ← int_truediv total_bytes file_count;
  Some (clamp (py_min (PyFloat (float_mul_int avg 10)) (PyInt (256 * MiB)))
              (PyInt (16 * MiB)) (PyInt (256 * MiB))).

Section WithRuntime.

(** [str(uuid.uuid4())]: the id drawn by the k-th call. *)
Variable uuid4 : nat -> string.
(** [random.shuffle], as the permutation it applies. *)
Variable shuffle : list file_info -> list file_info.

(** The part of [self] the planner writes, and the locals that
    survive from one loop to the next. *)
Record plan_state := PlanState {
  task_plan : list task;
  uuid_calls : nat;
}.

Definition append_task (mk : string -> task) (st : plan_state)
  : plan_state :=
  {| task_plan := task_plan st ++ [mk (uuid4 (uuid_calls st))];
     uuid_calls := S (uuid_calls st) |}.

(** Lines 1142-1151: one iteration of the classification loop. *)
Definition classify_step (threshold : number)
    (acc : plan_state * list file_info) (fi : file_info)
  : plan_state * list file_info :=
  let '(st, small_files_to_pack) := acc in
  if is_large threshold fi
  then (append_task (fun i => MoveLarge i fi) st, small_files_to_pack)
  else (st, small_files_to_pack ++ [fi]).

Definition classify (threshold : number) (all_files : list file_info)
    (st : plan_state) : plan_state * list file_info :=
  fold_left (classify_step threshold) all_files (st, []).

(** Lines 1158-1162. [//] is floor division. *)
Definition ideal_files_per_pack (max_workers chunk_file_limit : Z)
    (small_files_to_pack : list file_info) : Z :=
  if (0 <? max_workers) && negb (bool_decide (small_files_to_pack = []))
  then (Z.of_nat (length small_files_to_pack) + max_workers - 1)
         `div` max_workers
  else chunk_file_limit.

(** The locals of the chunking loop, lines 1164-1166. *)
Record chunk_state := ChunkState {
  plan : plan_state;
  current_chunk : list file_info;
  current_chunk_size : Z;
  pack_id_counter : Z;
}.

Definition seal (cs : chunk_state) : chunk_state :=
  let pid := pack_id_counter cs + 1 in
  {| plan := append_task (fun i => Pack i pid (current_chunk cs)) (plan cs);
     current_chunk := [];
     current_chunk_size := 0;
     pack_id_counter := pid |}.

(** The guard of line 1168. *)
Definition must_seal (ideal chunk_size_limit : Z) (cs : chunk_state)
    (fi : file_info) : bool :=
  negb (bool_decide (current_chunk cs = []))
  && ((ideal <=? Z.of_nat (length (current_chunk cs)))
      || (chunk_size_limit <? current_chunk_size cs + size fi)).

(** Lines 1167-1180: one iteration of the chunking loop. *)
Definition chunk_step (ideal chunk_size_limit : Z) (cs : chunk_state)
    (fi : file_info) : chunk_state :=
  let cs := if must_seal ideal chunk_size_limit cs fi then seal cs else cs in
  {| plan := plan cs;
     current_chunk := current_chunk cs ++ [fi];
     current_chunk_size := current_chunk_size cs + size fi;
     pack_id_counter := pack_id_counter cs |}.

(** Lines 1164-1189: the loop and the final flush. *)
Definition chunk (ideal chunk_size_limit : Z)
    (small_files_to_pack : list file_info) (st : plan_state)
  : plan_state :=
  let cs := fold_left (chunk_step ideal chunk_size_limit)
              small_files_to_pack
              {| plan := st; current_chunk := [];
                 current_chunk_size := 0; pack_id_counter := 0 |} in
  if bool_decide (current_chunk cs = []) then plan cs
  else plan (seal cs).

(** [self.total_transfer_size] after the walk of lines 1113-1123. *)
Definition total_size (all_files : list file_info) : Z :=
  fold_left (fun acc fi => acc + size fi) all_files 0.

(** [_scan_and_plan] on the result [all_files] of the directory
    walk: the new [total_transfer_size] and the plan. [None] stands
    for an exception leaving the method. *)
Definition scan_and_plan (max_workers chunk_size_limit chunk_file_limit : Z)
    (all_files : list file_info) (st : plan_state)
  : option (Z * plan_state) :=
  let total_transfer_size := total_size all_files in
  if bool_decide (all_files = []) then Some (total_transfer_size, st)
  else
    threshold ← large_file_threshold total_transfer_size
                  (Z.of_nat (length all_files));
    let '(st, small_files_to_pack) := classify threshold all_files st in
    let small_files_to_pack := shuffle small_files_to_pack in
    let ideal :=
      ideal_files_per_pack max_workers chunk_file_limit
        small_files_to_pack in
    Some (total_transfer_size,
          chunk ideal chunk_size_limit small_files_to_pack st).

End WithRuntime.

End Planner.

(** ** Reading a plan *)

(** The files of the move_large tasks of a plan, in plan order. *)
Definition move_large_files (plan : list task) : list file_info :=
  omap (fun t => match t with MoveLarge _ fi => Some fi | _ => None end) plan.

(** The file lists of the pack tasks of a plan, in plan order. *)
Definition pack_chunks (plan : list task) : list (list file_info) :=
  omap (fun t => match t with Pack _ _ fs => Some fs | _ => None end) plan.

(** The pack ids of the pack tasks of a plan, in plan order. *)
Definition pack_ids (plan : list task) : list Z :=
  omap (fun t => match t with Pack _ p _ => Some p | _ => None end) plan.


(** The move_large tasks appended for the files [fs] when [k0] ids have
    been drawn before. *)
Definition move_large_tasks (uuid4 : nat -> string) (k0 : nat)
    (fs : list file_info) : list task :=
  imap (fun k fi => MoveLarge (uuid4 (k0 + k)%nat) fi) fs.

(** The pack tasks appended for the chunks [chunks]: the k-th chunk
    (from 0) carries pack_id k + 1. *)
Definition pack_tasks (uuid4 : nat -> string) (k0 : nat)
    (chunks : list (list file_info)) : list task :=
  imap (fun k c => Pack (uuid4 (k0 + k)%nat) (Z.of_nat (S k)) c) chunks.

(** The condition under which the chunk [c] is closed before the file
    [f]: it holds [ideal] files already, or [f] would push it over the
    byte limit. *)
Definition seal_condition (ideal chunk_size_limit : Z)
    (c : list file_info) (f : file_info) : Prop :=
  ideal <= Z.of_nat (length c) \/ chunk_size_limit < sum_sizes c + size f.

(** [chunks] is the greedy partition: no chunk is empty, no chunk was
    left open where it had to be closed, and each chunk was closed only
    because it had to be. *)
Definition greedy_partition (ideal chunk_size_limit : Z)
    (chunks : list (list file_info)) : Prop :=
  Forall (fun c => c <> []) chunks
  /\ (forall c c1 f c2, c ∈ chunks -> c = c1 ++ f :: c2 -> c1 <> [] ->
       ~ seal_condition ideal chunk_size_limit c1 f)
  /\ (forall i c f c', chunks !! i = Some c -> chunks !! S i = Some (f :: c') ->
       seal_condition ideal chunk_size_limit c f).

(** ** Python strings *)

(** Every character of [s] satisfies [P]. *)
Fixpoint all_chars (P : ascii -> bool) (s : string) : bool :=
  match s with
  | EmptyString => true
  | String a s' => P a && all_chars P s'
  end.

Module PyStr.

(** [s.startswith(p)] *)
Fixpoint startswith (s p : string) {struct p} : bool :=
  match p with
  | EmptyString => true
  | String b p' =>
      match s with
      | EmptyString => false
      | String a s' => Ascii.eqb a b && startswith s' p'
      end
  end.

(** [s.endswith(p)] *)
Definition endswith (s p : string) : bool :=
  (String.length p <=? String.length s)%nat
  && String.eqb
       (String.substring (String.length s - String.length p)
          (String.length p) s) p.

(** [s.split(c)] for a separator of one character. *)
Fixpoint split (c : ascii) (s : string) : list string :=
  match s with
  | EmptyString => [EmptyString]
  | String a s' =>
      if Ascii.eqb a c then EmptyString :: split c s'
      else match split c s' with
           | [] => [String a EmptyString]
           | h :: t => String a h :: t
           end
  end.

Definition is_digit (a : ascii) : bool :=
  let n := nat_of_ascii a in (48 <=? n)%nat && (n <=? 57)%nat.

Definition digit_value (a : ascii) : Z := Z.of_nat (nat_of_ascii a - 48).

Definition digit_char (d : Z) : ascii := ascii_of_nat (48 + Z.to_nat d).

(** The characters [int()] strips from an ASCII str: the space and
    the characters 0x09 to 0x0d. *)
Definition is_space (a : ascii) : bool :=
  let n := nat_of_ascii a in
  ((9 <=? n)%nat && (n <=? 13)%nat) || (n =? 32)%nat.

Fixpoint lstrip (s : string) : string :=
  match s with
  | EmptyString => EmptyString
  | String a s' => if is_space a then lstrip s' else s
  end.

Fixpoint rstrip (s : string) : string :=
  match s with
  | EmptyString => EmptyString
  | String a s' =>
      match rstrip s' with
      | EmptyString => if is_space a then EmptyString else String a EmptyString
      | r => String a r
      end
  end.

(** The digits of an integer literal: decimal digits, with single
    underscores allowed between two digits. [seen] tells whether the
    previous character was a digit. [None] is ValueError. *)
Fixpoint parse_digits (s : string) (acc : Z) (seen : bool) : option Z :=
  match s with
  | EmptyString => if seen then Some acc else None
  | String a s' =>
      if is_digit a then parse_digits s' (10 * acc + digit_value a) true
      else if Ascii.eqb a "_" && seen then parse_digits s' acc false
      else None
  end.

(** [int(s)] on the ASCII strings: optional surrounding white space, an
    optional sign, digits. [None] is ValueError. Decimal digits and
    white space beyond ASCII are not modelled (they are ValueError
    here). *)
Definition int (s : string) : option Z :=
  match rstrip (lstrip s) with
  | String "+" d => parse_digits d 0 false
  | String "-" d => Z.opp <$> parse_digits d 0 false
  | d => parse_digits d 0 false
  end.

(** The decimal digits of [n >= 0], most significant first, in front
    of [acc]. *)
Fixpoint digits (fuel : nat) (n : Z) (acc : string) : string :=
  match fuel with
  | O => acc
  | S fuel' =>
      let acc' := String (digit_char (n `mod` 10)) acc in
      if n <? 10 then acc' else digits fuel' (n `div` 10) acc'
  end.

(** [str(z)] *)
Definition str (z : Z) : string :=
  if z <? 0
  then String "-" (digits (S (Z.to_nat (Z.log2 (- z)))) (- z) EmptyString)
  else digits (S (Z.to_nat (Z.log2 z))) z EmptyString.

(** [l[i]], where [None] is IndexError. *)
Definition index {A} (l : list A) (i : nat) : option A := l !! i.

End PyStr.

(** ** The engine object *)

Inductive exn :=
| ZeroDivisionError
| OverflowError
| ValueError
| TimeoutExpired
| CalledProcessError (returncode : Z)
| OSError
| CancelledError
| RuntimeError
| UnicodeEncodeError
| UnicodeDecodeError
| KeyError.

(** What the platform fixes: [os.name == 'nt'], [os.sep], [os.linesep]. *)
Record platform := Platform {
  os_name_nt : bool;
  os_sep : string;
  os_linesep : string;
}.

(** The attributes [__init__] sets once. *)
Record config := Config {
  source_dir : string;
  target_dir : string;
  max_workers : Z;
  chunk_size_limit : Z;
  chunk_file_limit : Z;
  timeout : Z;
  copy_only : bool;
  create_mklink : bool;
  os : platform;
}.

(** The messages of the status calls that carry a progress value. *)
Inductive message :=
| MsgRestored                (* "已恢复进度 ..." in [_load_session] *)
| MsgTaskSkipped             (* "一个任务失败，已跳过" *)
| MsgProgress (percent : Z)  (* "进度 n%" *)
| MsgDone.                   (* "完成！" *)

(** A call [status_callback(message, progress)]. *)
Record status_call := StatusCall {
  call_message : message;
  call_progress : number;
}.

(** What was submitted to one of the two executors and is not done. *)
Inductive job :=
| ProcessMainTask (t : task)
| DeleteSourceFiles (paths_to_delete : list string)
    (done_callback : option (task * list string))
| CleanupCacheOnly (cache_files : list string)
| CleanupEmptyDirs (source_paths : list string).

(** The mutable attributes of [self], and the two executors:
    [pending] maps a future that is not done to its job, futures are
    numbered in the order of their creation, and [transfer_submitted]
    lists the calls [transfer_executor.submit], oldest first.
    [completed_task_queue] holds the ids put on the queue, oldest
    first; [status_calls] the status calls made, oldest first. *)
Record state := State {
  resume_session : bool;
  task_plan : list task;
  recovery_tasks : list task;
  total_transfer_size : Z;
  processed_size : Z;
  last_reported_progress : Z;
  completed_task_queue : list string;
  completed_task_ids : gset string;
  stop_event : bool;
  transfer_failed : bool;
  active_futures : gmap nat task;
  next_future : nat;
  transfer_submitted : list (nat * task);
  pending : gmap nat job;
  status_calls : list status_call;
}.

Definition set_resume_session (v : bool) (s : state) : state :=
  {| resume_session := v; task_plan := task_plan s;
     recovery_tasks := recovery_tasks s;
     total_transfer_size := total_transfer_size s;
     processed_size := processed_size s;
     last_reported_progress := last_reported_progress s;
     completed_task_queue := completed_task_queue s;
     completed_task_ids := completed_task_ids s;
     stop_event := stop_event s; transfer_failed := transfer_failed s;
     active_futures := active_futures s; next_future := next_future s;
     transfer_submitted := transfer_submitted s; pending := pending s;
     status_calls := status_calls s |}.
Definition set_task_plan (v : list task) (s : state) : state :=
  {| resume_session := resume_session s; task_plan := v;
     recovery_tasks := recovery_tasks s;
     total_transfer_size := total_transfer_size s;
     processed_size := processed_size s;
     last_reported_progress := last_reported_progress s;
     completed_task_queue := completed_task_queue s;
     completed_task_ids := completed_task_ids s;
     stop_event := stop_event s; transfer_failed := transfer_failed s;
     active_futures := active_futures s; next_future := next_future s;
     transfer_submitted := transfer_submitted s; pending := pending s;
     status_calls := status_calls s |}.
Definition set_recovery_tasks (v : list task) (s : state) : state :=
  {| resume_session := resume_session s; task_plan := task_plan s;
     recovery_tasks := v; total_transfer_size := total_transfer_size s;
     processed_size := processed_size s;
     last_reported_progress := last_reported_progress s;
     completed_task_queue := completed_task_queue s;
     completed_task_ids := completed_task_ids s;
     stop_event := stop_event s; transfer_failed := transfer_failed s;
     active_futures := active_futures s; next_future := next_future s;
     transfer_submitted := transfer_submitted s; pending := pending s;
     status_calls := status_calls s |}.
Definition set_total_transfer_size (v : Z) (s : state) : state :=
  {| resume_session := resume_session s; task_plan := task_plan s;
     recovery_tasks := recovery_tasks s; total_transfer_size := v;
     processed_size := processed_size s;
     last_reported_progress := last_reported_progress s;
     completed_task_queue := completed_task_queue s;
     completed_task_ids := completed_task_ids s;
     stop_event := stop_event s; transfer_failed := transfer_failed s;
     active_futures := active_futures s; next_future := next_future s;
     transfer_submitted := transfer_submitted s; pending := pending s;
     status_calls := status_calls s |}.
Definition set_processed_size (v : Z) (s : state) : state :=
  {| resume_session := resume_session s; task_plan := task_plan s;
     recovery_tasks := recovery_tasks s;
     total_transfer_size := total_transfer_size s; processed_size := v;
     last_reported_progress := last_reported_progress s;
     completed_task_queue := completed_task_queue s;
     completed_task_ids := completed_task_ids s;
     stop_event := stop_event s; transfer_failed := transfer_failed s;
     active_futures := active_futures s; next_future := next_future s;
     transfer_submitted := transfer_submitted s; pending := pending s;
     status_calls := status_calls s |}.
Definition set_last_reported_progress (v : Z) (s : state) : state :=
  {| resume_session := resume_session s; task_plan := task_plan s;
     recovery_tasks := recovery_tasks s;
     total_transfer_size := total_transfer_size s;
     processed_size := processed_size s; last_reported_progress := v;
     completed_task_queue := completed_task_queue s;
     completed_task_ids := completed_task_ids s;
     stop_event := stop_event s; transfer_failed := transfer_failed s;
     active_futures := active_futures s; next_future := next_future s;
     transfer_submitted := transfer_submitted s; pending := pending s;
     status_calls := status_calls s |}.
Definition set_completed_task_queue (v : list string) (s : state) : state :=
  {| resume_session := resume_session s; task_plan := task_plan s;
     recovery_tasks := recovery_tasks s;
     total_transfer_size := total_transfer_size s;
     processed_size := processed_size s;
     last_reported_progress := last_reported_progress s;
     completed_task_queue := v; completed_task_ids := completed_task_ids s;
     stop_event := stop_event s; transfer_failed := transfer_failed s;
     active_futures := active_futures s; next_future := next_future s;
     transfer_submitted := transfer_submitted s; pending := pending s;
     status_calls := status_calls s |}.
Definition set_completed_task_ids (v : gset string) (s : state) : state :=
  {| resume_session := resume_session s; task_plan := task_plan s;
     recovery_tasks := recovery_tasks s;
     total_transfer_size := total_transfer_size s;
     processed_size := processed_size s;
     last_reported_progress := last_reported_progress s;
     completed_task_queue := completed_task_queue s;
     completed_task_ids := v; stop_event := stop_event s;
     transfer_failed := transfer_failed s;
     active_futures := active_futures s; next_future := next_future s;
     transfer_submitted := transfer_submitted s; pending := pending s;
     status_calls := status_calls s |}.
Definition set_stop_event (v : bool) (s : state) : state :=
  {| resume_session := resume_session s; task_plan := task_plan s;
     recovery_tasks := recovery_tasks s;
     total_transfer_size := total_transfer_size s;
     processed_size := processed_size s;
     last_reported_progress := last_reported_progress s;
     completed_task_queue := completed_task_queue s;
     completed_task_ids := completed_task_ids s; stop_event := v;
     transfer_failed := transfer_failed s;
     active_futures := active_futures s; next_future := next_future s;
     transfer_submitted := transfer_submitted s; pending := pending s;
     status_calls := status_calls s |}.
Definition set_transfer_failed (v : bool) (s : state) : state :=
  {| resume_session := resume_session s; task_plan := task_plan s;
     recovery_tasks := recovery_tasks s;
     total_transfer_size := total_transfer_size s;
     processed_size := processed_size s;
     last_reported_progress := last_reported_progress s;
     completed_task_queue := completed_task_queue s;
     completed_task_ids := completed_task_ids s;
     stop_event := stop_event s; transfer_failed := v;
     active_futures := active_futures s; next_future := next_future s;
     transfer_submitted := transfer_submitted s; pending := pending s;
     status_calls := status_calls s |}.
Definition set_active_futures (v : gmap nat task) (s : state) : state :=
  {| resume_session := resume_session s; task_plan := task_plan s;
     recovery_tasks := recovery_tasks s;
     total_transfer_size := total_transfer_size s;
     processed_size := processed_size s;
     last_reported_progress := last_reported_progress s;
     completed_task_queue := completed_task_queue s;
     completed_task_ids := completed_task_ids s;
     stop_event := stop_event s; transfer_failed := transfer_failed s;
     active_futures := v; next_future := next_future s;
     transfer_submitted := transfer_submitted s; pending := pending s;
     status_calls := status_calls s |}.
Definition set_next_future (v : nat) (s : state) : state :=
  {| resume_session := resume_session s; task_plan := task_plan s;
     recovery_tasks := recovery_tasks s;
     total_transfer_size := total_transfer_size s;
     processed_size := processed_size s;
     last_reported_progress := last_reported_progress s;
     completed_task_queue := completed_task_queue s;
     completed_task_ids := completed_task_ids s;
     stop_event := stop_event s; transfer_failed := transfer_failed s;
     active_futures := active_futures s; next_future := v;
     transfer_submitted := transfer_submitted s; pending := pending s;
     status_calls := status_calls s |}.
Definition set_transfer_submitted (v : list (nat * task)) (s : state) : state :=
  {| resume_session := resume_session s; task_plan := task_plan s;
     recovery_tasks := recovery_tasks s;
     total_transfer_size := total_transfer_size s;
     processed_size := processed_size s;
     last_reported_progress := last_reported_progress s;
     completed_task_queue := completed_task_queue s;
     completed_task_ids := completed_task_ids s;
     stop_event := stop_event s; transfer_failed := transfer_failed s;
     active_futures := active_futures s; next_future := next_future s;
     transfer_submitted := v; pending := pending s;
     status_calls := status_calls s |}.
Definition set_pending (v : gmap nat job) (s : state) : state :=
  {| resume_session := resume_session s; task_plan := task_plan s;
     recovery_tasks := recovery_tasks s;
     total_transfer_size := total_transfer_size s;
     processed_size := processed_size s;
     last_reported_progress := last_reported_progress s;
     completed_task_queue := completed_task_queue s;
     completed_task_ids := completed_task_ids s;
     stop_event := stop_event s; transfer_failed := transfer_failed s;
     active_futures := active_futures s; next_future := next_future s;
     transfer_submitted := transfer_submitted s; pending := v;
     status_calls := status_calls s |}.
Definition set_status_calls (v : list status_call) (s : state) : state :=
  {| resume_session := resume_session s; task_plan := task_plan s;
     recovery_tasks := recovery_tasks s;
     total_transfer_size := total_transfer_size s;
     processed_size := processed_size s;
     last_reported_progress := last_reported_progress s;
     completed_task_queue := completed_task_queue s;
     completed_task_ids := completed_task_ids s;
     stop_event := stop_event s; transfer_failed := transfer_failed s;
     active_futures := active_futures s; next_future := next_future s;
     transfer_submitted := transfer_submitted s; pending := pending s;
     status_calls := v |}.

Definition emit (m : message) (p : number) (s : state) : state :=
  set_status_calls (status_calls s ++ [StatusCall m p]) s.

(** The progress values passed to the status callback, oldest first. *)
Definition percentages (s : state) : list number :=
  call_progress <$> status_calls s.

(** *** Methods that may raise *)

Inductive outcome (A : Type) :=
| Return (a : A)
| Raise (e : exn).
Arguments Return {A} a.
Arguments Raise {A} e.

Definition M (A : Type) : Type := state -> outcome A * state.

Definition ret {A} (a : A) : M A := fun s => (Return a, s).
Definition raise {A} (e : exn) : M A := fun s => (Raise e, s).
Definition bind {A B} (m : M A) (k : A -> M B) : M B :=
  fun s => match m s with
           | (Return a, s') => k a s'
           | (Raise e, s') => (Raise e, s')
           end.
Definition modify (f : state -> state) : M unit := fun s => (Return tt, f s).
Definition gets {A} (f : state -> A) : M A := fun s => (Return (f s), s).

(** [try: body except Exception: handler] *)
Definition try_except {A} (body : M A) (handler : exn -> M A) : M A :=
  fun s => match body s with
           | (Return a, s') => (Return a, s')
           | (Raise e, s') => handler e s'
           end.

(** An IO step that raises when the environment says so. *)
Definition io_step (error : option exn) : M unit :=
  match error with
  | Some e => raise e
  | None => ret tt
  end.

#[global] Instance M_ret : MRet M := @ret.
#[global] Instance M_bind : MBind M := fun A B k m => bind m k.

(** ** Session store *)

(** The JSON document of [transfer_session.json]. *)
Record session_data := SessionData {
  sd_source_dir : string;
  sd_target_dir : string;
  sd_total_transfer_size : Z;
  sd_task_plan : list task;
  sd_completed_task_ids : list string;
}.

(** [(processed / total) * 100]; [None] is ZeroDivisionError. *)
Definition progress_of (processed total : Z) : option spec_float :=
  q ← int_truediv processed total;
  Some (float_mul_int q 100).

(** Lines 1587-1595: one iteration of the filter loop. *)
Definition load_step (s : state) (t : task) : state :=
  if bool_decide (task_id t ∈ completed_task_ids s) then
    match t with
    | Pack _ _ fs => set_processed_size (processed_size s + sum_sizes fs) s
    | MoveLarge _ fi => set_processed_size (processed_size s + size fi) s
    | ResumeExtract _ _ _ => s
    end
  else set_task_plan (task_plan s ++ [t]) s.

(** [_load_session]. [file] is what [json.load] returns for the session
    file, [None] when opening or parsing it raises. *)
Definition load_session (cfg : config) (file : option session_data)
    (s : state) : bool * state :=
  match file with
  | None => (false, s)
  | Some sd =>
      if negb (String.eqb (sd_source_dir sd) (source_dir cfg))
         || negb (String.eqb (sd_target_dir sd) (target_dir cfg))
      then (false, s)
      else
        let s := set_total_transfer_size (sd_total_transfer_size sd) s in
        let s :=
          set_completed_task_ids (list_to_set (sd_completed_task_ids sd)) s in
        let s := set_processed_size 0 s in
        let s := set_task_plan [] s in
        let s := fold_left load_step (sd_task_plan sd) s in
        let s :=
          if 0 <? total_transfer_size s then
            match progress_of (processed_size s) (total_transfer_size s) with
            | Some progress => emit MsgRestored (PyFloat progress) s
            | None => s
            end
          else s in
        (true, s)
  end.

(** Lines 1016-1027 of [run]: a session that does not load makes the
    run a fresh one. *)
Definition run_resume (cfg : config) (file : option session_data)
    (s : state) : state :=
  let s :=
    if resume_session s then
      match load_session cfg file s with
      | (true, s') => s'
      | (false, s') =>
          set_processed_size 0
            (set_total_transfer_size 0
               (set_task_plan [] (set_resume_session false s')))
      end
    else s in
  set_recovery_tasks [] s.

(** [f"pack_{pack_id}.7z"] *)
Definition archive_name (pack_id : Z) : string :=
  "pack_" ++ PyStr.str pack_id ++ ".7z".

(** Line 1524: the dict comprehension; a later task replaces an earlier
    one with the same pack_id. *)
Definition index_pack (m : gmap Z task) (t : task) : gmap Z task :=
  match t with
  | Pack _ p _ => <[p := t]> m
  | _ => m
  end.

Definition pack_id_to_task (full_task_plan : list task) : gmap Z task :=
  fold_left index_pack full_task_plan ∅.

(** Lines 1537-1538: the copy of the task with its type replaced. *)
Definition as_resume_extract (t : task) : task :=
  match t with
  | Pack i p fs => ResumeExtract i p fs
  | _ => t
  end.

(** Line 1531: [int(item.split('_')[1].split('.')[0])]; [None] when
    ValueError or IndexError is raised. *)
Definition parse_pack_id (item : string) : option Z :=
  a ← PyStr.index (PyStr.split "_" item) 1;
  b ← PyStr.index (PyStr.split "." a) 0;
  PyStr.int b.

(** Lines 1529-1544: one iteration over the cache directory. *)
Definition recovery_step (pack_id_to_task : gmap Z task) (s : state)
    (item : string) : state :=
  if PyStr.startswith item "pack_" && PyStr.endswith item ".7z" then
    match parse_pack_id item with
    | None => s
    | Some pack_id =>
        match pack_id_to_task !! pack_id with
        | Some original_task =>
            if bool_decide (task_id original_task ∈ completed_task_ids s)
            then s
            else
              let s :=
                set_recovery_tasks
                  (recovery_tasks s ++ [as_resume_extract original_task]) s in
              set_task_plan
                (List.filter
                   (fun t => negb (String.eqb (task_id t)
                                     (task_id original_task)))
                   (task_plan s)) s
        | None => s
        end
    end
  else s.

(** [_plan_recovery_tasks]. [file] is the parsed session file, [None]
    when it cannot be read; [listing] is [os.listdir(self.cache_dir)],
    [None] when the cache directory does not exist. *)
Definition plan_recovery_tasks (file : option session_data)
    (listing : option (list string)) (s : state) : state :=
  match file with
  | None => s
  | Some sd =>
      let pack_id_to_task := pack_id_to_task (sd_task_plan sd) in
      match listing with
      | None => s
      | Some items => fold_left (recovery_step pack_id_to_task) items s
      end
  end.

(** ** Execution pipeline *)

(** [transfer_executor.submit(self._process_main_task, task)] followed
    by the two lines that register the future. *)
Definition submit_main (s : state) (t : task) : state :=
  let fut := next_future s in
  set_next_future (S fut)
    (set_transfer_submitted (transfer_submitted s ++ [(fut, t)])
       (set_active_futures (<[fut := t]> (active_futures s))
          (set_pending (<[fut := ProcessMainTask t]> (pending s)) s))).

(** Lines 1214-1224 of [_execute_plan]: the recovery tasks are
    submitted, then the tasks of the plan. *)
Definition execute_plan_submit (s : state) : state :=
  let s := set_active_futures ∅ s in
  let s := fold_left submit_main (recovery_tasks s) s in
  fold_left submit_main (task_plan s) s.

(** [self.cleanup_executor.submit(...)]: the new future. *)
Definition submit_cleanup (j : job) : M nat :=
  fun s => let fut := next_future s in
           (Return fut,
            set_next_future (S fut) (set_pending (<[fut := j]> (pending s)) s)).

(** [_mark_task_complete] *)
Definition mark_task_complete (t : task) : M unit :=
  modify (fun s =>
    set_completed_task_queue (completed_task_queue s ++ [task_id t]) s).

(** [_update_progress] *)
Definition update_progress (t : task) (failed : bool) : M unit :=
  fun s =>
    let s := set_processed_size (processed_size s + task_size t) s in
    match progress_of (processed_size s) (total_transfer_size s) with
    | None => (Raise ZeroDivisionError, s)
    | Some progress =>
        if failed then (Return tt, emit MsgTaskSkipped (PyFloat progress) s)
        else
          match int_of_float progress with
          | None => (Raise OverflowError, s)
          | Some p =>
              if last_reported_progress s <? p
              then (Return tt,
                    emit (MsgProgress p) (PyFloat progress)
                      (set_last_reported_progress p s))
              else (Return tt, s)
          end
    end.

(** What the environment decides for one run of [_process_main_task]:
    the exception, if any, that ends the pack phase (file list and
    archiver [a]), the extract phase (archiver [x]) or the move or copy
    of a large file. *)
Record main_io := MainIO {
  pack_error : option exn;
  extract_error : option exn;
  move_error : option exn;
}.

(** The dict [_process_main_task] returns. *)
Inductive main_result :=
| PackCleanup (delete_future : option nat)
    (cache_files_to_delete : list string)
| LargeCleanup (source_files_for_dir_cleanup : list string).

Definition path_join (cfg : config) (a b : string) : string :=
  a ++ os_sep (os cfg) ++ b.

Definition cache_dir (cfg : config) : string :=
  path_join cfg (source_dir cfg) "_fast_transfer_cache_".

(** [_long_path_prefix], for a path that is absolute already. *)
Definition long_path_prefix (cfg : config) (p : string) : string :=
  if os_name_nt (os cfg) then
    if PyStr.startswith p "\\" then p else "\\?\" ++ p
  else p.

Definition cache_files_of (cfg : config) (pack_id : Z) : list string :=
  [long_path_prefix cfg (path_join cfg (cache_dir cfg) (archive_name pack_id));
   path_join cfg (cache_dir cfg)
     ("filelist_" ++ PyStr.str pack_id ++ ".txt")].

(** [_process_main_task] *)
Definition process_main_task (cfg : config) (t : task) (io : main_io)
  : M main_result :=
  match t with
  | Pack _ pack_id fs | ResumeExtract _ pack_id fs =>
      ((if is_pack t then io_step (pack_error io) else ret tt);;
       delete_future ←
         (if copy_only cfg then ret None
          else (fut ← submit_cleanup
                        (DeleteSourceFiles (path <$> fs) None);
                ret (Some fut)));
       io_step (extract_error io);;
       ret (PackCleanup delete_future (cache_files_of cfg pack_id)))
  | MoveLarge _ fi =>
      (io_step (move_error io);;
       ret (LargeCleanup (if copy_only cfg then [] else [path fi])))
  end.

(** [delete_future.add_done_callback(lambda df: ...)] *)
Definition add_final_cleanup_callback (fut : nat) (t : task)
    (cache_files : list string) : M unit :=
  modify (fun s =>
    match pending s !! fut with
    | Some (DeleteSourceFiles paths _) =>
        set_pending
          (<[fut := DeleteSourceFiles paths (Some (t, cache_files))]>
             (pending s)) s
    | _ => s
    end).

(** The three lines that submit a cleanup job and register its future. *)
Definition submit_tracked_cleanup (j : job) (t : task) : M unit :=
  cleanup_future ← submit_cleanup j;
  modify (fun s =>
    set_active_futures (<[cleanup_future := t]> (active_futures s)) s).

(** [self.active_futures.pop(future, None)] *)
Definition pop_active_future (fut : nat) : M (option task) :=
  fun s => (Return (active_futures s !! fut),
            set_active_futures (delete fut (active_futures s)) s).

(** The [except Exception] branch shared by the three callbacks. *)
Definition on_failure (t : task) : M unit :=
  modify (set_transfer_failed true);;
  update_progress t true.

(** [_main_task_done_callback]; [result] is what [future.result()]
    returns or raises. *)
Definition main_task_done_callback (fut : nat) (result : outcome main_result)
  : M unit :=
  original_task ← pop_active_future fut;
  match original_task with
  | None => ret tt
  | Some original_task =>
      try_except
        (match result with
         | Raise e => raise e
         | Return (PackCleanup (Some delete_future) cache_files) =>
             add_final_cleanup_callback delete_future original_task
               cache_files
         | Return (PackCleanup None cache_files) =>
             submit_tracked_cleanup (CleanupCacheOnly cache_files)
               original_task
         | Return (LargeCleanup ((_ :: _) as source_files)) =>
             submit_tracked_cleanup (CleanupEmptyDirs source_files)
               original_task
         | Return (LargeCleanup []) =>
             (mark_task_complete original_task;;
              update_progress original_task false)
         end)
        (fun _ => on_failure original_task)
  end.

(** [_final_cleanup_callback]; [deleted] is what
    [delete_future.result()] returns or raises, the two errors are those
    of [_cleanup_cache_only] and [_cleanup_empty_dirs_task]. *)
Definition final_cleanup_callback (deleted : outcome (list string))
    (original_task : task) (cache_error dirs_error : option exn) : M unit :=
  try_except
    (match deleted with
     | Raise e => raise e
     | Return deleted_source_files =>
         (io_step cache_error;;
          io_step dirs_error;;
          mark_task_complete original_task;;
          update_progress original_task false)
     end)
    (fun _ => on_failure original_task).

(** [_cleanup_task_done_callback] *)
Definition cleanup_task_done_callback (fut : nat) (result : outcome unit)
  : M unit :=
  original_task ← pop_active_future fut;
  match original_task with
  | None => ret tt
  | Some original_task =>
      try_except
        (match result with
         | Raise e => raise e
         | Return _ =>
             (mark_task_complete original_task;;
              update_progress original_task false)
         end)
        (fun _ => on_failure original_task)
  end.

(** What can happen next in the two pools. A future that is done runs
    its done-callbacks at once; what a job met on the disk and in the
    archiver comes with the event. *)
Inductive event :=
| MainDone (fut : nat) (io : main_io)
| MainCancelled (fut : nat)
| DeleteDone (fut : nat) (error : option exn) (stop_seen : bool)
    (cache_error dirs_error : option exn)
| CleanupDone (fut : nat) (error : option exn)
| Stop.

Definition result_of {A} (error : option exn) (a : A) : outcome A :=
  match error with
  | Some e => Raise e
  | None => Return a
  end.

(** One event. An exception that leaves a done-callback is logged by
    the executor and dropped. [None]: the event cannot happen in [s]. *)
Definition handle (cfg : config) (ev : event) (s : state) : option state :=
  match ev with
  | MainDone fut io =>
      match pending s !! fut with
      | Some (ProcessMainTask t) =>
          let s := set_pending (delete fut (pending s)) s in
          let '(result, s) := process_main_task cfg t io s in
          Some (snd (main_task_done_callback fut result s))
      | _ => None
      end
  | MainCancelled fut =>
      match pending s !! fut with
      | Some (ProcessMainTask t) =>
          if stop_event s then
            let s := set_pending (delete fut (pending s)) s in
            Some (snd (main_task_done_callback fut (Raise CancelledError) s))
          else None
      | _ => None
      end
  | DeleteDone fut error stop_seen cache_error dirs_error =>
      match pending s !! fut with
      | Some (DeleteSourceFiles paths callback) =>
          let s := set_pending (delete fut (pending s)) s in
          match callback with
          | None => Some s
          | Some (t, cache_files) =>
              let deleted :=
                result_of error (if stop_seen then [] else paths) in
              Some (snd (final_cleanup_callback deleted t
                           cache_error dirs_error s))
          end
      | _ => None
      end
  | CleanupDone fut error =>
      match pending s !! fut with
      | Some (CleanupCacheOnly _) | Some (CleanupEmptyDirs _) =>
          let s := set_pending (delete fut (pending s)) s in
          Some (snd (cleanup_task_done_callback fut (result_of error tt) s))
      | _ => None
      end
  | Stop => Some (set_stop_event true s)
  end.

(** A sequence of events. *)
Fixpoint run_events (cfg : config) (evs : list event) (s : state)
  : option state :=
  match evs with
  | [] => Some s
  | ev :: evs' => s' ← handle cfg ev s; run_events cfg evs' s'
  end.

(** The guard of the teardown in the [finally] block of [run]. *)
Definition teardown_runs (s : state) : bool :=
  negb (stop_event s) && negb (transfer_failed s).

(** The ids [_write_session_to_disk] writes once the writer thread has
    consumed the queue. *)
Definition written_completed_ids (s : state) : gset string :=
  completed_task_ids s ∪ list_to_set (completed_task_queue s).

(** ** Archiver supervisor: [_run_command_with_retry] *)

Module Supervisor.

(** What one attempt meets: the child and the cancellation flag at the
    three places where the loop reads it. *)
Inductive child :=
| Exited (returncode : Z)       (* [communicate] returns *)
| TimedOut                      (* [communicate] raises TimeoutExpired *)
| Failed (e : exn).             (* [Popen] or [communicate] raises another
                                   exception *)

Record attempt := Attempt {
  stop_at_start : bool;   (* line 1253 *)
  child_of : child;
  stop_after : bool;      (* line 1272, resp. line 1281 *)
}.

(** What the supervisor does to children, oldest first. *)
Inductive action :=
| Popen (i : nat)
| Kill (i : nat).

(** The body of the loop for the attempts [idx]; [env i] is what attempt
    [i] meets. Both the plain [return] and the return on cancellation
    give [None], here [Return tt]. *)
Fixpoint retry_loop (retries : nat) (env : nat -> attempt) (idx : list nat)
  : outcome unit * list action :=
  match idx with
  | [] => (Return tt, [])
  | i :: rest =>
      if stop_at_start (env i) then (Return tt, [])
      else
        match child_of (env i) with
        | Exited returncode =>
            if stop_after (env i) then (Return tt, [Popen i])
            else if negb (returncode =? 0)
            then (Raise (CalledProcessError returncode), [Popen i])
            else (Return tt, [Popen i])
        | TimedOut =>
            if stop_after (env i) then (Return tt, [Popen i; Kill i])
            else if (i =? retries - 1)%nat
            then (Raise TimeoutExpired, [Popen i; Kill i])
            else
              let '(r, tr) := retry_loop retries env rest in
              (r, Popen i :: Kill i :: tr)
        | Failed e => (Raise e, [Popen i])
        end
  end.

(** [_run_command_with_retry(cmd, cwd, retries)] *)
Definition run_command_with_retry (retries : nat) (env : nat -> attempt)
  : outcome unit * list action :=
  retry_loop retries env (seq 0 retries).

(** The default of the parameter [retries]. *)
Definition default_retries : nat := 3.

(** Attempt [i] is started or cancelled at its start: every earlier
    attempt timed out with the flag never seen set. *)
Definition reached (env : nat -> attempt) (i : nat) : Prop :=
  forall j, (j < i)%nat ->
    stop_at_start (env j) = false
    /\ child_of (env j) = TimedOut
    /\ stop_after (env j) = false.

(** The actions of [i] attempts that all timed out. *)
Definition timed_out_attempts (i : nat) : list action :=
  flat_map (fun j => [Popen j; Kill j]) (seq 0 i).

Definition popen_count (tr : list action) : nat :=
  length (List.filter (fun a => match a with Popen _ => true | _ => false end)
            tr).

End Supervisor.

(** ** The file list of a pack: lines 1340-1345 of [_process_main_task] *)

Module FileList.

(** A Python [str] is held as the bytes of its UTF-8 encoding; a lone
    surrogate, which [os.walk] yields for a file name that is not valid
    Unicode and which UTF-8 proper excludes, is held as its three bytes
    ED A0..BF 80..BF, as [str.encode('utf-8', 'surrogatepass')] gives
    them. *)
Definition LF : string := String (ascii_of_nat 10) EmptyString.
Definition CRLF : string :=
  String (ascii_of_nat 13) (String (ascii_of_nat 10) EmptyString).

Definition windows : platform :=
  {| os_name_nt := true; os_sep := "\"; os_linesep := CRLF |}.
Definition posix : platform :=
  {| os_name_nt := false; os_sep := "/"; os_linesep := LF |}.

(** The two bytes [a], [b] start a surrogate, U+D800 to U+DFFF. *)
Definition is_surrogate (a b : ascii) : bool :=
  Ascii.eqb a (ascii_of_nat 237)
  && (160 <=? nat_of_ascii b)%nat && (nat_of_ascii b <=? 191)%nat.

(** [text] holds a surrogate: [text.encode('utf-8')] raises
    UnicodeEncodeError. *)
Fixpoint has_surrogate (text : string) : bool :=
  match text with
  | String a text' =>
      match text' with
      | String b _ => is_surrogate a b
      | EmptyString => false
      end
      || has_surrogate text'
  | EmptyString => false
  end.

(** What a file opened in text mode with the default [newline=None]
    does to the text it is given: every '\n' becomes [os.linesep]. *)
Fixpoint translate_newlines (linesep : string) (text : string) : string :=
  match text with
  | EmptyString => EmptyString
  | String a text' =>
      if Ascii.eqb a (ascii_of_nat 10)
      then linesep +:+ translate_newlines linesep text'
      else String a (translate_newlines linesep text')
  end.

(** [f.write(text)] on the file of line 1342, opened with
    [encoding='utf-8'] and the default [errors='strict']: the content
    of the file after the call. The text is encoded before any of it
    is written, so that a call that raises writes nothing. *)
Definition write (cfg : config) (content text : string)
  : outcome unit * string :=
  if has_surrogate text then (Raise UnicodeEncodeError, content)
  else (Return tt,
        content +:+ translate_newlines (os_linesep (os cfg)) text).

(** Lines 1343-1345: the loop, from the content [content]. [relpath]
    is [os.path.relpath], which is not modelled: it returns a str or
    raises (ValueError, for a path on another drive). An exception
    leaves the loop and the [with] block, which closes the file. *)
Fixpoint write_lines (relpath : string -> string -> outcome string)
    (cfg : config) (files : list file_info) (content : string)
  : outcome unit * string :=
  match files with
  | [] => (Return tt, content)
  | file_info :: files' =>
      match relpath (path file_info) (source_dir cfg) with
      | Raise e => (Raise e, content)
      | Return relative_path =>
          match write cfg content (relative_path +:+ LF) with
          | (Return _, content') => write_lines relpath cfg files' content'
          | (Raise e, content') => (Raise e, content')
          end
      end
  end.

(** Lines 1342-1345, once the file is opened (and truncated): how the
    [with] block is left, and the content of
    [filelist_<pack_id>.txt] then. Errors of the file system while the
    bytes are written are not modelled. *)
Definition write_filelist (relpath : string -> string -> outcome string)
    (cfg : config) (files : list file_info) : outcome unit * string :=
  write_lines relpath cfg files EmptyString.

(** The line of a file: its relative path, when [relpath] returns one
    that UTF-8 encodes. *)
Definition line_of (relpath : string -> string -> outcome string)
    (cfg : config) (file_info : file_info) : option string :=
  match relpath (path file_info) (source_dir cfg) with
  | Return relative_path =>
      if has_surrogate relative_path then None else Some relative_path
  | Raise _ => None
  end.

(** The lines of the files that come before the first file without a
    line. *)
Fixpoint leading_lines (relpath : string -> string -> outcome string)
    (cfg : config) (files : list file_info) : list string :=
  match files with
  | [] => []
  | file_info :: files' =>
      match line_of relpath cfg file_info with
      | Some line => line :: leading_lines relpath cfg files'
      | None => []
      end
  end.

(** The content the specification describes: the lines, each followed
    by [eol]. *)
Definition lines_with (eol : string) (lines : list string) : string :=
  foldr (fun line rest => line +:+ eol +:+ rest) EmptyString lines.

Definition has_no_LF (s : string) : bool :=
  all_chars (fun a => negb (Ascii.eqb a (ascii_of_nat 10))) s.

End FileList.

(** ** Reading a state *)

Definition is_resume_extract (t : task) : bool :=
  match t with ResumeExtract _ _ _ => true | _ => false end.

(** [task_id in completed_task_ids] *)
Definition completed_in (ids : gset string) (t : task) : bool :=
  bool_decide (task_id t ∈ ids).

(** The bytes of a list of tasks. *)
Definition sum_task_sizes (l : list task) : Z :=
  foldr (fun t acc => task_size t + acc) 0 l.

(** [self] as [__init__] leaves it. *)
Definition init_state (resume : bool) : state :=
  {| resume_session := resume; task_plan := []; recovery_tasks := [];
     total_transfer_size := 0; processed_size := 0;
     last_reported_progress := -1; completed_task_queue := [];
     completed_task_ids := ∅; stop_event := false;
     transfer_failed := false; active_futures := ∅; next_future := 0;
     transfer_submitted := []; pending := ∅; status_calls := [] |}.

(** ** Reading the pools *)

(** The future an event is about. *)
Definition future_of (ev : event) : option nat :=
  match ev with
  | MainDone fut _ | MainCancelled fut | DeleteDone fut _ _ _ _
  | CleanupDone fut _ => Some fut
  | Stop => None
  end.

(** The done-callback of the future [fut] will handle the task [t]: a
    main or cleanup future registered for [t] in [active_futures], or a
    delete future whose callback was made for [t]. *)
Definition live (s : state) (fut : nat) (t : task) : Prop :=
  match pending s !! fut with
  | Some (DeleteSourceFiles _ (Some (u, _))) => u = t
  | Some (DeleteSourceFiles _ None) => False
  | Some _ => active_futures s !! fut = Some t
  | None => False
  end.

(** Some future can still mark a task of id [tid] complete. *)
Definition can_complete (s : state) (tid : string) : Prop :=
  exists fut t, live s fut t /\ task_id t = tid.

(** [_process_main_task] raises on [t] with what it meets in [io]. *)
Definition main_raises (t : task) (io : main_io) : bool :=
  match t with
  | Pack _ _ _ => bool_decide (is_Some (pack_error io))
                  || bool_decide (is_Some (extract_error io))
  | ResumeExtract _ _ _ => bool_decide (is_Some (extract_error io))
  | MoveLarge _ _ => bool_decide (is_Some (move_error io))
  end.

(** The event [ev] is, in the state [s], the failure of the main phase
    or of the cleanup phase of the task [t] handled by the future
    [fut]. *)
Definition fails (s : state) (ev : event) (fut : nat) (t : task) : Prop :=
  match ev with
  | MainDone f io =>
      f = fut /\ pending s !! fut = Some (ProcessMainTask t)
      /\ active_futures s !! fut = Some t
      /\ main_raises t io = true
  | DeleteDone f error _ cache_error dirs_error =>
      f = fut
      /\ (exists paths cache_files,
            pending s !! fut
            = Some (DeleteSourceFiles paths (Some (t, cache_files))))
      /\ (is_Some error \/ is_Some cache_error \/ is_Some dirs_error)
  | CleanupDone f error =>
      f = fut
      /\ (exists files,
            pending s !! fut = Some (CleanupCacheOnly files)
            \/ pending s !! fut = Some (CleanupEmptyDirs files))
      /\ active_futures s !! fut = Some t
      /\ is_Some error
  | _ => False
  end.

(** *** The shapes of a step *)

(** The bytes of the task a delete future's callback was made for. *)
Definition callback_size (j : job) : Z :=
  match j with
  | DeleteSourceFiles _ (Some (t, _)) => task_size t
  | _ => 0
  end.


(** The end of a task that went well: the [try] block
    [_mark_task_complete(t); _update_progress(t)] under the handler
    shared by the callbacks. *)
Definition finish (t : task) : M unit :=
  try_except (mark_task_complete t;; update_progress t false)
    (fun _ => on_failure t).

(** The pools once the future [fut] is done: it leaves [pending], it
    leaves [active_futures] when its callback pops it, and the delete
    job [extra], if any, was submitted meanwhile. *)
Definition pools_after (fut : nat) (extra : option job) (pops : bool)
    (s : state) : state :=
  let s :=
    match extra with
    | Some j =>
        set_next_future (S (next_future s))
          (set_pending (<[next_future s := j]> (delete fut (pending s))) s)
    | None => set_pending (delete fut (pending s)) s
    end in
  if pops then set_active_futures (delete fut (active_futures s)) s else s.

(** The pools once the main future [fut] of the task [t] is done and
    its callback has handed [t] over to the new future of the job [j],
    registered in [active_futures] when [track] is set. *)
Definition handed_over (fut : nat) (j : job) (track : bool) (t : task)
    (s : state) : state :=
  let n := next_future s in
  let s := set_next_future (S n)
             (set_pending (<[n := j]> (delete fut (pending s))) s) in
  set_active_futures
    ((if track then <[n := t]> else id) (delete fut (active_futures s))) s.

(** The callback of the future [fut] got the task [t]: from
    [active_futures] when it pops the future there, and else from the
    closure made for the delete future. *)
Definition owner (s : state) (fut : nat) (pops : bool) (t : task) : Prop :=
  if pops then active_futures s !! fut = Some t
  else exists paths cf,
         pending s !! fut = Some (DeleteSourceFiles paths (Some (t, cf))).

(** The job [j] carries on with the task [t], registered in
    [active_futures] when [track] is set. *)
Definition carries_on (j : job) (track : bool) (t : task) : Prop :=
  match j with
  | DeleteSourceFiles _ (Some (u, _)) => track = false /\ u = t
  | CleanupCacheOnly _ | CleanupEmptyDirs _ => track = true
  | _ => False
  end.

Definition without_callback (extra : option job) : Prop :=
  forall j, extra = Some j -> exists paths, j = DeleteSourceFiles paths None.

(** What an event can do to a state: set the flag; end a future nobody
    waits for; hand the task of a main future over to a cleanup future;
    finish a task; fail a task. *)
Inductive step_shape (s : state) (ev : event) : state -> Prop :=
| shape_stop :
    ev = Stop -> step_shape s ev (set_stop_event true s)
| shape_orphan fut extra pops :
    future_of ev = Some fut ->
    is_Some (pending s !! fut) ->
    (forall t, ~ live s fut t) ->
    without_callback extra ->
    step_shape s ev (pools_after fut extra pops s)
| shape_handed_over fut t j track :
    future_of ev = Some fut ->
    live s fut t ->
    active_futures s !! fut = Some t ->
    carries_on j track t ->
    step_shape s ev (handed_over fut j track t s)
| shape_finished fut t pops :
    future_of ev = Some fut ->
    live s fut t ->
    owner s fut pops t ->
    step_shape s ev (snd (finish t (pools_after fut None pops s)))
| shape_failed fut t extra pops :
    future_of ev = Some fut ->
    live s fut t ->
    owner s fut pops t ->
    without_callback extra ->
    step_shape s ev (snd (on_failure t (pools_after fut extra pops s))).

(** What the end of a task leaves as it is. *)
Definition same_pools (s s' : state) : Prop :=
  pending s' = pending s
  /\ active_futures s' = active_futures s
  /\ next_future s' = next_future s
  /\ stop_event s' = stop_event s
  /\ total_transfer_size s' = total_transfer_size s
  /\ task_plan s' = task_plan s
  /\ recovery_tasks s' = recovery_tasks s
  /\ completed_task_ids s' = completed_task_ids s.

(** The status calls [calls] were made by [_update_progress] when
    [processed_size] was [p]: none, or one whose value is
    [(p / total) * 100]. *)
Definition progress_calls (total p : Z) (calls : list status_call) : Prop :=
  calls = []
  \/ exists m f, progress_of p total = Some f
                 /\ calls = [StatusCall m (PyFloat f)].


(** Futures are numbered in the order of their creation. *)
Definition fresh_futures (s : state) : Prop :=
  (forall fut j, pending s !! fut = Some j -> (fut < next_future s)%nat)
  /\ (forall fut t, active_futures s !! fut = Some t ->
        (fut < next_future s)%nat).

(** The sum of [f] over the values of a dict. *)
Definition sum_over {A} (f : A -> Z) (m : gmap nat A) : Z :=
  map_fold (fun _ a acc => f a + acc) 0 m.

(** The bytes still to be credited: those of the tasks registered in
    [active_futures] and those of the tasks awaiting their final
    cleanup. *)
Definition owed (s : state) : Z :=
  sum_over task_size (active_futures s) + sum_over callback_size (pending s).

(** No size is negative in the pools. *)
Definition nonneg_sizes (s : state) : Prop :=
  (forall fut t, active_futures s !! fut = Some t -> 0 <= task_size t)
  /\ (forall fut j, pending s !! fut = Some j -> 0 <= callback_size j).

(** The accounts of a run of [total] bytes: what has been credited and
    what the pools still owe never exceed [total]. *)
Definition accounted (total : Z) (s : state) : Prop :=
  total_transfer_size s = total
  /\ fresh_futures s
  /\ nonneg_sizes s
  /\ 0 <= processed_size s
  /\ processed_size s + owed s <= total.

(** The values of a list of status calls never decrease. *)
Definition non_decreasing (calls : list status_call) : Prop :=
  forall i j x y, (i < j)%nat ->
    calls !! i = Some x -> calls !! j = Some y ->
    py_le (call_progress x) (call_progress y) = true.

(** The status calls [calls] report, in this order, the progress of
    counter values between 0 and [p]. *)
Definition reported (total p : Z) (calls : list status_call) : Prop :=
  non_decreasing calls
  /\ Forall (fun c => exists q f,
                0 <= q <= p /\ progress_of q total = Some f
                /\ call_progress c = PyFloat f) calls.

(** Rounding to nearest is monotone: what [(p / total) * 100]
    evaluates to does not decrease when [p] grows from 0 to [total]. *)
Definition rounding_monotone (total : Z) : Prop :=
  forall p p' f f',
    0 <= p <= p' -> p' <= total ->
    progress_of p total = Some f -> progress_of p' total = Some f' ->
    py_le (PyFloat f) (PyFloat f') = true.

(** ** Worker count and numeric settings *)

(** [get_optimal_worker_count]. [psutil] is [None] when the module
    could not be imported; else it holds what the calls
    [cpu_count(logical=False)] and [cpu_count(logical=True)] do. *)
Definition get_optimal_worker_count
    (psutil : option (outcome (option Z) * outcome (option Z))) : Z :=
  match psutil with
  | None => 4
  | Some (Return p_cores, Return l_cores) =>
      match p_cores, l_cores with
      | Some p_cores, Some l_cores =>
          if l_cores =? p_cores * 2 then Z.max 1 (p_cores `div` 2)
          else if l_cores =? p_cores then Z.max 1 (p_cores `div` 2)
          else
            let p_core_count := l_cores - p_cores in
            if 0 <? p_core_count then p_core_count
            else Z.max 1 (p_cores `div` 2)
      | _, _ => 8
      end
  | Some _ => 4
  end.

(** Lines 424-440 of [start_transfer]: the numeric settings read from
    the four entry fields and the performance mode. [None] is the
    ValueError that ends in the message box "设置错误". *)
Definition parse_settings (max_workers_var chunk_size_var file_limit_var
    timeout_var performance_mode : string) : option (Z * Z * Z * Z) :=
  base_max_workers ← PyStr.int max_workers_var;
  let max_workers :=
    if String.eqb performance_mode "normal"
    then Z.max 1 (base_max_workers `div` 2)
    else base_max_workers in
  chunk_size_mb ← PyStr.int chunk_size_var;
  file_limit ← PyStr.int file_limit_var;
  timeout ← PyStr.int timeout_var;
  if (max_workers <=? 0) || (chunk_size_mb <=? 0) || (file_limit <=? 0)
     || (timeout <=? 0)
  then None
  else Some (max_workers, chunk_size_mb, file_limit, timeout).

(** The settings of a first start: lines 208-211 and 215. *)
Definition default_settings
    (psutil : option (outcome (option Z) * outcome (option Z)))
    (performance_mode : string) : option (Z * Z * Z * Z) :=
  parse_settings (PyStr.str (get_optimal_worker_count psutil))
    "64" "500" "10" performance_mode.

(** ** File operations with retries *)

Module FileOps.

(** What a file operation raises: FileNotFoundError, another OSError
    (IOError is the same class), or an exception that is no OSError. *)
Inductive raised :=
| FileNotFoundError
| OtherOSError
| NotOSError.

Definition is_OSError (e : raised) : bool :=
  match e with NotOSError => false | _ => true end.

Inductive result (A : Type) :=
| Ok (a : A)
| Raised (e : raised).
Arguments Ok {A} a.
Arguments Raised {A} e.

(** The calls an attempt makes, oldest first. *)
Inductive action :=
| Copy (i : nat)     (* [shutil.copy2] *)
| Stat (i : nat)     (* [os.stat] *)
| Chmod (i : nat)    (* [os.chmod] *)
| Remove (i : nat)   (* [os.remove] *)
| Sleep (i : nat).   (* [time.sleep(delay)] *)

(** The body of the loop of [_copy_large_file_with_retry] for the
    attempts [idx]; [env i] is what [shutil.copy2] raises at attempt
    [i]. *)
Fixpoint copy_loop (retries : nat) (env : nat -> option raised)
    (idx : list nat) : result unit * list action :=
  match idx with
  | [] => (Ok tt, [])
  | i :: rest =>
      match env i with
      | None => (Ok tt, [Copy i])
      | Some e =>
          if is_OSError e then
            if (i <? retries - 1)%nat then
              let '(r, tr) := copy_loop retries env rest in
              (r, Copy i :: Sleep i :: tr)
            else (Raised e, [Copy i])
          else (Raised e, [Copy i])
      end
  end.

(** [_copy_large_file_with_retry(source, dest, retries)] *)
Definition copy_large_file_with_retry (retries : nat)
    (env : nat -> option raised) : result unit * list action :=
  copy_loop retries env (seq 0 retries).

(** What the inner [try] of [_remove_file_with_retry] meets. *)
Inductive attributes :=
| Writable                          (* S_IWRITE is set: no chmod *)
| ReadOnly (chmod : option raised)  (* S_IWRITE is clear: chmod, which
                                       may raise *)
| StatRaises (e : raised).

Record removal := Removal {
  attributes_of : attributes;
  remove_of : option raised;   (* what [os.remove] raises *)
}.

(** The inner [try] returns True: the file is gone. *)
Definition vanished (a : removal) : bool :=
  match attributes_of a with
  | StatRaises FileNotFoundError | ReadOnly (Some FileNotFoundError) => true
  | _ => false
  end.

Definition inner_calls (i : nat) (a : removal) : list action :=
  match attributes_of a with
  | ReadOnly _ => [Stat i; Chmod i]
  | _ => [Stat i]
  end.

(** The body of the loop of [_remove_file_with_retry]; the result is
    [Some true], [Some false] or, when the loop ends without a
    [return], [None]. *)
Fixpoint remove_loop (retries : nat) (env : nat -> removal)
    (idx : list nat) : result (option bool) * list action :=
  match idx with
  | [] => (Ok None, [])
  | i :: rest =>
      if vanished (env i) then (Ok (Some true), inner_calls i (env i))
      else
        match remove_of (env i) with
        | None => (Ok (Some true), inner_calls i (env i) ++ [Remove i])
        | Some e =>
            if is_OSError e then
              if (i <? retries - 1)%nat then
                let '(r, tr) := remove_loop retries env rest in
                (r, inner_calls i (env i) ++ Remove i :: Sleep i :: tr)
              else (Ok (Some false), inner_calls i (env i) ++ [Remove i])
            else (Raised e, inner_calls i (env i) ++ [Remove i])
        end
  end.

(** [_remove_file_with_retry(path, retries)] *)
Definition remove_file_with_retry (retries : nat) (env : nat -> removal)
  : result (option bool) * list action :=
  remove_loop retries env (seq 0 retries).

Definition count (p : action -> bool) (tr : list action) : nat :=
  length (List.filter p tr).
Definition is_copy (a : action) : bool :=
  match a with Copy _ => true | _ => false end.
Definition is_remove (a : action) : bool :=
  match a with Remove _ => true | _ => false end.
Definition is_sleep (a : action) : bool :=
  match a with Sleep _ => true | _ => false end.

(** Every attempt before [i] ended in an OSError of the copy. *)
Definition copies_failed (env : nat -> option raised) (i : nat) : Prop :=
  forall j, (j < i)%nat -> exists e, env j = Some e /\ is_OSError e = true.

(** Every attempt before [i] found the file and ended in an OSError of
    the removal. *)
Definition removals_failed (env : nat -> removal) (i : nat) : Prop :=
  forall j, (j < i)%nat ->
    vanished (env j) = false
    /\ exists e, remove_of (env j) = Some e /\ is_OSError e = true.

End FileOps.

(** ** The throttle of [_update_progress] *)

(** The integer percentages of the "进度 n%" status calls, oldest
    first. *)
Definition progress_percents (calls : list status_call) : list Z :=
  omap (fun c => match call_message c with
                 | MsgProgress p => Some p
                 | _ => None
                 end) calls.

(** The "进度 n%" calls made so far carry strictly increasing
    percentages, none above [last_reported_progress], and each is
    [int(progress)] for the progress value passed with it. *)
Definition strictly_increasing (l : list Z) : Prop :=
  forall i j x y, (i < j)%nat -> l !! i = Some x -> l !! j = Some y -> x < y.

Definition throttled (s : state) : Prop :=
  strictly_increasing (progress_percents (status_calls s))
  /\ Forall (fun p => p <= last_reported_progress s)
       (progress_percents (status_calls s))
  /\ Forall (fun c => match call_message c with
                      | MsgProgress p =>
                          exists f, call_progress c = PyFloat f
                                    /\ int_of_float f = Some p
                      | _ => True
                      end) (status_calls s).

(** ** The session file and its writer thread *)

(** What [_save_session] meets: [open] fails and leaves the file as it
    was, or [json.dump] fails and leaves a truncated file, which does
    not parse. *)
Inductive save_io := SaveOk | OpenFails | DumpFails.

(** [_save_session]. The session file is [None] when it is missing or
    does not parse. *)
Definition save_session (cfg : config) (io : save_io) (s : state)
    (file : option session_data) : option session_data :=
  match io with
  | SaveOk =>
      Some {| sd_source_dir := source_dir cfg;
              sd_target_dir := target_dir cfg;
              sd_total_transfer_size := total_transfer_size s;
              sd_task_plan := task_plan s;
              sd_completed_task_ids := [] |}
  | OpenFails => file
  | DumpFails => None
  end.

(** What [_write_session_to_disk] meets: an IOError other than
    FileNotFoundError while the file is read, or an IOError while the
    temporary file is written or moved over the session file. *)
Inductive disk_io := DiskOk | ReadFails | WriteFails.

(** [_write_session_to_disk]: the session file afterwards.
    [list(self.completed_task_ids)] comes in the order of the set. *)
Definition write_session_to_disk (cfg : config) (io : disk_io) (s : state)
    (file : option session_data) : option session_data :=
  match io with
  | DiskOk =>
      let session_data :=
        match file with
        | Some sd => sd
        | None =>
            {| sd_source_dir := source_dir cfg;
               sd_target_dir := target_dir cfg;
               sd_total_transfer_size := total_transfer_size s;
               sd_task_plan := task_plan s;
               sd_completed_task_ids := [] |}
        end in
      Some {| sd_source_dir := sd_source_dir session_data;
              sd_target_dir := sd_target_dir session_data;
              sd_total_transfer_size := sd_total_transfer_size session_data;
              sd_task_plan := sd_task_plan session_data;
              sd_completed_task_ids := elements (completed_task_ids s) |}
  | ReadFails | WriteFails => file
  end.

(** What [completed_task_queue.get(timeout=1.0)] gives. *)
Inductive got :=
| GotId (task_id : string)
| GotNone               (* the sentinel [run] puts in its [finally] *)
| QueueEmpty.           (* [queue.Empty] after the timeout *)

(** One turn of the loop: the item, what [time.time()] returns after
    it, and what a write of this turn would meet. *)
Record turn := Turn {
  got_of : got;
  current_time : spec_float;
  disk_of : disk_io;
}.

(** [self] and the session file, with the locals of
    [_session_writer_loop]. *)
Record writer := Writer {
  w_state : state;
  w_file : option session_data;
  pending_ids : bool;
  last_write_time : spec_float;
}.

Definition writer_adds (task_id : string) (w : writer) : writer :=
  {| w_state := set_completed_task_ids
                  ({[task_id]} ∪ completed_task_ids (w_state w)) (w_state w);
     w_file := w_file w;
     pending_ids := true;
     last_write_time := last_write_time w |}.

Definition writer_writes (cfg : config) (io : disk_io) (w : writer)
  : writer :=
  {| w_state := w_state w;
     w_file := write_session_to_disk cfg io (w_state w) (w_file w);
     pending_ids := pending_ids w;
     last_write_time := last_write_time w |}.

(** Lines 1639-1644: the periodic write. *)
Definition periodic_write (cfg : config) (x : turn) (w : writer) : writer :=
  if pending_ids w
     && py_gt (PyFloat (SFsub prec emax (current_time x) (last_write_time w)))
          (PyFloat (float_of_int 5))
  then
    let w := writer_writes cfg (disk_of x) w in
    {| w_state := w_state w; w_file := w_file w;
       pending_ids := false; last_write_time := current_time x |}
  else w.

(** The [while True] loop for the turns [turns]; the flag tells
    whether the loop has left through its [break]. *)
Fixpoint writer_loop (cfg : config) (turns : list turn) (w : writer)
  : writer * bool :=
  match turns with
  | [] => (w, false)
  | x :: rest =>
      match got_of x with
      | GotNone =>
          ((if pending_ids w then writer_writes cfg (disk_of x) w else w),
           true)
      | GotId task_id =>
          writer_loop cfg rest (periodic_write cfg x (writer_adds task_id w))
      | QueueEmpty => writer_loop cfg rest (periodic_write cfg x w)
      end
  end.

(** [_session_writer_loop], started at the time [start]. *)
Definition session_writer_loop (cfg : config) (start : spec_float)
    (turns : list turn) (s : state) (file : option session_data)
  : writer * bool :=
  writer_loop cfg turns
    {| w_state := s; w_file := file; pending_ids := false;
       last_write_time := start |}.

(** The ids taken from the queue in [turns], oldest first. *)
Definition ids_got (turns : list turn) : list string :=
  omap (fun x => match got_of x with GotId i => Some i | _ => None end) turns.

(** The session file holds the completed ids [ids], and else what the
    document [sd] holds. *)
Definition file_holds (file : option session_data) (sd : session_data)
    (ids : gset string) : Prop :=
  exists sd',
    file = Some sd'
    /\ sd_source_dir sd' = sd_source_dir sd
    /\ sd_target_dir sd' = sd_target_dir sd
    /\ sd_total_transfer_size sd' = sd_total_transfer_size sd
    /\ sd_task_plan sd' = sd_task_plan sd
    /\ list_to_set (sd_completed_task_ids sd') = ids.

(** One turn that does not take the sentinel. *)
Definition writer_turn (cfg : config) (w : writer) (x : turn) : writer :=
  periodic_write cfg x
    match got_of x with
    | GotId task_id => writer_adds task_id w
    | _ => w
    end.

(** ** The whole run *)

(** What reading the session file gives [_load_session]. *)
Inductive session_read :=
| SessionUnreadable        (* IOError or JSONDecodeError, which are caught *)
| SessionDocument (sd : session_data)
| SessionRaises (e : exn)  (* [open] or [json.load] raises another
                              exception, as UnicodeDecodeError *)
| SessionBreaks (sd : session_data) (e : exn).
                           (* a document that holds what [sd] holds and
                              then a task on which the loop of lines
                              1587-1595 raises [e], as KeyError: an
                              exception of a dict access, which the
                              [except] clause does not catch *)

(** The document [_load_session] and [_plan_recovery_tasks] parse. *)
Definition document (read : session_read) : option session_data :=
  match read with
  | SessionDocument sd | SessionBreaks sd _ => Some sd
  | SessionUnreadable | SessionRaises _ => None
  end.

(** [except (IOError, json.JSONDecodeError)], line 1605: of the
    exceptions of [exn], OSError, of which IOError is another name, is
    caught. *)
Definition load_catches (e : exn) : bool :=
  match e with OSError => true | _ => false end.

(** The exception that leaves [_load_session], and [self] then. *)
Definition load_raises (cfg : config) (read : session_read) (s : state)
  : option (exn * state) :=
  match read with
  | SessionRaises e => if load_catches e then None else Some (e, s)
  | SessionBreaks sd e =>
      if negb (String.eqb (sd_source_dir sd) (source_dir cfg))
         || negb (String.eqb (sd_target_dir sd) (target_dir cfg))
      then None
      else
        let s := set_total_transfer_size (sd_total_transfer_size sd) s in
        let s :=
          set_completed_task_ids (list_to_set (sd_completed_task_ids sd)) s in
        let s := set_processed_size 0 s in
        let s := set_task_plan [] s in
        Some (e, fold_left load_step (sd_task_plan sd) s)
  | SessionUnreadable | SessionDocument _ => None
  end.

(** What [os.path.getsize] gives for a file of the walk. *)
Inductive getsize :=
| Size (size : Z)
| Vanished                 (* FileNotFoundError, which is caught *)
| GetsizeRaises (e : exn). (* another OSError, as PermissionError *)

(** What [run] meets: the session file; what the removal of the cache
    directory of lines 1021-1022 and [_prepare_environment] raise; the
    files the walk visits outside the cache directory with what
    [getsize] gives for each; what line 1524 of [_plan_recovery_tasks]
    raises (KeyError, for a task of the document that is not of the
    engine's making and that [sd] leaves out); the listing of the cache
    directory; the events of the two pools; and what the heartbeat loop
    of [_execute_plan] raises when it cancels the futures
    (RuntimeError, when a callback takes a future out of
    [active_futures] meanwhile). The callbacks of the host are taken to
    return. *)
Record run_env := RunEnv {
  env_session : session_read;
  env_reset : option exn;
  env_prepare : option exn;
  env_walk : list (string * getsize);
  env_recovery : option exn;
  env_cache_listing : option (list string);
  env_events : list event;
  env_heartbeat : option exn;
}.

(** The steps of [run] that leave [self] alone. *)
Inductive run_action :=
| RmtreeCache            (* lines 1021-1022, after a session that did not
                            load: the cache directory, if any, removed *)
| PrepareEnvironment     (* [_prepare_environment] *)
| SaveSession            (* [_save_session] *)
| StopWriter             (* the sentinel and the join, lines 1049-1050 *)
| Cleanup                (* [_cleanup] *)
| RemoveSourceDir        (* [shutil.rmtree(source_dir)] *)
| CreateSymbolicLink.    (* [_create_symbolic_link] *)

(** [self.status_callback("完成！", 100)] *)
Definition done_call (s : state) : state := emit MsgDone (PyInt 100) s.

Definition is_nil {A} (l : list A) : bool :=
  match l with [] => true | _ => false end.

(** Lines 1109-1123 of [_scan_and_plan]: the walk, from the files
    [all_files] found so far. [self.total_transfer_size] grows file by
    file; an exception of [getsize] that is not FileNotFoundError
    leaves the method. *)
Fixpoint walk (entries : list (string * getsize))
    (all_files : list file_info) (s : state)
  : outcome (list file_info) * state :=
  match entries with
  | [] => (Return all_files, s)
  | (path, Size size) :: entries' =>
      walk entries' (all_files ++ [FileInfo path size])
        (set_total_transfer_size (total_transfer_size s + size) s)
  | (_, Vanished) :: entries' => walk entries' all_files s
  | (_, GetsizeRaises e) :: _ => (Raise e, s)
  end.

(** Lines 1125-1189 of [_scan_and_plan] on [self], for the files
    [all_files] of the walk. [None] stands for an exception. *)
Definition scan_into (uuid4 : nat -> string)
    (shuffle : list file_info -> list file_info) (cfg : config)
    (all_files : list file_info) (s : state) : option state :=
  '(total, ps) ← Planner.scan_and_plan uuid4 shuffle (max_workers cfg)
                   (chunk_size_limit cfg) (chunk_file_limit cfg) all_files
                   (Planner.PlanState (task_plan s) 0);
  Some (set_task_plan (Planner.task_plan ps)
          (set_total_transfer_size total s)).

(** Lines 1014-1035 of [run], from a flag [_stop_event] that is not
    set, in a run that comes to call [_execute_plan]: [self] at that
    call. [file] is the parsed session file, [None] when it cannot be
    read, [listing] the listing of the cache directory, [all_files]
    what the walk of a fresh start finds. [None]: an exception leaves
    [_scan_and_plan]. *)
Definition prepared (uuid4 : nat -> string)
    (shuffle : list file_info -> list file_info) (cfg : config)
    (file : option session_data) (listing : option (list string))
    (all_files : list file_info) (s : state) : option state :=
  let s1 := run_resume cfg file s in
  if resume_session s1 then Some (plan_recovery_tasks file listing s1)
  else scan_into uuid4 shuffle cfg all_files s1.

(** The pack id [_plan_recovery_tasks] reads in the name [item] of the
    cache directory, when it reads one (lines 1529-1531). *)
Definition listed_pack_id (item : string) : option Z :=
  if PyStr.startswith item "pack_" && PyStr.endswith item ".7z"
  then parse_pack_id item
  else None.

(** A listing of the cache directory that holds no archive but those
    this engine writes: the names of a directory are distinct, and
    each name [pack_....7z] is the [archive_name] of a pack id. *)
Definition engine_cache (items : list string) : Prop :=
  NoDup items
  /\ Forall (fun item =>
               PyStr.startswith item "pack_" && PyStr.endswith item ".7z"
               = true ->
               exists pack_id, item = archive_name pack_id) items.

(** A session document as this engine writes it: the total and the
    plan of a scan ([_save_session], after [_scan_and_plan]), whatever
    the completed ids. *)
Definition session_of_scan (sd : session_data) : Prop :=
  exists (uuid4 : nat -> string) (shuffle : list file_info -> list file_info)
         (max_workers chunk_size_limit chunk_file_limit : Z)
         (all_files : list file_info) (ps : Planner.plan_state),
    (forall l, shuffle l ≡ₚ l)
    /\ Forall (fun f => 0 <= size f) all_files
    /\ Planner.scan_and_plan uuid4 shuffle max_workers chunk_size_limit
         chunk_file_limit all_files (Planner.PlanState [] 0)
       = Some (sd_total_transfer_size sd, ps)
    /\ sd_task_plan sd = Planner.task_plan ps.

(** [_execute_plan]: [self] when the method is left, and the
    exception that leaves it. Nothing to do; or ValueError, which
    [ThreadPoolExecutor] raises for [max_workers <= 0]; or the
    submissions and the events of the pools until the [with] block has
    waited for every future, with what the heartbeat loop raised if the
    flag [_stop_event] was set. [None]: [evs] is not a run of the pools
    to their end. *)
Definition execute_plan (cfg : config) (evs : list event)
    (heartbeat : option exn) (s : state) : option (state * option exn) :=
  if is_nil (task_plan s) && is_nil (recovery_tasks s) then Some (s, None)
  else if max_workers cfg <=? 0
  then Some (set_active_futures ∅ s, Some ValueError)
  else
    s' ← run_events cfg evs (execute_plan_submit s);
    if bool_decide (dom (pending s') = (∅ : gset nat))
    then Some (s', if stop_event s' then heartbeat else None)
    else None.

(** The [finally] block of [run]. *)
Definition finally (cfg : config) (s : state) : list run_action :=
  StopWriter ::
  (if teardown_runs s then
     Cleanup :: (if copy_only cfg then [] else [RemoveSourceDir])
     ++ (if create_mklink cfg then [CreateSymbolicLink] else [])
   else []).

(** Lines 1036-1045 of [run]: [_execute_plan] and the last status
    call, from the steps [before] taken so far; then the [finally]
    block. *)
Definition run_execute (cfg : config) (env : run_env)
    (before : list run_action) (s : state)
  : option (state * list run_action * option exn) :=
  '(s3, e) ← execute_plan cfg (env_events env) (env_heartbeat env) s;
  let s4 :=
    match e with
    | Some _ => s3
    | None => if stop_event s3 then s3 else done_call s3
    end in
  Some (s4, before ++ finally cfg s4, e).

(** [run]: [self] at the end, the steps taken, and the exception that
    leaves the [try] block, if any. [None]: the events of the
    environment are not a run of the pools to their end. *)
Definition run (uuid4 : nat -> string)
    (shuffle : list file_info -> list file_info) (cfg : config)
    (env : run_env) (s : state)
  : option (state * list run_action * option exn) :=
  if stop_event s then Some (s, finally cfg s, None)
  else
    match (if resume_session s then load_raises cfg (env_session env) s
           else None) with
    | Some (e, s') => Some (s', finally cfg s', Some e)
    | None =>
        let file := document (env_session env) in
        let s1 := run_resume cfg file s in
        let resets := resume_session s && negb (resume_session s1) in
        let reset := if resets then [RmtreeCache] else [] in
        match (if resets then env_reset env else None) with
        | Some e =>
            let s' := set_resume_session false s in
            Some (s', reset ++ finally cfg s', Some e)
        | None =>
            if resume_session s1 then
              match env_recovery env with
              | Some e => Some (s1, reset ++ finally cfg s1, Some e)
              | None =>
                  let s2 :=
                    plan_recovery_tasks file (env_cache_listing env) s1 in
                  run_execute cfg env reset s2
              end
            else
              match env_prepare env with
              | Some e =>
                  Some (s1, reset ++ PrepareEnvironment :: finally cfg s1,
                        Some e)
              | None =>
                  match walk (env_walk env) []
                          (set_total_transfer_size 0 s1) with
                  | (Raise e, s') =>
                      Some (s',
                            reset ++ PrepareEnvironment :: finally cfg s',
                            Some e)
                  | (Return all_files, s') =>
                      match scan_into uuid4 shuffle cfg all_files s' with
                      | None =>
                          Some (s',
                                reset ++ PrepareEnvironment
                                  :: finally cfg s',
                                Some ZeroDivisionError)
                      | Some s2 =>
                          if is_nil (task_plan s2)
                             && is_nil (recovery_tasks s2)
                          then
                            let s4 := done_call s2 in
                            Some (s4,
                                  reset ++ [PrepareEnvironment; SaveSession]
                                    ++ finally cfg s4,
                                  None)
                          else
                            run_execute cfg env
                              (reset ++ [PrepareEnvironment; SaveSession]) s2
                      end
                  end
              end
        end
    end.

(** The tasks a run has to see complete: those of the session file
    when it resumes, those of its scan when it starts afresh. *)
Definition planned_tasks (uuid4 : nat -> string)
    (shuffle : list file_info -> list file_info) (cfg : config)
    (env : run_env) (s : state) : list task :=
  let file := document (env_session env) in
  let s1 := run_resume cfg file s in
  if resume_session s1 then
    match file with
    | Some sd => sd_task_plan sd
    | None => []
    end
  else
    match walk (env_walk env) [] (set_total_transfer_size 0 s1) with
    | (Return all_files, s') =>
        match scan_into uuid4 shuffle cfg all_files s' with
        | Some s2 => task_plan s2
        | None => []
        end
    | (Raise _, _) => []
    end.

(** ** Exact accounts *)

(** Every future registered in [active_futures] is a main or cleanup
    future that is not done. *)
Definition registered (s : state) : Prop :=
  forall fut t, active_futures s !! fut = Some t ->
    match pending s !! fut with
    | Some (ProcessMainTask _) | Some (CleanupCacheOnly _)
    | Some (CleanupEmptyDirs _) => True
    | _ => False
    end.

(** Unless the transfer is marked failed, what has been credited and
    what the pools owe add up to [total]. *)
Definition balanced (total : Z) (s : state) : Prop :=
  fresh_futures s /\ registered s
  /\ (transfer_failed s = true \/ processed_size s + owed s = total).

(* ===================================================================== *)
(** * Properties *)
(* ===================================================================== *)

(** ** Binary64 arithmetic never yields NaN on the planner's operands *)

Lemma shr_1_nonneg mrs : 0 <= shr_m mrs -> 0 <= shr_m (shr_1 mrs).
Proof.
  destruct mrs as [m r s]; simpl.
  destruct m as [|[p|p|]|[p|p|]]; simpl; lia.
Qed.

Lemma iter_pos_shr_1_nonneg p mrs :
  0 <= shr_m mrs -> 0 <= shr_m (SpecFloat.iter_pos shr_1 p mrs).
Proof.
  revert mrs; induction p as [p IH|p IH|]; intros mrs H; simpl.
  - apply IH, IH, shr_1_nonneg, H.
  - apply IH, IH, H.
  - apply shr_1_nonneg, H.
Qed.

Lemma shr_fexp_nonneg m e l :
  0 <= m -> 0 <= shr_m (fst (shr_fexp prec emax m e l)).
Proof.
  intros H. unfold shr_fexp, shr.
  assert (H0 : 0 <= shr_m (shr_record_of_loc m l))
    by (destruct l as [|[]]; exact H).
  destruct (fexp prec emax (Zdigits2 m + e) - e); simpl; auto.
  apply iter_pos_shr_1_nonneg, H0.
Qed.

Lemma round_nearest_even_nonneg m l :
  0 <= m -> 0 <= round_nearest_even m l.
Proof.
  intros H. destruct l as [|[]]; simpl; try lia.
  destruct (Z.even m); lia.
Qed.

Lemma binary_round_aux_not_nan s m e l :
  0 <= m -> binary_round_aux prec emax s m e l <> S754_nan.
Proof.
  intros H. unfold binary_round_aux.
  pose proof (shr_fexp_nonneg m e l H) as H1.
  destruct (shr_fexp prec emax m e l) as [mrs' e']. simpl in H1.
  pose proof (shr_fexp_nonneg _ e' loc_Exact
                (round_nearest_even_nonneg _ (loc_of_shr_record mrs') H1))
    as H2.
  destruct (shr_fexp prec emax _ e' loc_Exact) as [mrs'' e'']. simpl in H2.
  destruct (shr_m mrs'') as [|q|q]; try discriminate; try lia.
  destruct (e'' <=? emax - prec); discriminate.
Qed.

Lemma SFdiv_core_binary_nonneg m1 e1 m2 e2 :
  fst (fst (SFdiv_core_binary prec emax (Zpos m1) e1 (Zpos m2) e2)) >= 0.
Proof.
  unfold SFdiv_core_binary.
  set (s := _ - _ - Z.min _ _).
  set (m' := match s with Z0 => _ | Zpos _ => _ | Zneg _ => _ end).
  assert (Hm : 0 <= m').
  { subst m'. destruct s; try lia. apply Z.shiftl_nonneg. lia. }
  pose proof (Z_div_mod m' (Zpos m2) eq_refl) as Hd.
  destruct (Z.div_eucl m' (Zpos m2)) as [q r]. simpl.
  destruct Hd as [Hq Hr]. nia.
Qed.

Lemma int_truediv_not_nan a b f :
  int_truediv a b = Some f -> f <> S754_nan.
Proof.
  unfold int_truediv. destruct (Z.eqb_spec b 0) as [|Hb]; [discriminate|].
  intros [= <-].
  destruct a as [|p|p], b as [|q|q]; try lia; try discriminate; simpl;
    match goal with
    | |- context [SFdiv_core_binary ?p ?e ?a ?b ?c ?d] =>
        pose proof (SFdiv_core_binary_nonneg
                      ltac:(match a with Zpos ?x => exact x end) b
                      ltac:(match c with Zpos ?x => exact x end) d) as H;
        destruct (SFdiv_core_binary p e a b c d) as [[mz ez] lz]
    end; simpl in H; apply binary_round_aux_not_nan; lia.
Qed.

Lemma float_mul_int_not_nan f :
  f <> S754_nan -> float_mul_int f 10 <> S754_nan.
Proof.
  intros Hf. unfold float_mul_int.
  replace (float_of_int 10)
    with (S754_finite false 5629499534213120 (-49)) by (vm_compute; reflexivity).
  destruct f as [s|s| |s m e]; simpl; try discriminate; try congruence.
  apply binary_round_aux_not_nan. lia.
Qed.

(** ** Rounding to nearest even is monotone *)

Lemma sticky_spec a b :
  0 < b ->
  exists q r c, a = b * q + r /\ 0 <= r < b /\ sticky a b = 2 * q + c
                /\ (r = 0 /\ c = 0 \/ 0 < r /\ c = 1).
Proof.
  intros Hb. exists (a / b), (a mod b).
  pose proof (Z.div_mod a b ltac:(lia)) as H.
  pose proof (Z.mod_pos_bound a b Hb) as H'.
  unfold sticky. destruct (Z.eqb_spec (a mod b) 0) as [E|E].
  - exists 0. split_and!; try lia.
  - exists 1. split_and!; try lia.
Qed.

Lemma sticky_unique a b q r c :
  0 < b -> a = b * q + r -> 0 <= r < b ->
  (r = 0 /\ c = 0 \/ 0 < r /\ c = 1) ->
  sticky a b = 2 * q + c.
Proof.
  intros Hb Ha Hr Hc.
  assert (Hq : a / b = q) by (symmetry; apply (Z.div_unique a b q r); lia).
  assert (Hm : a mod b = r) by (symmetry; apply (Z.mod_unique a b q r); lia).
  unfold sticky. rewrite Hq, Hm. destruct (Z.eqb_spec r 0); lia.
Qed.

Lemma sticky_nonneg a b : 0 <= a -> 0 < b -> 0 <= sticky a b.
Proof.
  intros Ha Hb. unfold sticky. pose proof (Z.div_pos a b Ha Hb).
  destruct (_ =? _); lia.
Qed.

Lemma sticky_sticky a b c :
  0 < b -> 0 < c -> sticky (sticky a b) (2 * c) = sticky a (b * c).
Proof.
  intros Hb Hc.
  destruct (sticky_spec a b Hb) as (q & r & k & Ha & Hr & -> & Hk).
  pose proof (Z.div_mod q c ltac:(lia)) as Hq.
  pose proof (Z.mod_pos_bound q c Hc) as Hq'.
  set (q1 := q / c) in *. set (r1 := q mod c) in *.
  rewrite (sticky_unique a (b * c) q1 (b * r1 + r)
             (if (b * r1 + r) =? 0 then 0 else 1)); try nia.
  - apply (sticky_unique _ _ q1 (2 * r1 + k)); try nia.
    destruct (Z.eqb_spec (b * r1 + r) 0); nia.
  - destruct (Z.eqb_spec (b * r1 + r) 0); nia.
Qed.

Lemma sticky_mono a b a' b' :
  0 < b -> 0 < b' -> a * b' <= a' * b -> sticky a b <= sticky a' b'.
Proof.
  intros Hb Hb' H.
  destruct (sticky_spec a b Hb) as (q & r & k & Ha & Hr & -> & Hk).
  destruct (sticky_spec a' b' Hb') as (q' & r' & k' & Ha' & Hr' & -> & Hk').
  assert (Hbb : 0 < b * b') by nia.
  assert (Hlt : (b * b') * q < (b * b') * (q' + 1)) by nia.
  assert (q <= q').
  { apply Z.mul_lt_mono_pos_l in Hlt; lia. }
  destruct (decide (q = q')) as [->|]; [|lia].
  assert (k <= k'); [|lia].
  destruct Hk' as [[-> ->]|[? ->]]; [|lia].
  destruct Hk as [[-> ->]|[? ->]]; [lia|]. nia.
Qed.

Lemma enc_shr_m mrs : shr_m mrs = enc mrs / 4.
Proof.
  unfold enc. destruct (shr_r mrs), (shr_s mrs);
    [apply (Z.div_unique _ 4 _ 3)|apply (Z.div_unique _ 4 _ 2)
    |apply (Z.div_unique _ 4 _ 1)|apply (Z.div_unique _ 4 _ 0)]; lia.
Qed.

Lemma enc_nonneg mrs : 0 <= shr_m mrs -> 0 <= enc mrs.
Proof. unfold enc. destruct (shr_r mrs), (shr_s mrs); lia. Qed.

Lemma enc_shr_1 mrs : 0 <= shr_m mrs -> enc (shr_1 mrs) = sticky (enc mrs) 4.
Proof.
  destruct mrs as [m r s]. cbn [shr_m]. intros Hm.
  rewrite (sticky_unique (enc (Build_shr_record m r s)) 4 m
             ((if r then 2 else 0) + (if s then 1 else 0))
             (if r || s then 1 else 0));
    [|lia|unfold enc; cbn; lia|destruct r, s; cbn; lia|destruct r, s; cbn; lia].
  destruct m as [|[p|p|]|p]; [| | | |lia]; destruct r, s; unfold enc;
    cbn [shr_1 shr_m shr_r shr_s orb]; lia.
Qed.

Lemma iter_pos_shr_1 p : forall mrs,
  0 <= shr_m mrs ->
  0 <= shr_m (SpecFloat.iter_pos shr_1 p mrs)
  /\ enc (SpecFloat.iter_pos shr_1 p mrs) = sticky (enc mrs) (2 * 2 ^ Z.pos p).
Proof.
  induction p as [p IH|p IH|]; intros mrs Hm; cbn [SpecFloat.iter_pos].
  - pose proof (shr_1_nonneg mrs Hm) as H1.
    destruct (IH _ H1) as [H2 E2]. destruct (IH _ H2) as [H3 E3].
    split; [done|]. rewrite E3, E2, enc_shr_1 by done.
    assert (Hp : 0 < 2 ^ Z.pos p) by (apply Z.pow_pos_nonneg; lia).
    rewrite (sticky_sticky _ (2 * 2 ^ Z.pos p) (2 ^ Z.pos p)) by lia.
    replace (2 * 2 ^ Z.pos p * 2 ^ Z.pos p)
      with (2 * (2 ^ Z.pos p * 2 ^ Z.pos p)) by lia.
    rewrite (sticky_sticky _ 4) by lia.
    replace (Z.pos p~1) with (Z.pos p + Z.pos p + 1) by lia.
    rewrite !Z.pow_add_r by lia. change (2 ^ 1) with 2. f_equal. lia.
  - destruct (IH _ Hm) as [H2 E2]. destruct (IH _ H2) as [H3 E3].
    split; [done|]. rewrite E3, E2.
    assert (Hp : 0 < 2 ^ Z.pos p) by (apply Z.pow_pos_nonneg; lia).
    rewrite (sticky_sticky _ (2 * 2 ^ Z.pos p) (2 ^ Z.pos p)) by lia.
    replace (Z.pos p~0) with (Z.pos p + Z.pos p) by lia.
    rewrite !Z.pow_add_r by lia. f_equal. lia.
  - split; [by apply shr_1_nonneg|]. by rewrite enc_shr_1.
Qed.

Lemma sticky_enc_2 mrs : sticky (enc mrs) 2 = enc mrs.
Proof.
  destruct mrs as [m r s].
  rewrite (sticky_unique _ 2 (2 * m + (if r then 1 else 0))
             (if s then 1 else 0) (if s then 1 else 0));
    unfold enc; cbn; destruct r, s; lia.
Qed.

(** A shift to the right by [n] places. *)
Lemma shr_enc mrs e n :
  0 <= shr_m mrs -> 0 <= n ->
  0 <= shr_m (fst (shr mrs e n))
  /\ enc (fst (shr mrs e n)) = sticky (enc mrs) (2 * 2 ^ n)
  /\ snd (shr mrs e n) = e + n.
Proof.
  intros Hm Hn. destruct n as [|p|p]; [| |lia]; cbn [shr fst snd].
  - split_and!; [done| |lia]. by rewrite sticky_enc_2.
  - destruct (iter_pos_shr_1 p mrs Hm). split_and!; done.
Qed.

Lemma rne_unique n m c :
  n = 4 * m + c -> 0 <= c < 4 ->
  rne n = if c <=? 1 then m
          else if c =? 2 then (if Z.even m then m else m + 1) else m + 1.
Proof.
  intros -> Hc. unfold rne.
  rewrite <- (Z.div_unique (4 * m + c) 4 m c) by lia.
  by rewrite <- (Z.mod_unique (4 * m + c) 4 m c) by lia.
Qed.

Lemma rne_enc mrs :
  round_nearest_even (shr_m mrs) (loc_of_shr_record mrs) = rne (enc mrs).
Proof.
  destruct mrs as [m r s].
  rewrite (rne_unique _ m ((if r then 2 else 0) + (if s then 1 else 0)));
    [|unfold enc; cbn; lia|destruct r, s; lia].
  by destruct r, s.
Qed.

Lemma rne_bounds n : n / 4 <= rne n <= n / 4 + 1.
Proof.
  unfold rne. destruct (_ <=? 1); [lia|].
  destruct (_ =? 2); [|lia]. destruct (Z.even _); lia.
Qed.

Lemma rne_exact m : rne (4 * m) = m.
Proof. rewrite (rne_unique _ m 0); [done|lia|lia]. Qed.

Lemma rne_mono n n' : n <= n' -> rne n <= rne n'.
Proof.
  intros H.
  pose proof (Z.div_mod n 4 ltac:(lia)) as E.
  pose proof (Z.mod_pos_bound n 4 ltac:(lia)) as B.
  pose proof (Z.div_mod n' 4 ltac:(lia)) as E'.
  pose proof (Z.mod_pos_bound n' 4 ltac:(lia)) as B'.
  rewrite (rne_unique n _ _ E B), (rne_unique n' _ _ E' B').
  revert E B E' B'.
  generalize (n / 4) (n mod 4) (n' / 4) (n' mod 4). intros m c m' c' E B E' B'.
  destruct (decide (m = m')) as [<-|Ne].
  - destruct (Z.leb_spec c 1), (Z.leb_spec c' 1),
      (Z.eqb_spec c 2), (Z.eqb_spec c' 2), (Z.even m); lia.
  - assert (m < m') by lia.
    destruct (Z.leb_spec c 1), (Z.leb_spec c' 1),
      (Z.eqb_spec c 2), (Z.eqb_spec c' 2), (Z.even m), (Z.even m'); lia.
Qed.

Lemma digits2_pos_bounds p :
  2 ^ (Z.pos (digits2_pos p) - 1) <= Z.pos p < 2 ^ Z.pos (digits2_pos p).
Proof.
  induction p as [p IH|p IH|]; cbn [digits2_pos]; [| |cbn; lia];
    rewrite Pos2Z.inj_succ;
    replace (Z.succ (Z.pos (digits2_pos p)) - 1)
      with (Z.pos (digits2_pos p) - 1 + 1) by lia;
    rewrite Z.pow_succ_r, Z.pow_add_r by lia; change (2 ^ 1) with 2; lia.
Qed.

Lemma Zdigits2_bounds m :
  0 < m -> 2 ^ (Zdigits2 m - 1) <= m < 2 ^ Zdigits2 m.
Proof. destruct m as [|p|p]; [lia| |lia]. intros _. apply digits2_pos_bounds. Qed.

Lemma Zdigits2_nonneg m : 0 <= Zdigits2 m.
Proof. destruct m; cbn; lia. Qed.

Lemma Zdigits2_le m k : 0 <= k -> 0 <= m < 2 ^ k -> Zdigits2 m <= k.
Proof.
  intros Hk [H0 Hm]. destruct (decide (m = 0)) as [->|]; [done|].
  pose proof (Zdigits2_bounds m ltac:(lia)) as [Hlo _].
  pose proof (Zdigits2_nonneg m).
  destruct (decide (Zdigits2 m <= k)); [done|]. exfalso.
  assert (2 ^ k <= 2 ^ (Zdigits2 m - 1)) by (apply Z.pow_le_mono_r; lia).
  lia.
Qed.

Lemma Zdigits2_ge m k : 2 ^ (k - 1) <= m -> 1 <= k -> k <= Zdigits2 m.
Proof.
  intros Hm Hk.
  assert (0 < 2 ^ (k - 1)) by (apply Z.pow_pos_nonneg; lia).
  pose proof (Zdigits2_bounds m ltac:(lia)) as [_ Hhi].
  pose proof (Zdigits2_nonneg m).
  destruct (decide (k <= Zdigits2 m)); [done|]. exfalso.
  assert (2 ^ Zdigits2 m <= 2 ^ (k - 1)) by (apply Z.pow_le_mono_r; lia).
  lia.
Qed.

Lemma sticky_half a b : 0 < b -> sticky a b / 2 = a / b.
Proof.
  intros Hb. unfold sticky. destruct (_ =? 0).
  - symmetry. apply (Z.div_unique _ 2 _ 0); lia.
  - symmetry. apply (Z.div_unique _ 2 _ 1); lia.
Qed.

Lemma sticky_quarter a b : 0 < b -> sticky a (2 * b) / 4 = a / 4 / b.
Proof.
  intros Hb. replace 4 with (2 * 2) at 1 by lia.
  rewrite <- Z.div_div by lia. rewrite sticky_half by lia.
  rewrite Z.div_div by lia. rewrite Z.div_div by lia. f_equal. lia.
Qed.

Lemma fexp_ge_emin e : emin prec emax <= fexp prec emax e.
Proof. unfold fexp. lia. Qed.

Lemma fexp_carry e : emin prec emax <= e -> fexp prec emax (54 + e) - e = 1.
Proof. unfold fexp, prec. lia. Qed.

Lemma fexp_no_shift d e :
  d <= 53 -> emin prec emax <= e -> fexp prec emax (d + e) - e <= 0.
Proof. unfold fexp, prec. lia. Qed.

Lemma enc_of_loc m l : shr_m (shr_record_of_loc m l) = m.
Proof. by destruct l as [|[]]. Qed.

Lemma binary_round_aux_shape m e l :
  0 <= m ->
  let E := fexp prec emax (Zdigits2 m + e) in
  let m2 := rne (sticky (enc (shr_record_of_loc m l)) (2 * 2 ^ (E - e))) in
  e <= E -> E < emax - prec ->
  binary_round_aux prec emax false m e l = rounded E m2
  /\ 0 <= m2 <= 2 ^ 53
  /\ m / 2 ^ (E - e) <= m2 <= m / 2 ^ (E - e) + 1
  /\ (E = emin prec emax \/ 2 ^ 52 <= m / 2 ^ (E - e)).
Proof.
  intros Hm E m2 HE Hmax.
  assert (Hpow : 0 < 2 ^ (E - e)) by (apply Z.pow_pos_nonneg; lia).
  set (mrs0 := shr_record_of_loc m l) in *.
  assert (H0 : 0 <= shr_m mrs0) by (unfold mrs0; by rewrite enc_of_loc).
  destruct (shr_enc mrs0 e (E - e) H0 ltac:(lia)) as (H1 & E1 & X1).
  set (n1 := sticky (enc mrs0) (2 * 2 ^ (E - e))) in *.
  assert (Hm1 : n1 / 4 = m / 2 ^ (E - e)).
  { unfold n1. rewrite sticky_quarter by done.
    rewrite <- enc_shr_m. unfold mrs0. by rewrite enc_of_loc. }
  pose proof (rne_bounds n1) as Hb. fold m2 in Hb. rewrite Hm1 in Hb.
  assert (Hm1' : 0 <= m / 2 ^ (E - e)) by (apply Z.div_pos; lia).
  (* the mantissa after the first shift has at most 53 digits *)
  assert (Hd : m / 2 ^ (E - e) < 2 ^ 53
               /\ (E = emin prec emax \/ 2 ^ 52 <= m / 2 ^ (E - e))).
  { destruct (decide (m = 0)) as [->|Hne].
    - rewrite Z.div_0_l by lia. split; [done|]. left.
      unfold E, fexp, prec in *. cbn [Zdigits2] in *. lia.
    - pose proof (Zdigits2_bounds m ltac:(lia)) as [Hlo Hhi].
      pose proof (Zdigits2_nonneg m) as Hdn.
      assert (Hd1 : 1 <= Zdigits2 m).
      { destruct m; cbn in *; lia. }
      split.
      + apply Z.div_lt_upper_bound; [done|].
        rewrite <- Z.pow_add_r by lia.
        eapply Z.lt_le_trans; [exact Hhi|].
        apply Z.pow_le_mono_r; [lia|]. unfold E, fexp, prec. lia.
      + destruct (decide (E = emin prec emax)) as [|HnE]; [by left|right].
        assert (HEq : E = Zdigits2 m + e - 53) by (unfold E, fexp, prec in *; lia).
        apply Z.div_le_lower_bound; [done|].
        rewrite <- Z.pow_add_r by lia.
        eapply Z.le_trans; [|exact Hlo].
        apply Z.pow_le_mono_r; lia. }
  destruct Hd as [Hd Hcan].
  split_and!; [|lia|lia|lia|lia|done].
  unfold binary_round_aux, shr_fexp. fold mrs0. fold E.
  destruct (shr mrs0 e (E - e)) as [mrs' e'] eqn:Hshr.
  cbn [fst snd] in H1, E1, X1. rewrite rne_enc, E1. fold m2.
  replace e' with E by lia.
  destruct (decide (m2 = 2 ^ 53)) as [E2|N2].
  - rewrite E2. unfold rounded. change (2 ^ 53) with 9007199254740992.
    change (Zdigits2 9007199254740992) with 54.
    rewrite (fexp_carry E) by apply fexp_ge_emin.
    cbn [shr shr_record_of_loc SpecFloat.iter_pos shr_1 shr_m Z.eqb Pos.eqb].
    change (2 ^ 52)%positive with 4503599627370496%positive.
    by rewrite (proj2 (Z.leb_le (E + 1) (emax - prec))) by lia.
  - assert (Hlt : m2 < 2 ^ 53) by lia.
    assert (Hn : fexp prec emax (Zdigits2 m2 + E) - E <= 0).
    { apply fexp_no_shift; [|apply fexp_ge_emin].
      apply Zdigits2_le; lia. }
    unfold shr. destruct (fexp prec emax (Zdigits2 m2 + E) - E) as [|q|q];
      [|lia|]; cbn [shr_record_of_loc shr_m]; unfold rounded;
      (destruct m2 as [|p2|p2]; [done| |lia]);
      rewrite (proj2 (Z.eqb_neq _ _) N2);
      by rewrite (proj2 (Z.leb_le E (emax - prec))) by lia.
Qed.

Lemma rounded_le e m e' m' :
  0 <= m <= 2 ^ 53 -> 0 <= m' <= 2 ^ 53 -> e <= e' ->
  (e = e' -> m <= m') -> (e < e' -> 2 ^ 52 <= m') ->
  SFleb (rounded e m) (rounded e' m') = true.
Proof.
  intros Hm Hm' He Heq Hlt. unfold rounded, SFleb.
  change (2 ^ 53) with 9007199254740992 in *.
  change (2 ^ 52) with 4503599627370496 in *.
  change (2 ^ 52)%positive with 4503599627370496%positive.
  destruct m as [|p|p]; [|destruct m' as [|p'|p']|lia]; [|lia| |lia].
  - destruct m' as [|p'|p']; [reflexivity| |reflexivity].
    destruct (Z.pos p' =? 9007199254740992); reflexivity.
  - destruct (Z.eqb_spec (Z.pos p) 9007199254740992) as [Ep|Np],
      (Z.eqb_spec (Z.pos p') 9007199254740992) as [Ep'|Np'];
      cbn [SFcompare].
    + destruct (Z.compare_spec (e + 1) (e' + 1)); [|reflexivity|lia].
      rewrite Pos.compare_cont_refl. reflexivity.
    + destruct (Z.compare_spec (e + 1) e'); [|reflexivity|lia].
      change (Pos.compare_cont Eq 4503599627370496 p')
        with (Z.compare 4503599627370496 (Z.pos p')).
      destruct (Z.compare_spec 4503599627370496 (Z.pos p'));
        [reflexivity|reflexivity|lia].
    + destruct (Z.compare_spec e (e' + 1)); [lia|reflexivity|lia].
    + destruct (Z.compare_spec e e'); [|reflexivity|lia].
      change (Pos.compare_cont Eq p p') with (Z.compare (Z.pos p) (Z.pos p')).
      destruct (Z.compare_spec (Z.pos p) (Z.pos p'));
        [reflexivity|reflexivity|lia].
Qed.

Lemma fexp_mono x y : x <= y -> fexp prec emax x <= fexp prec emax y.
Proof. unfold fexp. lia. Qed.

Lemma magnitude_mono a b e a' b' e' :
  0 <= a -> 0 < b -> 0 <= a' -> 0 < b' ->
  value_le a b e a' b' e' -> 1 <= a / b ->
  Zdigits2 (a / b) + e <= Zdigits2 (a' / b') + e'.
Proof.
  intros Ha Hb Ha' Hb' Hle Hm. unfold value_le in Hle.
  set (k := Z.min e e') in *.
  set (d := Zdigits2 (a / b)). set (d' := Zdigits2 (a' / b')).
  pose proof (Zdigits2_bounds (a / b) ltac:(lia)) as [Hlo _]. fold d in Hlo.
  assert (Hd' : a' / b' + 1 <= 2 ^ d').
  { destruct (decide (a' / b' = 0)) as [E0|N0].
    - unfold d'. rewrite E0. cbn. lia.
    - pose proof (Z.div_pos a' b' Ha' Hb').
      pose proof (Zdigits2_bounds (a' / b') ltac:(lia)) as [_ Hhi].
      fold d' in Hhi. lia. }
  pose proof (Zdigits2_nonneg (a' / b')) as Hd'0. fold d' in Hd'0.
  assert (Hd1 : 1 <= d).
  { unfold d. destruct (a / b); cbn; lia. }
  destruct (decide (d + e <= d' + e')) as [|Hgt]; [done|exfalso].
  assert (Hpow : 2 ^ (d' + (e' - k)) <= 2 ^ ((d - 1) + (e - k)))
    by (apply Z.pow_le_mono_r; lia).
  rewrite !Z.pow_add_r in Hpow by lia.
  assert (HP : 0 < 2 ^ (d - 1)) by (apply Z.pow_pos_nonneg; lia).
  assert (HQ : 0 < 2 ^ (e - k)) by (apply Z.pow_pos_nonneg; lia).
  assert (HP' : 0 < 2 ^ d') by (apply Z.pow_pos_nonneg; lia).
  assert (HQ' : 0 < 2 ^ (e' - k)) by (apply Z.pow_pos_nonneg; lia).
  revert Hle Hlo Hd' Hpow HP HQ HP' HQ'.
  generalize (2 ^ (d - 1)) (2 ^ (e - k)) (2 ^ d') (2 ^ (e' - k)).
  intros P Q P' Q' Hle Hlo Hd' Hpow HP HQ HP' HQ'.
  pose proof (Z.mul_div_le a b Hb) as H1.
  assert (H2 : a' < b' * (a' / b' + 1)).
  { pose proof (Z.mod_pos_bound a' b' Hb').
    pose proof (Z.div_mod a' b' ltac:(lia)). lia. }
  assert (H3 : P * b <= a) by nia.
  assert (H4 : a' < P' * b') by nia.
  assert (H5 : P * b * b' * Q <= a * b' * Q) by nia.
  assert (H6 : a' * b * Q' < P' * b' * b * Q') by nia.
  assert (H7 : P' * Q' * (b * b') <= P * Q * (b * b')) by nia.
  nia.
Qed.

Lemma scale_le a b a' b' c q q' :
  0 < c -> a * b' * q <= a' * b * q' ->
  2 * a * (b' * (c * q)) <= 2 * a' * (b * (c * q')).
Proof.
  intros Hc H.
  replace (2 * a * (b' * (c * q))) with (2 * c * (a * b' * q)) by ring.
  replace (2 * a' * (b * (c * q'))) with (2 * c * (a' * b * q')) by ring.
  apply Z.mul_le_mono_nonneg_l; lia.
Qed.

(** Rounding to nearest even is monotone. *)
Lemma binary_round_aux_mono a b e l a' b' e' l' :
  0 <= a -> 0 < b -> 0 <= a' -> 0 < b' ->
  located a b l -> located a' b' l' ->
  e <= fexp prec emax (Zdigits2 (a / b) + e) ->
  e' <= fexp prec emax (Zdigits2 (a' / b') + e') ->
  fexp prec emax (Zdigits2 (a' / b') + e') < emax - prec ->
  value_le a b e a' b' e' ->
  SFleb (binary_round_aux prec emax false (a / b) e l)
        (binary_round_aux prec emax false (a' / b') e' l') = true.
Proof.
  intros Ha Hb Ha' Hb' Hl Hl' He He' Hmax Hle.
  set (E := fexp prec emax (Zdigits2 (a / b) + e)) in *.
  set (E' := fexp prec emax (Zdigits2 (a' / b') + e')) in *.
  pose proof (Z.div_pos a b Ha Hb) as Hm.
  pose proof (Z.div_pos a' b' Ha' Hb') as Hm'.
  assert (HE : E <= E').
  { destruct (decide (a / b = 0)) as [E0|N0].
    - assert (E = emin prec emax).
      { unfold E, fexp, prec in *. rewrite E0 in *. cbn [Zdigits2] in *. lia. }
      pose proof (fexp_ge_emin (Zdigits2 (a' / b') + e')). fold E' in H0. lia.
    - apply fexp_mono, magnitude_mono; try done. lia. }
  destruct (binary_round_aux_shape (a / b) e l Hm He ltac:(lia))
    as (-> & Hb2 & Hr2 & Hc2).
  destruct (binary_round_aux_shape (a' / b') e' l' Hm' He' Hmax)
    as (-> & Hb2' & Hr2' & Hc2').
  fold E E' in Hb2, Hr2, Hc2, Hb2', Hr2', Hc2' |- *.
  rewrite Hl, Hl' in *.
  assert (Hp : 0 < 2 ^ (E - e)) by (apply Z.pow_pos_nonneg; lia).
  assert (Hp' : 0 < 2 ^ (E' - e')) by (apply Z.pow_pos_nonneg; lia).
  rewrite !sticky_sticky in * by done.
  apply rounded_le; [done|done|done| |].
  - intros EE. apply rne_mono, sticky_mono; [lia|lia|].
    unfold value_le in Hle. set (k := Z.min e e') in *.
    assert (Hk : k <= e /\ k <= e' /\ (k = e \/ k = e')) by (unfold k; lia).
    clearbody k.
    replace (E - e) with ((E - e - e' + k) + (e' - k)) by lia.
    replace (E' - e') with ((E - e - e' + k) + (e - k)) by lia.
    rewrite (Z.pow_add_r 2 (E - e - e' + k) (e' - k)) by lia.
    rewrite (Z.pow_add_r 2 (E - e - e' + k) (e - k)) by lia.
    apply scale_le; [apply Z.pow_pos_nonneg; lia|done].
  - intros Hlt. pose proof (fexp_ge_emin (Zdigits2 (a / b) + e)).
    fold E in H. destruct Hc2' as [|]; lia.
Qed.

Lemma located_exact a : located a 1 loc_Exact.
Proof.
  unfold located. rewrite Z.div_1_r.
  rewrite (sticky_unique (2 * a) 1 (2 * a) 0 0) by lia.
  unfold enc. cbn. lia.
Qed.

Lemma new_location_located a t q r :
  0 < t -> Z.div_eucl a t = (q, r) ->
  q = a / t /\ located a t (new_location t r).
Proof.
  intros Ht Hqr.
  pose proof (Z.div_mod a t ltac:(lia)) as Hd.
  pose proof (Z.mod_pos_bound a t Ht) as Hr.
  unfold Z.div, Z.modulo in *. unfold located, Z.div.
  rewrite Hqr in *. cbn [fst snd] in *. split; [done|].
  assert (Hloc : new_location t r
                 = if r =? 0 then loc_Exact else loc_Inexact (2 * r ?= t)).
  { unfold new_location.
    destruct (Z.even t) eqn:Hev; unfold new_location_even, new_location_odd;
      [done|].
    destruct (r =? 0); [done|]. f_equal.
    assert (Ho : Z.odd t = true) by (by rewrite <- Z.negb_even, Hev).
    apply Z.odd_spec in Ho as [k ->].
    destruct (Z.compare_spec (2 * r + 1) (2 * k + 1)),
      (Z.compare_spec (2 * r) (2 * k + 1)); first [done|lia]. }
  rewrite Hloc. clear Hloc.
  destruct (Z.eqb_spec r 0) as [->|Hr0].
  - rewrite (sticky_unique (2 * a) t (2 * q) 0 0) by lia.
    unfold enc. cbn. lia.
  - destruct (Z.compare_spec (2 * r) t).
    + rewrite (sticky_unique (2 * a) t (2 * q + 1) 0 0) by lia.
      unfold enc. cbn. lia.
    + rewrite (sticky_unique (2 * a) t (2 * q) (2 * r) 1) by lia.
      unfold enc. cbn. lia.
    + rewrite (sticky_unique (2 * a) t (2 * q + 1) (2 * r - t) 1) by lia.
      unfold enc. cbn. lia.
Qed.

Lemma shiftl_match m s :
  0 < s ->
  match s with
  | Z.pos _ => Z.shiftl m s
  | 0 => m
  | Z.neg _ => 0
  end = m * 2 ^ s.
Proof. destruct s; try lia. intros _. apply Z.shiftl_mul_pow2. lia. Qed.

(** The quotient of two positive integers [p <= t], before it is
    rounded. *)
Lemma SFdiv_core_binary_int p t :
  (Z.pos p <= Z.pos t) ->
  let e := fexp prec emax (Zdigits2 (Z.pos p) - Zdigits2 (Z.pos t)) in
  let a := Z.pos p * 2 ^ (- e) in
  exists l,
    SFdiv_core_binary prec emax (Z.pos p) 0 (Z.pos t) 0 = (a / Z.pos t, e, l)
    /\ located a (Z.pos t) l
    /\ e < 0
    /\ e <= fexp prec emax (Zdigits2 (a / Z.pos t) + e)
    /\ fexp prec emax (Zdigits2 (a / Z.pos t) + e) <= -52.
Proof.
  intros Hle e a.
  pose proof (Zdigits2_bounds (Z.pos p) ltac:(lia)) as [Hplo Hphi].
  pose proof (Zdigits2_bounds (Z.pos t) ltac:(lia)) as [Htlo Hthi].
  set (d1 := Zdigits2 (Z.pos p)) in *. set (d2 := Zdigits2 (Z.pos t)) in *.
  assert (Hd1 : 1 <= d1) by (unfold d1; cbn; lia).
  assert (Hd2 : 1 <= d2) by (unfold d2; cbn; lia).
  assert (Hd : d1 <= d2).
  { destruct (decide (d1 <= d2)); [done|exfalso].
    assert (2 ^ d2 <= 2 ^ (d1 - 1)) by (apply Z.pow_le_mono_r; lia). lia. }
  assert (He : e < 0) by (unfold e, fexp, prec, emin, emax; lia).
  assert (Hpow : 0 < 2 ^ (- e)) by (apply Z.pow_pos_nonneg; lia).
  assert (Ha : 0 <= a) by (unfold a; lia).
  unfold SFdiv_core_binary. fold d1 d2.
  replace (d1 + 0 - (d2 + 0)) with (d1 - d2) by lia. fold e.
  replace (Z.min e (0 - 0)) with e by lia.
  replace (0 - 0 - e) with (- e) by lia.
  rewrite (shiftl_match (Z.pos p) (- e)) by lia.
  change (Z.pos p * 2 ^ (- e)) with a.
  destruct (Z.div_eucl a (Z.pos t)) as [q r] eqn:Hqr.
  destruct (new_location_located a (Z.pos t) q r ltac:(lia) Hqr) as [-> Hloc].
  exists (new_location (Z.pos t) r). split_and!; [done|done|done| |].
  - (* the quotient has at least 53 digits, unless it is subnormal *)
    destruct (decide (e = emin prec emax)) as [Ee|Ne].
    + rewrite Ee at 1. apply fexp_ge_emin.
    + assert (Ee : e = d1 - d2 - 53) by (unfold e, fexp, prec in *; lia).
      assert (Hq : 2 ^ 52 <= a / Z.pos t).
      { apply Z.div_le_lower_bound; [lia|].
        assert (Z.pos t * 2 ^ 52 <= 2 ^ d2 * 2 ^ 52) by nia.
        assert (2 ^ (d1 - 1) * 2 ^ (- e) <= a) by (unfold a; nia).
        rewrite <- !Z.pow_add_r in * by lia.
        replace (d1 - 1 + - e) with (d2 + 52) in * by lia. lia. }
      pose proof (Zdigits2_ge (a / Z.pos t) 53 Hq ltac:(lia)).
      unfold fexp, prec. lia.
  - assert (Hq : a / Z.pos t < 2 ^ (- e + 1)).
    { apply Z.div_lt_upper_bound; [lia|].
      rewrite Z.pow_add_r by lia. change (2 ^ 1) with 2. unfold a. nia. }
    pose proof (Zdigits2_le (a / Z.pos t) (- e + 1) ltac:(lia)
                  ltac:(split; [apply Z.div_pos; lia|done])).
    unfold fexp, prec, emin, emax. lia.
Qed.

Lemma binary_round_aux_ord a b e l a' b' e' l' :
  0 <= a -> 0 < b -> 0 <= a' -> 0 < b' ->
  located a b l -> located a' b' l' ->
  e <= fexp prec emax (Zdigits2 (a / b) + e) ->
  e' <= fexp prec emax (Zdigits2 (a' / b') + e') ->
  fexp prec emax (Zdigits2 (a' / b') + e') < emax - prec ->
  value_le a b e a' b' e' ->
  exists m m',
    binary_round_aux prec emax false (a / b) e l
    = rounded (fexp prec emax (Zdigits2 (a / b) + e)) m
    /\ binary_round_aux prec emax false (a' / b') e' l'
       = rounded (fexp prec emax (Zdigits2 (a' / b') + e')) m'
    /\ rounded_ord (fexp prec emax (Zdigits2 (a / b) + e)) m
         (fexp prec emax (Zdigits2 (a' / b') + e')) m'.
Proof.
  intros Ha Hb Ha' Hb' Hl Hl' He He' Hmax Hle.
  set (E := fexp prec emax (Zdigits2 (a / b) + e)) in *.
  set (E' := fexp prec emax (Zdigits2 (a' / b') + e')) in *.
  pose proof (Z.div_pos a b Ha Hb) as Hm.
  pose proof (Z.div_pos a' b' Ha' Hb') as Hm'.
  assert (HE : E <= E').
  { destruct (decide (a / b = 0)) as [E0|N0].
    - assert (E = emin prec emax).
      { unfold E, fexp, prec in *. rewrite E0 in *. cbn [Zdigits2] in *. lia. }
      pose proof (fexp_ge_emin (Zdigits2 (a' / b') + e')). fold E' in H0. lia.
    - apply fexp_mono, magnitude_mono; try done. lia. }
  destruct (binary_round_aux_shape (a / b) e l Hm He ltac:(lia))
    as (-> & Hb2 & Hr2 & Hc2).
  destruct (binary_round_aux_shape (a' / b') e' l' Hm' He' Hmax)
    as (-> & Hb2' & Hr2' & Hc2').
  fold E E' in Hb2, Hr2, Hc2, Hb2', Hr2', Hc2' |- *.
  rewrite Hl, Hl' in *.
  assert (Hp : 0 < 2 ^ (E - e)) by (apply Z.pow_pos_nonneg; lia).
  assert (Hp' : 0 < 2 ^ (E' - e')) by (apply Z.pow_pos_nonneg; lia).
  rewrite !sticky_sticky in * by done.
  eexists _, _. split; [done|]. split; [done|].
  split_and!; [lia|lia|lia|lia|done| |].
  - intros EE. apply rne_mono, sticky_mono; [lia|lia|].
    unfold value_le in Hle. set (k := Z.min e e') in *.
    assert (Hk : k <= e /\ k <= e' /\ (k = e \/ k = e')) by (unfold k; lia).
    clearbody k.
    replace (E - e) with ((E - e - e' + k) + (e' - k)) by lia.
    replace (E' - e') with ((E - e - e' + k) + (e - k)) by lia.
    rewrite (Z.pow_add_r 2 (E - e - e' + k) (e' - k)) by lia.
    rewrite (Z.pow_add_r 2 (E - e - e' + k) (e - k)) by lia.
    apply scale_le; [apply Z.pow_pos_nonneg; lia|done].
  - intros Hlt. pose proof (fexp_ge_emin (Zdigits2 (a / b) + e)).
    fold E in H. destruct Hc2' as [|]; lia.
Qed.

Lemma rounded_ord_le e m e' m' :
  rounded_ord e m e' m' -> SFleb (rounded e m) (rounded e' m') = true.
Proof. intros (? & ? & ? & ? & ?). by apply rounded_le. Qed.

(** A rounded value is zero or a positive finite float. *)
Lemma rounded_cases e m :
  0 <= m <= 2 ^ 53 ->
  m = 0 /\ rounded e m = S754_zero false
  \/ exists p x,
       rounded e m = S754_finite false p x
       /\ Z.pos p * 2 ^ (x - e) = m /\ e <= x <= e + 1 /\ Z.pos p < 2 ^ 53.
Proof.
  intros Hm. unfold rounded. destruct m as [|p|p]; [by left| |lia]. right.
  destruct (Z.eqb_spec (Z.pos p) (2 ^ 53)) as [Ep|Np].
  - exists (2 ^ 52)%positive, (e + 1). split; [done|].
    replace (e + 1 - e) with 1 by lia. rewrite Ep. split_and!; try lia; done.
  - exists p, e. split; [done|]. rewrite Z.sub_diag. cbn [Z.pow].
    split_and!; lia.
Qed.

Lemma zero_le_rounded e m : SFleb (S754_zero false) (rounded e m) = true.
Proof.
  unfold rounded. destruct m as [|p|p]; try done.
  by destruct (Z.pos p =? 2 ^ 53).
Qed.

Lemma SFdiv_int_ord p p' t :
  Z.pos p <= Z.pos p' -> Z.pos p' <= Z.pos t ->
  exists m m',
    SFdiv prec emax (int_exact (Z.pos p)) (int_exact (Z.pos t))
    = rounded (quotient_E (Z.pos p) (Z.pos t)) m
    /\ SFdiv prec emax (int_exact (Z.pos p')) (int_exact (Z.pos t))
       = rounded (quotient_E (Z.pos p') (Z.pos t)) m'
    /\ rounded_ord (quotient_E (Z.pos p) (Z.pos t)) m
         (quotient_E (Z.pos p') (Z.pos t)) m'
    /\ quotient_E (Z.pos p') (Z.pos t) <= -52.
Proof.
  intros Hpp Hpt.
  destruct (SFdiv_core_binary_int p t ltac:(lia))
    as (l & Hcore & Hloc & He & Hsh & Hmax).
  destruct (SFdiv_core_binary_int p' t Hpt)
    as (l' & Hcore' & Hloc' & He' & Hsh' & Hmax').
  cbn [int_exact SFdiv xorb]. rewrite Hcore, Hcore'.
  fold (quotient_e (Z.pos p) (Z.pos t)) in *.
  fold (quotient_e (Z.pos p') (Z.pos t)) in *.
  fold (quotient_a (Z.pos p) (Z.pos t)) in *.
  fold (quotient_a (Z.pos p') (Z.pos t)) in *.
  set (e := quotient_e (Z.pos p) (Z.pos t)) in *.
  set (e' := quotient_e (Z.pos p') (Z.pos t)) in *.
  assert (Hq : 0 < 2 ^ (- e)) by (apply Z.pow_pos_nonneg; lia).
  assert (Hq' : 0 < 2 ^ (- e')) by (apply Z.pow_pos_nonneg; lia).
  destruct (binary_round_aux_ord
              (quotient_a (Z.pos p) (Z.pos t)) (Z.pos t) e l
              (quotient_a (Z.pos p') (Z.pos t)) (Z.pos t) e' l')
    as (m & m' & E1 & E2 & Hord); try done.
  - unfold quotient_a. fold e. lia.
  - unfold quotient_a. fold e'. lia.
  - change (emax - prec) with 971. lia.
  - unfold value_le, quotient_a. fold e e'.
    set (k := Z.min e e').
    assert (Hk : k <= e /\ k <= e') by (unfold k; lia). clearbody k.
    replace (Z.pos p * 2 ^ (- e) * Z.pos t * 2 ^ (e - k))
      with (Z.pos p * Z.pos t * (2 ^ (- e) * 2 ^ (e - k))) by ring.
    replace (Z.pos p' * 2 ^ (- e') * Z.pos t * 2 ^ (e' - k))
      with (Z.pos p' * Z.pos t * (2 ^ (- e') * 2 ^ (e' - k))) by ring.
    rewrite <- !Z.pow_add_r by lia.
    replace (- e + (e - k)) with (- k) by lia.
    replace (- e' + (e' - k)) with (- k) by lia.
    assert (0 < 2 ^ (- k)) by (apply Z.pow_pos_nonneg; lia). nia.
  - exists m, m'. split_and!; done.
Qed.

Lemma rounded_ord_value e m e' m' mx ex my ey :
  rounded_ord e m e' m' ->
  mx * 2 ^ (ex - e) = m -> my * 2 ^ (ey - e') = m' ->
  e <= ex -> e' <= ey -> 0 <= mx -> 0 <= my ->
  mx * 2 ^ (ex - Z.min ex ey) <= my * 2 ^ (ey - Z.min ex ey).
Proof.
  intros (Hm & Hm' & He & Heq & Hlt) Hx Hy Hex Hey Hmx Hmy.
  set (k := Z.min ex ey).
  assert (Hk : k <= ex /\ k <= ey /\ e <= k) by (unfold k; lia). clearbody k.
  assert (H1 : m <= m' * 2 ^ (e' - e)).
  { destruct (decide (e = e')) as [<-|Hne].
    - rewrite Z.sub_diag. cbn. specialize (Heq eq_refl). lia.
    - assert (2 ^ 1 <= 2 ^ (e' - e)) by (apply Z.pow_le_mono_r; lia).
      change (2 ^ 1) with 2 in *. change (2 ^ 53) with (2 * 2 ^ 52) in *.
      specialize (Hlt ltac:(lia)). nia. }
  rewrite <- Hx, <- Hy in H1.
  replace (my * 2 ^ (ey - e') * 2 ^ (e' - e)) with (my * 2 ^ (ey - e)) in H1.
  2:{ rewrite <- Z.mul_assoc, <- Z.pow_add_r by lia. f_equal. f_equal. lia. }
  replace (ex - e) with ((ex - k) + (k - e)) in H1 by lia.
  replace (ey - e) with ((ey - k) + (k - e)) in H1 by lia.
  rewrite !Z.pow_add_r, !Z.mul_assoc in H1 by lia.
  assert (0 < 2 ^ (k - e)) by (apply Z.pow_pos_nonneg; lia).
  apply Z.mul_le_mono_pos_r in H1; done.
Qed.

Lemma SFmul_rounded_shape p x mc ec :
  2 ^ 52 <= Z.pos mc < 2 ^ 53 -> Z.pos p < 2 ^ 53 ->
  x + ec + 53 < emax - prec ->
  let a := Z.pos (p * mc) in
  let e := x + ec in
  SFmul prec emax (S754_finite false p x) (S754_finite false mc ec)
  = binary_round_aux prec emax false (a / 1) e loc_Exact
  /\ e <= fexp prec emax (Zdigits2 (a / 1) + e)
  /\ fexp prec emax (Zdigits2 (a / 1) + e) < emax - prec.
Proof.
  intros Hmc Hp Hx a e. rewrite Z.div_1_r. split; [done|].
  assert (Ha : 2 ^ 52 <= a < 2 ^ 106).
  { unfold a. rewrite Pos2Z.inj_mul.
    change (2 ^ 106) with (2 ^ 53 * 2 ^ 53). nia. }
  pose proof (Zdigits2_ge a 53 ltac:(lia) ltac:(lia)).
  pose proof (Zdigits2_le a 106 ltac:(lia) ltac:(lia)).
  unfold fexp, emin, emax, prec in *. lia.
Qed.

(** The product of a rounded quotient by a constant is monotone. *)
Lemma SFmul_rounded_ord e m e' m' mc ec :
  rounded_ord e m e' m' ->
  2 ^ 52 <= Z.pos mc < 2 ^ 53 -> e' + 1 + ec + 53 < emax - prec ->
  SFleb (SFmul prec emax (rounded e m) (S754_finite false mc ec))
        (SFmul prec emax (rounded e' m') (S754_finite false mc ec)) = true.
Proof.
  intros Hord Hmc Hmax. pose proof Hord as (Hm & Hm' & He & Heq & Hlt).
  destruct (rounded_cases e m Hm) as [[-> ->]|(p & x & -> & Hv & Hx & Hp)];
    destruct (rounded_cases e' m' Hm')
      as [[-> ->]|(p' & x' & -> & Hv' & Hx' & Hp')].
  - done.
  - destruct (SFmul_rounded_shape p' x' mc ec Hmc Hp' ltac:(lia))
      as (Hmul & Hsh & Hb).
    cbv zeta in *. rewrite Hmul.
    destruct (binary_round_aux_shape (Z.pos (p' * mc) / 1) (x' + ec)
                loc_Exact ltac:(rewrite Z.div_1_r; lia) Hsh Hb) as (-> & _).
    change (SFmul prec emax (S754_zero false) (S754_finite false mc ec))
      with (S754_zero false).
    apply zero_le_rounded.
  - exfalso. assert (0 < 2 ^ (x - e)) by (apply Z.pow_pos_nonneg; lia).
    destruct (decide (e = e')) as [Ee|Ne]; [specialize (Heq Ee); nia|].
    specialize (Hlt ltac:(lia)). change (2 ^ 52) with 4503599627370496 in Hlt.
    lia.
  - destruct (SFmul_rounded_shape p x mc ec Hmc Hp ltac:(lia))
      as (Hmul & Hsh & Hb).
    destruct (SFmul_rounded_shape p' x' mc ec Hmc Hp' ltac:(lia))
      as (Hmul' & Hsh' & Hb').
    cbv zeta in *. rewrite Hmul, Hmul'.
    apply binary_round_aux_mono; try done; try lia;
      try apply located_exact.
    unfold value_le.
    replace (x + ec - Z.min (x + ec) (x' + ec)) with (x - Z.min x x') by lia.
    replace (x' + ec - Z.min (x + ec) (x' + ec)) with (x' - Z.min x x') by lia.
    pose proof (rounded_ord_value e m e' m' (Z.pos p) x (Z.pos p') x'
                  Hord Hv Hv' ltac:(lia) ltac:(lia) ltac:(lia) ltac:(lia)) as H.
    rewrite !Pos2Z.inj_mul.
    assert (0 < 2 ^ (x - Z.min x x')) by (apply Z.pow_pos_nonneg; lia).
    assert (0 < 2 ^ (x' - Z.min x x')) by (apply Z.pow_pos_nonneg; lia).
    nia.
Qed.

(** ** The threshold is a clamp *)

Lemma SF_compare_Z_is_Some f z :
  f <> S754_nan -> exists c, SF_compare_Z f z = Some c.
Proof. destruct f; simpl; eauto. congruence. Qed.

(** The comparison of a float with an int is monotone in the int. *)
Lemma SF_compare_Z_mono f a b ca cb :
  SF_compare_Z f a = Some ca -> SF_compare_Z f b = Some cb ->
  a < b -> ca <> Gt -> cb = Lt.
Proof.
  destruct f as [s|s| |s m e]; unfold SF_compare_Z; try discriminate.
  - intros [= <-] [= <-] Hab.
    destruct a, b; cbn; intros ?; first [congruence | exfalso; lia].
  - intros [= <-] [= <-] Hab. destruct s; congruence.
  - generalize (cond_Zopp s (Z.pos m)). intros v.
    destruct (Z.leb_spec 0 e).
    + generalize (v * 2 ^ e). intros w.
      destruct (Z.compare_spec w a), (Z.compare_spec w b);
        intros [= <-] [= <-] ? ?; first [congruence | exfalso; lia].
    + assert (HK : 0 < 2 ^ (- e)) by (apply Z.pow_pos_nonneg; lia).
      revert HK. generalize (2 ^ (- e)). intros K HK.
      destruct (Z.compare_spec v (a * K)), (Z.compare_spec v (b * K));
        intros [= <-] [= <-] ? ?; first [congruence | exfalso; nia].
Qed.

Lemma threshold_is_clamp (d : spec_float) :
  d <> S754_nan ->
  let x := py_min (PyFloat d) (PyInt (256 * 1024 * 1024)) in
  let thr := py_max x (PyInt (16 * 1024 * 1024)) in
  thr = Planner.clamp x (PyInt (16 * Planner.MiB)) (PyInt (256 * Planner.MiB))
  /\ py_le (PyInt (16 * Planner.MiB)) thr = true
  /\ py_le thr (PyInt (256 * Planner.MiB)) = true.
Proof.
  intros Hd. change (16 * Planner.MiB) with 16777216.
  change (256 * Planner.MiB) with 268435456.
  change (256 * 1024 * 1024) with 268435456.
  change (16 * 1024 * 1024) with 16777216.
  destruct (SF_compare_Z_is_Some d 268435456 Hd) as [ca Ha].
  destruct (SF_compare_Z_is_Some d 16777216 Hd) as [cb Hb].
  pose proof (SF_compare_Z_mono d _ _ cb ca Hb Ha ltac:(lia)) as Hmono.
  cbv zeta.
  unfold Planner.clamp, py_min, py_max, py_gt, py_lt, py_le.
  cbn [py_compare]. rewrite Ha. cbn [fmap option_fmap option_map].
  destruct ca; cbn [CompOpp py_compare]; rewrite ?Ha, ?Hb;
    cbn [fmap option_fmap option_map CompOpp];
    destruct cb; cbn [CompOpp py_compare]; rewrite ?Ha, ?Hb;
    cbn [fmap option_fmap option_map CompOpp]; auto;
    try (exfalso; discriminate Hmono; congruence).
Qed.

(** ** The planner's two loops *)

Section PlannerProperties.

Variable uuid4 : nat -> string.
Variable shuffle : list file_info -> list file_info.

Lemma sum_sizes_app l1 l2 : sum_sizes (l1 ++ l2) = sum_sizes l1 + sum_sizes l2.
Proof. induction l1 as [|x l1 IH]; simpl; lia. Qed.

Lemma total_size_sum_sizes l : Planner.total_size l = sum_sizes l.
Proof.
  unfold Planner.total_size.
  assert (H : forall a, fold_left (fun acc fi => acc + size fi) l a
                        = a + sum_sizes l).
  { induction l as [|x l IH]; intros a; simpl; [lia|]. rewrite IH. lia. }
  apply H.
Qed.

Lemma move_large_tasks_cons k0 f fs :
  move_large_tasks uuid4 k0 (f :: fs)
  = MoveLarge (uuid4 k0) f :: move_large_tasks uuid4 (S k0) fs.
Proof.
  unfold move_large_tasks. simpl. rewrite Nat.add_0_r. f_equal.
  apply imap_ext. intros i x _. simpl. f_equal. f_equal. lia.
Qed.

Lemma pack_tasks_snoc k0 chunks c :
  pack_tasks uuid4 k0 (chunks ++ [c])
  = pack_tasks uuid4 k0 chunks
      ++ [Pack (uuid4 (k0 + length chunks)%nat)
            (Z.of_nat (S (length chunks))) c].
Proof.
  unfold pack_tasks. rewrite imap_app. simpl.
  by rewrite Nat.add_0_r.
Qed.

Lemma classify_fold thr l : forall st small,
  fold_left (Planner.classify_step uuid4 thr) l (st, small)
  = ({| Planner.task_plan :=
          Planner.task_plan st
            ++ move_large_tasks uuid4 (Planner.uuid_calls st)
                 (List.filter (is_large thr) l);
        Planner.uuid_calls :=
          (Planner.uuid_calls st
           + length (List.filter (is_large thr) l))%nat |},
     small ++ List.filter (fun fi => negb (is_large thr fi)) l).
Proof.
  induction l as [|f l IH]; intros [tp k] small; simpl.
  - unfold move_large_tasks. simpl. by rewrite !app_nil_r, Nat.add_0_r.
  - destruct (is_large thr f) eqn:E; simpl; rewrite IH; simpl.
    + rewrite move_large_tasks_cons, <- app_assoc. simpl.
      f_equal. f_equal. lia.
    + by rewrite <- app_assoc.
Qed.

Lemma greedy_partition_single ideal limit f :
  greedy_partition ideal limit [[f]].
Proof.
  split; [|split].
  - by repeat constructor.
  - intros c c1 g c2 Hc -> Hne. apply list_elem_of_singleton in Hc.
    destruct c1 as [|x [|y c1]]; simpl in Hc; congruence.
  - intros [|i] c g c' _ H; simpl in H; discriminate.
Qed.

Lemma greedy_partition_seal ideal limit done cur f :
  greedy_partition ideal limit (done ++ [cur]) ->
  seal_condition ideal limit cur f ->
  greedy_partition ideal limit ((done ++ [cur]) ++ [[f]]).
Proof.
  intros (Hne & Hin & Hbd) Hseal. split; [|split].
  - apply Forall_app. split; [exact Hne|by repeat constructor].
  - intros c c1 g c2 Hc Heq Hc1. apply elem_of_app in Hc as [Hc|Hc].
    + by eapply Hin.
    + apply list_elem_of_singleton in Hc. subst c.
      destruct c1 as [|x [|y c1]]; simpl in Heq; congruence.
  - intros i c g c' Hi HSi.
    destruct (decide (S i < length (done ++ [cur]))%nat) as [Hlt|Hge].
    + rewrite lookup_app_l in Hi by lia. rewrite lookup_app_l in HSi by lia.
      by eapply Hbd.
    + assert (Hlen : (S i < length ((done ++ [cur]) ++ [[f]]))%nat)
        by (eapply lookup_lt_Some; eauto).
      rewrite length_app in Hlen. simpl in Hlen.
      assert (Hi' : S i = length (done ++ [cur])) by lia.
      rewrite lookup_app_r in HSi by lia. rewrite Hi', Nat.sub_diag in HSi.
      simpl in HSi. injection HSi as <- <-.
      rewrite lookup_app_l in Hi by lia.
      rewrite length_app in Hi'. simpl in Hi'.
      rewrite lookup_app_r in Hi by lia.
      replace (i - length done)%nat with 0%nat in Hi by lia.
      simpl in Hi. by injection Hi as <-.
Qed.

Lemma greedy_partition_extend ideal limit done cur f :
  greedy_partition ideal limit (done ++ [cur]) ->
  cur <> [] ->
  ~ seal_condition ideal limit cur f ->
  greedy_partition ideal limit (done ++ [cur ++ [f]]).
Proof.
  intros (Hne & Hin & Hbd) Hcur Hseal. split; [|split].
  - apply Forall_app in Hne as [Hd _]. apply Forall_app.
    split; [exact Hd|]. constructor; [|constructor].
    by destruct cur.
  - intros c c1 g c2 Hc Heq Hc1. apply elem_of_app in Hc as [Hc|Hc].
    + eapply Hin; [|exact Heq|exact Hc1]. apply elem_of_app. by left.
    + apply list_elem_of_singleton in Hc. subst c.
      destruct (decide (c2 = [])) as [->|Hc2].
      * apply (app_inj_tail cur c1 f g) in Heq as [-> ->]. exact Hseal.
      * destruct (exists_last Hc2) as (c2' & h & ->).
        change (c1 ++ g :: c2' ++ [h]) with (c1 ++ (g :: c2') ++ [h]) in Heq.
        rewrite app_assoc in Heq.
        apply app_inj_tail in Heq as [Heq _].
        eapply Hin; [|exact Heq|exact Hc1].
        apply elem_of_app. right. by apply list_elem_of_singleton.
  - intros i c g c' Hi HSi.
    assert (Hlen : (S i < length (done ++ [cur ++ [f]]))%nat)
      by (eapply lookup_lt_Some; eauto).
    rewrite length_app in Hlen. simpl in Hlen.
    rewrite lookup_app_l in Hi by lia.
    destruct (decide (S i < length done)%nat) as [Hlt|Hge].
    + rewrite lookup_app_l in HSi by lia.
      apply (Hbd i c g c'); by rewrite lookup_app_l by lia.
    + rewrite lookup_app_r in HSi by lia.
      replace (S i - length done)%nat with 0%nat in HSi by lia.
      simpl in HSi. injection HSi as HSi.
      destruct cur as [|x cur]; [done|]. simpl in HSi.
      injection HSi as -> <-.
      apply (Hbd i c g cur).
      * by rewrite lookup_app_l by lia.
      * rewrite lookup_app_r by lia.
        by replace (S i - length done)%nat with 0%nat by lia.
Qed.

Lemma must_seal_spec ideal limit cs f :
  Planner.current_chunk cs <> [] ->
  Planner.current_chunk_size cs = sum_sizes (Planner.current_chunk cs) ->
  Planner.must_seal ideal limit cs f = true
  <-> seal_condition ideal limit (Planner.current_chunk cs) f.
Proof.
  intros Hne Hsz. unfold Planner.must_seal, seal_condition.
  rewrite bool_decide_eq_false_2 by done. simpl. rewrite Hsz.
  rewrite orb_true_iff, Z.leb_le, Z.ltb_lt. tauto.
Qed.

Lemma chunk_loop_invariant ideal limit st L :
  let cs := fold_left (Planner.chunk_step uuid4 ideal limit) L
              {| Planner.plan := st; Planner.current_chunk := [];
                 Planner.current_chunk_size := 0;
                 Planner.pack_id_counter := 0 |} in
  exists done,
    Planner.plan cs
    = {| Planner.task_plan :=
           Planner.task_plan st
             ++ pack_tasks uuid4 (Planner.uuid_calls st) done;
         Planner.uuid_calls := (Planner.uuid_calls st + length done)%nat |}
    /\ Planner.pack_id_counter cs = Z.of_nat (length done)
    /\ Planner.current_chunk_size cs = sum_sizes (Planner.current_chunk cs)
    /\ concat done ++ Planner.current_chunk cs = L
    /\ (Planner.current_chunk cs = [] -> done = [])
    /\ (Planner.current_chunk cs <> [] ->
        greedy_partition ideal limit (done ++ [Planner.current_chunk cs])).
Proof.
  induction L as [|f L IH] using rev_ind.
  - exists []. simpl. destruct st. rewrite app_nil_r, Nat.add_0_r.
    repeat split; auto. congruence.
  - cbv zeta in *. rewrite fold_left_app. simpl.
    destruct IH as (done & Hplan & Hpid & Hsz & Hcat & Hnil & Hgp).
    set (cs := fold_left _ L _) in *.
    unfold Planner.chunk_step.
    destruct (decide (Planner.current_chunk cs = [])) as [Hcur|Hcur].
    + (* the first file of the scan opens the first chunk *)
      assert (Hms : Planner.must_seal ideal limit cs f = false).
      { unfold Planner.must_seal. by rewrite bool_decide_eq_true_2. }
      rewrite Hms. exists done. cbn [Planner.plan Planner.pack_id_counter
        Planner.current_chunk Planner.current_chunk_size].
      rewrite Hcur in *. rewrite (Hnil eq_refl) in *. simpl in *.
      rewrite <- Hcat. split_and!; auto; try lia; try congruence.
      intros _. apply greedy_partition_single.
    + specialize (Hgp Hcur).
      destruct (Planner.must_seal ideal limit cs f) eqn:Hms.
      * (* the chunk is closed and [f] opens the next one *)
        apply must_seal_spec in Hms; [|done..].
        exists (done ++ [Planner.current_chunk cs]).
        cbn [Planner.seal Planner.plan Planner.pack_id_counter
          Planner.current_chunk Planner.current_chunk_size].
        unfold Planner.append_task. rewrite Hplan.
        cbn [Planner.task_plan Planner.uuid_calls].
        rewrite pack_tasks_snoc, length_app, concat_app, Hpid.
        simpl. rewrite app_nil_r, Hcat.
        split_and!; auto; try congruence; try lia.
        -- rewrite <- app_assoc. f_equal; [|lia].
           f_equal. f_equal. f_equal. f_equal. lia.
        -- intros _. by apply greedy_partition_seal.
      * (* [f] joins the open chunk *)
        assert (Hns : ~ seal_condition ideal limit
                        (Planner.current_chunk cs) f).
        { intros H. apply must_seal_spec in H; [congruence|done..]. }
        exists done.
        cbn [Planner.plan Planner.pack_id_counter
          Planner.current_chunk Planner.current_chunk_size].
        rewrite sum_sizes_app, Hsz, app_assoc, Hcat. simpl.
        split_and!; auto; try lia.
        -- intros H. by apply app_eq_nil in H as [_ ?].
        -- intros _. by apply greedy_partition_extend.
Qed.

(** What [chunk] appends to the plan. *)
Lemma chunk_spec ideal limit L st :
  exists chunks,
    Planner.chunk uuid4 ideal limit L st
    = {| Planner.task_plan :=
           Planner.task_plan st
             ++ pack_tasks uuid4 (Planner.uuid_calls st) chunks;
         Planner.uuid_calls := (Planner.uuid_calls st + length chunks)%nat |}
    /\ concat chunks = L
    /\ greedy_partition ideal limit chunks.
Proof.
  unfold Planner.chunk.
  destruct (chunk_loop_invariant ideal limit st L)
    as (done & Hplan & Hpid & Hsz & Hcat & Hnil & Hgp).
  cbv zeta in *. set (cs := fold_left _ L _) in *.
  case_bool_decide as Hcur.
  - exists done. rewrite Hcur, app_nil_r in Hcat.
    rewrite (Hnil Hcur) in *. split_and!; auto.
    split_and!; [constructor| |].
    + intros c c1 f c2 Hc. by apply elem_of_nil in Hc.
    + intros [|i] c f c' H; discriminate.
  - exists (done ++ [Planner.current_chunk cs]).
    cbn [Planner.seal Planner.plan]. unfold Planner.append_task.
    rewrite Hplan. cbn [Planner.task_plan Planner.uuid_calls].
    rewrite pack_tasks_snoc, length_app, concat_app, Hpid. simpl.
    rewrite app_nil_r, <- app_assoc. split; [|split; auto].
    f_equal; [|lia]. f_equal. f_equal. f_equal. f_equal. lia.
Qed.

(** [(a + w - 1) // w] is the least [k] with [a <= w * k]. *)
Lemma ceil_div_spec a w :
  0 < w ->
  a <= w * ((a + w - 1) `div` w)
  /\ forall k, a <= w * k -> (a + w - 1) `div` w <= k.
Proof.
  intros Hw. pose proof (Z.div_mod (a + w - 1) w ltac:(lia)) as Hdm.
  pose proof (Z.mod_pos_bound (a + w - 1) w Hw) as Hb.
  split; [nia|]. intros k Hk.
  assert ((a + w - 1) `div` w < k + 1); [|lia].
  apply Z.div_lt_upper_bound; [lia|]. nia.
Qed.

Lemma omap_imap_Some {A B C} (g : B -> option C) (h : A -> C)
    (f : nat -> A -> B) (l : list A) :
  (forall i x, g (f i x) = Some (h x)) -> omap g (imap f l) = map h l.
Proof.
  revert f. induction l as [|x l IH]; intros f Hf; simpl; [done|].
  rewrite Hf. f_equal. apply IH. intros i y. apply Hf.
Qed.

Lemma omap_imap_None {A B C} (g : B -> option C)
    (f : nat -> A -> B) (l : list A) :
  (forall i x, g (f i x) = None) -> omap g (imap f l) = [].
Proof.
  revert f. induction l as [|x l IH]; intros f Hf; simpl; [done|].
  rewrite Hf. apply IH. intros i y. apply Hf.
Qed.

Lemma move_large_files_tasks k fs :
  move_large_files (move_large_tasks uuid4 k fs) = fs.
Proof.
  unfold move_large_files, move_large_tasks.
  rewrite (omap_imap_Some _ id); [apply map_id|done].
Qed.

Lemma move_large_files_packs k chunks :
  move_large_files (pack_tasks uuid4 k chunks) = [].
Proof. by apply omap_imap_None. Qed.

Lemma pack_chunks_tasks k chunks :
  pack_chunks (pack_tasks uuid4 k chunks) = chunks.
Proof.
  unfold pack_chunks, pack_tasks.
  rewrite (omap_imap_Some _ id); [apply map_id|done].
Qed.

Lemma pack_chunks_moves k fs :
  pack_chunks (move_large_tasks uuid4 k fs) = [].
Proof. by apply omap_imap_None. Qed.

Lemma pack_ids_tasks k chunks :
  pack_ids (pack_tasks uuid4 k chunks)
  = map Z.of_nat (seq 1 (length chunks)).
Proof.
  unfold pack_ids, pack_tasks.
  assert (H : forall (b : nat),
    omap (fun t => match t with Pack _ p _ => Some p | _ => None end)
      (imap (fun i c => Pack (uuid4 (k + (b + i))%nat) (Z.of_nat (S (b + i))) c)
         chunks)
    = map Z.of_nat (seq (S b) (length chunks))).
  { induction chunks as [|c chunks IH]; intros b; simpl; [done|].
    rewrite Nat.add_0_r. f_equal.
    rewrite <- (IH (S b)). f_equal. apply imap_ext. intros i x _. simpl.
    by replace (b + S i)%nat with (S (b + i)) by lia. }
  apply (H 0%nat).
Qed.

Lemma elem_of_pack_tasks t k chunks :
  t ∈ pack_tasks uuid4 k chunks ->
  exists i c, t = Pack (uuid4 (k + i)%nat) (Z.of_nat (S i)) c
              /\ chunks !! i = Some c.
Proof. unfold pack_tasks. intros H. by apply elem_of_lookup_imap in H. Qed.

Lemma elem_of_move_large_tasks t k fs :
  t ∈ move_large_tasks uuid4 k fs ->
  exists i fi, t = MoveLarge (uuid4 (k + i)%nat) fi /\ fs !! i = Some fi.
Proof. unfold move_large_tasks. intros H. by apply elem_of_lookup_imap in H. Qed.

(** The whole of [_scan_and_plan] on a non-empty scan. *)
Lemma scan_and_plan_spec W limit cfl all_files st :
  all_files <> [] ->
  exists avg thr chunks,
    int_truediv (Planner.total_size all_files)
      (Z.of_nat (length all_files)) = Some avg
    /\ avg <> S754_nan
    /\ Planner.large_file_threshold (Planner.total_size all_files)
         (Z.of_nat (length all_files)) = Some thr
    /\ thr = py_max (py_min (PyFloat (float_mul_int avg 10))
                            (PyInt (256 * 1024 * 1024)))
                    (PyInt (16 * 1024 * 1024))
    /\ let large := List.filter (is_large thr) all_files in
       let small := shuffle
                      (List.filter (fun fi => negb (is_large thr fi))
                         all_files) in
       let ideal := Planner.ideal_files_per_pack W cfl small in
       Planner.scan_and_plan uuid4 shuffle W limit cfl all_files st
       = Some (Planner.total_size all_files,
               {| Planner.task_plan :=
                    (Planner.task_plan st
                     ++ move_large_tasks uuid4 (Planner.uuid_calls st) large)
                    ++ pack_tasks uuid4
                         (Planner.uuid_calls st + length large) chunks;
                  Planner.uuid_calls :=
                    (Planner.uuid_calls st + length large
                     + length chunks)%nat |})
       /\ concat chunks = small
       /\ greedy_partition ideal limit chunks.
Proof.
  intros Hne.
  destruct (int_truediv (Planner.total_size all_files)
              (Z.of_nat (length all_files))) as [avg|] eqn:Havg.
  2:{ unfold int_truediv in Havg.
      destruct (Z.eqb_spec (Z.of_nat (length all_files)) 0) as [H0|];
        [|discriminate].
      destruct all_files; simpl in H0; [done|lia]. }
  set (thr := py_max (py_min (PyFloat (float_mul_int avg 10))
                        (PyInt (256 * 1024 * 1024)))
                (PyInt (16 * 1024 * 1024))).
  assert (Hthr : Planner.large_file_threshold (Planner.total_size all_files)
                   (Z.of_nat (length all_files)) = Some thr).
  { unfold Planner.large_file_threshold. by rewrite Havg. }
  pose (small := shuffle (List.filter (fun fi => negb (is_large thr fi))
                            all_files)).
  destruct (chunk_spec (Planner.ideal_files_per_pack W cfl small) limit small
              {| Planner.task_plan :=
                   Planner.task_plan st
                     ++ move_large_tasks uuid4 (Planner.uuid_calls st)
                          (List.filter (is_large thr) all_files);
                 Planner.uuid_calls :=
                   (Planner.uuid_calls st
                    + length (List.filter (is_large thr) all_files))%nat |})
    as (chunks & Hchunk & Hcat & Hgp).
  exists avg, thr, chunks. split_and!; auto.
  - eapply int_truediv_not_nan, Havg.
  - cbv zeta. split_and!; auto.
    unfold Planner.scan_and_plan.
    rewrite bool_decide_eq_false_2 by done. rewrite Hthr. simpl.
    unfold Planner.classify. rewrite classify_fold. simpl.
    fold small. by rewrite Hchunk.
Qed.

End PlannerProperties.

(** C2. For a non-empty scan of [n] files and [T] bytes the large-file
    threshold is [max(min((T / n) * 10, 256 MiB), 16 MiB)], which is the
    clamp of [min(avg * 10, 256 MiB)] between 16 MiB and 256 MiB; the
    files whose size is [>=] the threshold, and only they, become
    move_large tasks, and all the others are the pack candidates, which
    are shuffled and packed. *)
Theorem threshold_clamps_and_classifies
    (uuid4 : nat -> string) (shuffle : list file_info -> list file_info)
    (max_workers chunk_size_limit chunk_file_limit : Z)
    (all_files : list file_info) (st : Planner.plan_state) :
  all_files <> [] ->
  let T := Planner.total_size all_files in
  let n := Z.of_nat (length all_files) in
  exists avg thr,
    int_truediv T n = Some avg
    /\ thr = py_max (py_min (PyFloat (float_mul_int avg 10))
                            (PyInt (256 * Planner.MiB)))
                    (PyInt (16 * Planner.MiB))
    /\ Planner.large_file_threshold T n = Some thr
    /\ Planner.spec_threshold T n = Some thr
    /\ py_le (PyInt (16 * Planner.MiB)) thr = true
    /\ py_le thr (PyInt (256 * Planner.MiB)) = true
    /\ let large := List.filter (is_large thr) all_files in
       let small := List.filter (fun fi => negb (is_large thr fi)) all_files in
       exists st1 out,
         Planner.classify uuid4 thr all_files st = (st1, small)
         /\ Planner.task_plan st1
            = Planner.task_plan st
                ++ move_large_tasks uuid4 (Planner.uuid_calls st) large
         /\ Planner.scan_and_plan uuid4 shuffle max_workers chunk_size_limit
              chunk_file_limit all_files st = Some (T, out)
         /\ move_large_files (Planner.task_plan out)
            = move_large_files (Planner.task_plan st) ++ large
         /\ concat (pack_chunks (Planner.task_plan out))
            = concat (pack_chunks (Planner.task_plan st)) ++ shuffle small.
Proof.
  intros Hne T n.
  destruct (scan_and_plan_spec uuid4 shuffle max_workers chunk_size_limit
              chunk_file_limit all_files st Hne)
    as (avg & thr & chunks & Havg & Hnan & Hthr & Hdef & Hplan & Hcat & _).
  cbv zeta in Hplan.
  destruct (threshold_is_clamp (float_mul_int avg 10)
              (float_mul_int_not_nan avg Hnan)) as (Hclamp & Hlo & Hhi).
  cbv zeta in Hclamp, Hlo, Hhi. rewrite <- Hdef in Hclamp, Hlo, Hhi.
  exists avg, thr. split_and!; auto.
  - unfold Planner.spec_threshold. subst T n. rewrite Havg. simpl.
    f_equal. symmetry. exact Hclamp.
  - cbv zeta. eexists _, _. split_and!.
    + unfold Planner.classify. rewrite classify_fold. reflexivity.
    + reflexivity.
    + exact Hplan.
    + cbn [Planner.task_plan]. unfold move_large_files.
      rewrite !omap_app. fold (move_large_files (Planner.task_plan st)).
      fold (move_large_files (move_large_tasks uuid4 (Planner.uuid_calls st)
              (List.filter (is_large thr) all_files))).
      rewrite move_large_files_tasks.
      setoid_rewrite (move_large_files_packs uuid4). by rewrite app_nil_r.
    + cbn [Planner.task_plan]. unfold pack_chunks.
      rewrite !omap_app. setoid_rewrite (pack_chunks_tasks uuid4).
      setoid_rewrite (pack_chunks_moves uuid4).
      by rewrite app_nil_r, concat_app, Hcat.
Qed.


Lemma threshold_clamps_and_classifies_witness :
  let big := FileInfo "C:\data\movie.bin" (500 * Planner.MiB) in
  let all_files :=
    [FileInfo "C:\data\a.txt" 102400; big; FileInfo "C:\data\b.txt" 102400] in
  all_files <> []
  /\ exists out,
       Planner.large_file_threshold (Planner.total_size all_files) 3
       = Some (PyInt (256 * Planner.MiB))
       /\ Planner.scan_and_plan (fun _ => "id") (@rev file_info) 8
            (64 * Planner.MiB) 20000 all_files (Planner.PlanState [] 0)
          = Some (Planner.total_size all_files, out)
       /\ move_large_files (Planner.task_plan out) = [big].
Proof.
  intros big all_files.
  assert (Hne : all_files <> []) by discriminate.
  split; [exact Hne|].
  destruct (threshold_clamps_and_classifies (fun _ => "id") (@rev file_info) 8
              (64 * Planner.MiB) 20000 all_files (Planner.PlanState [] 0) Hne)
    as (avg & thr & Havg & Hdef & Hthr & _ & _ & _ & st1 & out
        & _ & _ & Hplan & Hlarge & _).
  vm_compute in Havg. injection Havg as <-.
  vm_compute in Hdef. subst thr.
  exists out. split_and!; [exact Hthr|exact Hplan|exact Hlarge].
Defined.

(** C3. With [W > 0] workers and a non-empty shuffled list [L] the
    target is [ideal = ceil(|L| / W)], the least [k] with [|L| <= W * k];
    with [W <= 0] or [L] empty it is [chunk_file_limit]. The pack tasks
    appended to the plan hold the files of [L] in order; inside a pack
    no file was appended to a non-empty chunk that already held [ideal]
    files or that the file would push over [chunk_size_limit], and each
    pack but the last ends where one of the two holds for the file that
    opens the next pack; the pack tasks carry the pack ids 1..N. *)
Theorem balanced_chunking (uuid4 : nat -> string)
    (max_workers chunk_size_limit chunk_file_limit : Z)
    (L : list file_info) (st : Planner.plan_state) :
  let ideal := Planner.ideal_files_per_pack max_workers chunk_file_limit L in
  (0 < max_workers /\ L <> [] ->
     ideal = (Z.of_nat (length L) + max_workers - 1) `div` max_workers
     /\ Z.of_nat (length L) <= max_workers * ideal
     /\ forall k, Z.of_nat (length L) <= max_workers * k -> ideal <= k)
  /\ (max_workers <= 0 \/ L = [] -> ideal = chunk_file_limit)
  /\ exists chunks,
       Planner.task_plan (Planner.chunk uuid4 ideal chunk_size_limit L st)
       = Planner.task_plan st
           ++ pack_tasks uuid4 (Planner.uuid_calls st) chunks
       /\ concat chunks = L
       /\ greedy_partition ideal chunk_size_limit chunks
       /\ Forall (fun c => Z.of_nat (length c) <= Z.max 1 ideal) chunks
       /\ pack_ids (pack_tasks uuid4 (Planner.uuid_calls st) chunks)
          = map Z.of_nat (seq 1 (length chunks)).
Proof.
  intros ideal. split_and!.
  - intros [HW HL]. subst ideal. unfold Planner.ideal_files_per_pack.
    rewrite (proj2 (Z.ltb_lt _ _) HW), bool_decide_eq_false_2 by done.
    simpl. split; [done|]. by apply ceil_div_spec.
  - intros H. subst ideal. unfold Planner.ideal_files_per_pack.
    destruct H as [HW| ->].
    + by rewrite (proj2 (Z.ltb_ge _ _) HW).
    + rewrite bool_decide_eq_true_2 by done. simpl.
      by rewrite andb_false_r.
  - destruct (chunk_spec uuid4 ideal chunk_size_limit L st)
      as (chunks & Hchunk & Hcat & Hgp).
    exists chunks. rewrite Hchunk. split_and!; auto.
    + destruct Hgp as (Hne & Hin & _).
      apply Forall_forall. intros c Hc.
      destruct (decide (length c <= 1)%nat) as [|Hlen]; [lia|].
      destruct c as [|x c] using rev_ind; [simpl in Hlen; lia|].
      clear IHc. rewrite length_app in *. simpl in *.
      assert (c <> []) by (destruct c; simpl in *; [lia|done]).
      specialize (Hin (c ++ [x]) c x [] Hc eq_refl H).
      unfold seal_condition in Hin. lia.
    + apply pack_ids_tasks.
Qed.

(** C10. Every pack task of a fresh plan holds at least one file; a
    pack whose files sum to more than [chunk_size_limit] holds exactly
    one file, and a pack of two or more files sums to at most
    [chunk_size_limit]. *)
Theorem packs_nonempty_and_oversized_single
    (uuid4 : nat -> string) (shuffle : list file_info -> list file_info)
    (max_workers chunk_size_limit chunk_file_limit : Z)
    (all_files : list file_info) (k0 : nat) :
  exists total out,
    Planner.scan_and_plan uuid4 shuffle max_workers chunk_size_limit
      chunk_file_limit all_files (Planner.PlanState [] k0) = Some (total, out)
    /\ forall tid pid fs,
         Pack tid pid fs ∈ Planner.task_plan out ->
         fs <> []
         /\ (chunk_size_limit < sum_sizes fs -> length fs = 1%nat)
         /\ ((2 <= length fs)%nat -> sum_sizes fs <= chunk_size_limit).
Proof.
  destruct (decide (all_files = [])) as [->|Hne].
  - eexists _, _. split; [reflexivity|]. simpl.
    intros tid pid fs H. by apply elem_of_nil in H.
  - destruct (scan_and_plan_spec uuid4 shuffle max_workers chunk_size_limit
                chunk_file_limit all_files (Planner.PlanState [] k0) Hne)
      as (avg & thr & chunks & _ & _ & _ & _ & Hplan & _ & Hgp).
    cbv zeta in Hplan, Hgp. eexists _, _. split; [exact Hplan|].
    cbn [Planner.task_plan Planner.uuid_calls app].
    intros tid pid fs Hin. apply elem_of_app in Hin as [Hin|Hin].
    { apply elem_of_move_large_tasks in Hin as (i & fi & Heq & _).
      discriminate. }
    apply elem_of_pack_tasks in Hin as (i & c & Heq & Hi).
    injection Heq as _ _ ->.
    destruct Hgp as (Hnonempty & Hinside & _).
    assert (Hc : c ∈ chunks) by (eapply list_elem_of_lookup_2; eauto).
    assert (Hcne : c <> [])
      by (eapply (proj1 (Forall_forall _ _) Hnonempty); eauto).
    assert (Htwo : (2 <= length c)%nat -> sum_sizes c <= chunk_size_limit).
    { intros Hlen. destruct c as [|x c _] using rev_ind; [done|].
      rewrite length_app in Hlen. simpl in Hlen.
      assert (c <> []) by (destruct c; simpl in *; [lia|done]).
      specialize (Hinside (c ++ [x]) c x [] Hc eq_refl H).
      unfold seal_condition in Hinside. rewrite sum_sizes_app. simpl. lia. }
    split_and!; auto.
    intros Hbig. destruct c as [|x [|y c]]; [done|done|].
    simpl in Htwo. specialize (Htwo ltac:(lia)). simpl in Hbig. lia.
Qed.

(** ** Session load *)

Lemma load_fold (l : list task) : forall s,
  let s' := fold_left load_step l s in
  task_plan s'
  = task_plan s
      ++ List.filter (fun t => negb (completed_in (completed_task_ids s) t)) l
  /\ processed_size s'
     = processed_size s
       + sum_task_sizes
           (List.filter
              (fun t => completed_in (completed_task_ids s) t
                        && negb (is_resume_extract t)) l)
  /\ completed_task_ids s' = completed_task_ids s
  /\ total_transfer_size s' = total_transfer_size s
  /\ status_calls s' = status_calls s.
Proof.
  induction l as [|t l IH]; intros s; cbn [fold_left List.filter].
  - cbn. rewrite app_nil_r. split_and!; auto; lia.
  - cbv zeta in IH. destruct (IH (load_step s t)) as (Hp & Hs & Hc & Ht & Hst).
    assert (Hids : completed_task_ids (load_step s t) = completed_task_ids s).
    { unfold load_step. case_bool_decide; [by destruct t|done]. }
    rewrite Hids in *. rewrite Hp, Hs, Hc, Ht, Hst.
    unfold load_step, completed_in. case_bool_decide as Hin.
    + destruct t; cbn; unfold sum_task_sizes; split_and!; auto; lia.
    + cbn. rewrite <- app_assoc. split_and!; auto.
Qed.

(** C1. A session file whose source or target directory differs from
    the configured one is rejected, and [run] then starts a fresh run.
    Otherwise each stored task whose id is among the completed ids is
    left out of the active plan and its bytes are added to
    [processed_size], and each other stored task enters the active
    plan, in the stored order. (The bytes are those of the pack and
    move_large tasks, the two types a session file holds.) *)
Theorem load_session_filters_completed (cfg : config) (sd : session_data)
    (s : state) :
  let ids : gset string := list_to_set (sd_completed_task_ids sd) in
  (sd_source_dir sd <> source_dir cfg \/ sd_target_dir sd <> target_dir cfg ->
     load_session cfg (Some sd) s = (false, s)
     /\ (resume_session s = true ->
         let s' := run_resume cfg (Some sd) s in
         resume_session s' = false /\ task_plan s' = []
         /\ total_transfer_size s' = 0 /\ processed_size s' = 0))
  /\ (sd_source_dir sd = source_dir cfg /\ sd_target_dir sd = target_dir cfg ->
      exists s',
        load_session cfg (Some sd) s = (true, s')
        /\ completed_task_ids s' = ids
        /\ task_plan s'
           = List.filter (fun t => negb (completed_in ids t)) (sd_task_plan sd)
        /\ (forall t, t ∈ sd_task_plan sd ->
              if completed_in ids t then t ∉ task_plan s'
              else t ∈ task_plan s')
        /\ processed_size s'
           = sum_task_sizes
               (List.filter (fun t => completed_in ids t
                                      && negb (is_resume_extract t))
                  (sd_task_plan sd))
        /\ (Forall (fun t => is_resume_extract t = false) (sd_task_plan sd) ->
            processed_size s'
            = sum_task_sizes (List.filter (completed_in ids) (sd_task_plan sd)))).
Proof.
  intros ids. split.
  - intros Hne.
    assert (Hrej : load_session cfg (Some sd) s = (false, s)).
    { unfold load_session.
      destruct Hne as [H|H]; apply String.eqb_neq in H; rewrite H; simpl;
        [done|by rewrite orb_true_r]. }
    split; [exact Hrej|]. intros Hres. unfold run_resume.
    rewrite Hres, Hrej. by cbn.
  - intros [Hs Ht]. unfold load_session.
    apply String.eqb_eq in Hs, Ht. rewrite Hs, Ht. cbn [negb orb].
    set (s0 := set_task_plan [] _).
    destruct (load_fold (sd_task_plan sd) s0) as (Hp & Hsz & Hc & Htot & _).
    cbv zeta in *. set (s1 := fold_left load_step (sd_task_plan sd) s0) in *.
    change (completed_task_ids s0) with ids in *.
    change (task_plan s0) with (@nil task) in Hp.
    change (processed_size s0) with 0 in Hsz.
    set (s2 := if 0 <? total_transfer_size s1 then _ else s1).
    assert (Hsame : task_plan s2 = task_plan s1
                    /\ processed_size s2 = processed_size s1
                    /\ completed_task_ids s2 = completed_task_ids s1).
    { subst s2. destruct (0 <? total_transfer_size s1); [|done].
      by destruct (progress_of _ _). }
    destruct Hsame as (Hp2 & Hsz2 & Hc2).
    exists s2. rewrite Hp2, Hsz2, Hc2, Hp, Hsz, Hc. simpl.
    split_and!; auto.
    + intros t Hin. destruct (completed_in ids t) eqn:E.
      * intros H. apply list_elem_of_In, filter_In in H as [_ H].
        by rewrite E in H.
      * apply list_elem_of_In, filter_In. split; [by apply list_elem_of_In|].
        by rewrite E.
    + intros Hall. clear -Hall.
      induction Hall as [|t l Ht _ IH]; [done|]. simpl.
      rewrite Ht, andb_true_r.
      destruct (completed_in ids t); [|exact IH].
      unfold sum_task_sizes in *. cbn [foldr]. lia.
Qed.

(** ** Archive names *)

Lemma digit_char_facts d :
  0 <= d < 10 ->
  PyStr.is_digit (PyStr.digit_char d) = true
  /\ PyStr.digit_value (PyStr.digit_char d) = d
  /\ PyStr.is_space (PyStr.digit_char d) = false
  /\ PyStr.digit_char d <> "_"%char
  /\ PyStr.digit_char d <> "."%char.
Proof.
  intros H.
  assert (Hd : d = 0 \/ d = 1 \/ d = 2 \/ d = 3 \/ d = 4 \/ d = 5 \/ d = 6
               \/ d = 7 \/ d = 8 \/ d = 9) by lia.
  repeat destruct Hd as [->|Hd]; try subst d; by vm_compute.
Qed.

Lemma parse_digits_digits fuel : forall n acc,
  0 <= n < 10 ^ Z.of_nat (S fuel) ->
  PyStr.parse_digits (PyStr.digits (S fuel) n acc) 0 false
  = PyStr.parse_digits acc n true.
Proof.
  induction fuel as [|fuel IH]; intros n acc Hn.
  - change (10 ^ Z.of_nat 1) with 10 in Hn. cbn [PyStr.digits].
    rewrite (proj2 (Z.ltb_lt n 10)) by lia. cbn [PyStr.parse_digits].
    rewrite Z.mod_small by lia.
    destruct (digit_char_facts n Hn) as (-> & -> & _). f_equal.
  - cbn [PyStr.digits]. destruct (Z.ltb_spec n 10) as [Hlt|Hge].
    + cbn [PyStr.parse_digits]. rewrite Z.mod_small by lia.
      destruct (digit_char_facts n ltac:(lia)) as (-> & -> & _). f_equal.
    + change (PyStr.parse_digits
                (PyStr.digits (S fuel) (n `div` 10)
                   (String (PyStr.digit_char (n `mod` 10)) acc)) 0 false
              = PyStr.parse_digits acc n true).
      rewrite IH.
      * cbn [PyStr.parse_digits].
        pose proof (Z.mod_pos_bound n 10 ltac:(lia)) as Hm.
        destruct (digit_char_facts _ Hm) as (-> & -> & _).
        f_equal. pose proof (Z.div_mod n 10 ltac:(lia)). lia.
      * split; [apply Z.div_pos; lia|].
        apply Z.div_lt_upper_bound; [lia|].
        replace (Z.of_nat (S (S fuel))) with (Z.succ (Z.of_nat (S fuel)))
          in Hn by lia.
        rewrite Z.pow_succ_r in Hn by lia. lia.
Qed.

Lemma fuel_suffices n :
  0 <= n -> n < 10 ^ Z.of_nat (S (Z.to_nat (Z.log2 n))).
Proof.
  intros Hn. pose proof (Z.log2_nonneg n) as Hl.
  replace (Z.of_nat (S (Z.to_nat (Z.log2 n)))) with (Z.succ (Z.log2 n)) by lia.
  destruct (decide (n = 0)) as [->|Hnz]; [by vm_compute|].
  pose proof (Z.log2_spec n ltac:(lia)) as [_ Hlt].
  eapply Z.lt_le_trans; [exact Hlt|].
  apply Z.pow_le_mono_l. lia.
Qed.

Lemma all_chars_digits (P : ascii -> bool) fuel : forall n acc,
  (forall d, 0 <= d < 10 -> P (PyStr.digit_char d) = true) ->
  all_chars P acc = true ->
  all_chars P (PyStr.digits fuel n acc) = true.
Proof.
  induction fuel as [|fuel IH]; intros n acc HP Hacc; cbn [PyStr.digits];
    [done|].
  assert (Hacc' : all_chars P (String (PyStr.digit_char (n `mod` 10)) acc)
                  = true).
  { cbn. rewrite HP, Hacc; [done|]. apply Z.mod_pos_bound. lia. }
  destruct (n <? 10); [exact Hacc'|]. by apply IH.
Qed.

Lemma head_digits fuel : forall n acc,
  exists d s, 0 <= d < 10
              /\ PyStr.digits (S fuel) n acc = String (PyStr.digit_char d) s.
Proof.
  induction fuel as [|fuel IH]; intros n acc.
  - exists (n `mod` 10), acc. split; [apply Z.mod_pos_bound; lia|].
    cbn. by destruct (n <? 10).
  - change (PyStr.digits (S (S fuel)) n acc)
      with (if n <? 10 then String (PyStr.digit_char (n `mod` 10)) acc
            else PyStr.digits (S fuel) (n `div` 10)
                   (String (PyStr.digit_char (n `mod` 10)) acc)).
    destruct (n <? 10); [|apply IH].
    exists (n `mod` 10), acc. split; [apply Z.mod_pos_bound; lia|done].
Qed.

Lemma all_chars_str (P : ascii -> bool) z :
  (forall d, 0 <= d < 10 -> P (PyStr.digit_char d) = true) ->
  P "-"%char = true ->
  all_chars P (PyStr.str z) = true.
Proof.
  intros HP Hm. unfold PyStr.str. destruct (z <? 0).
  - cbn [all_chars]. rewrite Hm. by apply all_chars_digits.
  - by apply all_chars_digits.
Qed.

Lemma lstrip_no_space s :
  all_chars (fun a => negb (PyStr.is_space a)) s = true -> PyStr.lstrip s = s.
Proof.
  destruct s as [|a s]; [done|]. cbn. intros H.
  apply andb_true_iff in H as [H _]. by destruct (PyStr.is_space a).
Qed.

Lemma rstrip_no_space s :
  all_chars (fun a => negb (PyStr.is_space a)) s = true -> PyStr.rstrip s = s.
Proof.
  induction s as [|a s IH]; [done|]. cbn. intros H.
  apply andb_true_iff in H as [Ha Hs]. rewrite (IH Hs).
  destruct s; [|done]. by destruct (PyStr.is_space a).
Qed.

(** [int(str(z)) == z] *)
Lemma int_str z : PyStr.int (PyStr.str z) = Some z.
Proof.
  unfold PyStr.int.
  assert (Hns : all_chars (fun a => negb (PyStr.is_space a)) (PyStr.str z)
                = true).
  { apply all_chars_str; [|done]. intros d Hd.
    by destruct (digit_char_facts d Hd) as (_ & _ & -> & _). }
  rewrite (lstrip_no_space _ Hns), (rstrip_no_space _ Hns).
  unfold PyStr.str. destruct (Z.ltb_spec z 0) as [Hneg|Hpos].
  - cbv beta iota.
    rewrite parse_digits_digits by (split; [lia|apply fuel_suffices; lia]).
    cbn. f_equal. lia.
  - destruct (head_digits (Z.to_nat (Z.log2 z)) z EmptyString)
      as (d & s & Hd & Hs).
    pose proof (parse_digits_digits (Z.to_nat (Z.log2 z)) z EmptyString
                  (conj Hpos (fuel_suffices z Hpos))) as Hparse.
    rewrite Hs in *. cbn [PyStr.parse_digits] in Hparse. rewrite <- Hparse.
    assert (Hcase : d = 0 \/ d = 1 \/ d = 2 \/ d = 3 \/ d = 4 \/ d = 5
                    \/ d = 6 \/ d = 7 \/ d = 8 \/ d = 9) by lia.
    repeat destruct Hcase as [->|Hcase]; try subst d; reflexivity.
Qed.

Lemma split_nonempty c s : PyStr.split c s <> [].
Proof.
  destruct s as [|a s]; cbn; [done|].
  destruct (Ascii.eqb a c); [done|]. by destruct (PyStr.split c s).
Qed.

Lemma split_no_sep c s :
  all_chars (fun a => negb (Ascii.eqb a c)) s = true -> PyStr.split c s = [s].
Proof.
  induction s as [|a s IH]; [done|]. cbn. intros H.
  apply andb_true_iff in H as [Ha Hs]. rewrite (IH Hs).
  by destruct (Ascii.eqb a c).
Qed.

Lemma append_nil_l (t : string) : ("" ++ t)%string = t.
Proof. reflexivity. Qed.

Lemma append_cons a (s t : string) :
  (String a s ++ t)%string = String a (s ++ t)%string.
Proof. reflexivity. Qed.

Lemma split_app_sep c s t :
  all_chars (fun a => negb (Ascii.eqb a c)) s = true ->
  PyStr.split c (s ++ String c t) = s :: PyStr.split c t.
Proof.
  induction s as [|a s IH]; rewrite ?append_nil_l, ?append_cons; cbn.
  - intros _. by rewrite Ascii.eqb_refl.
  - intros H. apply andb_true_iff in H as [Ha Hs]. rewrite (IH Hs).
    by destruct (Ascii.eqb a c).
Qed.

Lemma all_chars_app P s t :
  all_chars P (s ++ t) = all_chars P s && all_chars P t.
Proof.
  induction s as [|a s IH]; rewrite ?append_nil_l, ?append_cons; cbn;
    [done|].
  by rewrite IH, andb_assoc.
Qed.

Lemma substring_skip a b :
  String.substring (String.length a) (String.length b) (a ++ b) = b.
Proof.
  induction a as [|x a IH]; rewrite ?append_nil_l, ?append_cons; cbn;
    [|exact IH].
  induction b as [|y b IHb]; cbn; [done|]. by rewrite IHb.
Qed.

Lemma length_app_string a b :
  String.length (a ++ b) = (String.length a + String.length b)%nat.
Proof.
  induction a as [|x a IH]; rewrite ?append_nil_l, ?append_cons; cbn;
    [done|].
  by rewrite IH.
Qed.

Lemma append_assoc_string (a b c : string) :
  (a ++ (b ++ c))%string = ((a ++ b) ++ c)%string.
Proof.
  induction a as [|x a IH]; rewrite ?append_nil_l, ?append_cons; [done|].
  by rewrite IH.
Qed.

Lemma endswith_app a b : PyStr.endswith (a ++ b) b = true.
Proof.
  unfold PyStr.endswith. rewrite length_app_string.
  replace (String.length a + String.length b - String.length b)%nat
    with (String.length a) by lia.
  rewrite substring_skip, String.eqb_refl, andb_true_r.
  apply Nat.leb_le. lia.
Qed.

(** The name the pack phase gives an archive is the one the recovery
    scan reads the pack id back from. *)
Lemma parse_archive_name p :
  PyStr.startswith (archive_name p) "pack_" = true
  /\ PyStr.endswith (archive_name p) ".7z" = true
  /\ parse_pack_id (archive_name p) = Some p.
Proof.
  unfold archive_name. split_and!.
  - reflexivity.
  - rewrite append_assoc_string. apply endswith_app.
  - unfold parse_pack_id.
    change ("pack_" ++ PyStr.str p ++ ".7z")%string
      with ("pack" ++ String "_" (PyStr.str p ++ ".7z"))%string.
    rewrite split_app_sep by reflexivity.
    assert (Hu : all_chars (fun a => negb (Ascii.eqb a "_")) (PyStr.str p)
                 = true).
    { apply all_chars_str; [|done]. intros d Hd.
      destruct (digit_char_facts d Hd) as (_ & _ & _ & H & _).
      apply negb_true_iff, Ascii.eqb_neq, H. }
    assert (Hdot : all_chars (fun a => negb (Ascii.eqb a ".")) (PyStr.str p)
                   = true).
    { apply all_chars_str; [|done]. intros d Hd.
      destruct (digit_char_facts d Hd) as (_ & _ & _ & _ & H).
      apply negb_true_iff, Ascii.eqb_neq, H. }
    rewrite split_no_sep by (rewrite all_chars_app, Hu; reflexivity).
    cbn [PyStr.index lookup list_lookup mbind option_bind].
    change (PyStr.str p ++ ".7z")%string
      with (PyStr.str p ++ String "." "7z")%string.
    rewrite split_app_sep by exact Hdot.
    cbn [PyStr.index lookup list_lookup mbind option_bind].
    apply int_str.
Qed.

(** ** Recovery planning *)



Lemma pack_id_to_task_is_pack plan p t :
  pack_id_to_task plan !! p = Some t -> is_pack t = true.
Proof.
  unfold pack_id_to_task.
  assert (H : forall m : gmap Z task,
    (forall q u, m !! q = Some u -> is_pack u = true) ->
    fold_left index_pack plan m !! p = Some t -> is_pack t = true).
  { induction plan as [|u plan IH]; intros m Hm; cbn [fold_left].
    - apply Hm.
    - apply IH. destruct u as [i q fs|i fi|i q fs]; try exact Hm.
      intros q' u'. cbn. rewrite lookup_insert. case_decide.
      + by intros [= <-].
      + apply Hm. }
  apply H. intros q u. by rewrite lookup_empty.
Qed.

Lemma recovery_step_mono (m : gmap Z task) s item :
  let s' := recovery_step m s item in
  (exists new, recovery_tasks s' = recovery_tasks s ++ new
               /\ Forall (fun t => exists q u, m !! q = Some u
                                               /\ t = as_resume_extract u) new)
  /\ (forall t, t ∈ task_plan s' -> t ∈ task_plan s)
  /\ completed_task_ids s' = completed_task_ids s.
Proof.
  cbv zeta. unfold recovery_step.
  assert (Hid : (exists new, recovery_tasks s = recovery_tasks s ++ new
               /\ Forall (fun t => exists q u, m !! q = Some u
                                               /\ t = as_resume_extract u) new)
         /\ (forall t, t ∈ task_plan s -> t ∈ task_plan s)
         /\ completed_task_ids s = completed_task_ids s).
  { split_and!; auto. exists []. by rewrite app_nil_r. }
  destruct (_ && _); [|exact Hid].
  destruct (parse_pack_id item) as [p|]; [|exact Hid].
  destruct (m !! p) as [u|] eqn:Hu; [|exact Hid].
  case_bool_decide; [exact Hid|]. cbn. split_and!; auto.
  - exists [as_resume_extract u]. split; [done|].
    constructor; [|constructor]. eauto.
  - intros t Ht. apply list_elem_of_In, filter_In in Ht as [Ht _].
    by apply list_elem_of_In.
Qed.

Lemma recovery_fold_mono (m : gmap Z task) items : forall s,
  let s' := fold_left (recovery_step m) items s in
  (exists new, recovery_tasks s' = recovery_tasks s ++ new
               /\ Forall (fun t => exists q u, m !! q = Some u
                                               /\ t = as_resume_extract u) new)
  /\ (forall t, t ∈ task_plan s' -> t ∈ task_plan s)
  /\ completed_task_ids s' = completed_task_ids s.
Proof.
  induction items as [|item items IH]; intros s; cbn [fold_left].
  - split_and!; auto. exists []. by rewrite app_nil_r.
  - cbv zeta in *.
    destruct (recovery_step_mono m s item) as ((n1 & Hr1 & Hf1) & Hp1 & Hc1).
    destruct (IH (recovery_step m s item)) as ((n2 & Hr2 & Hf2) & Hp2 & Hc2).
    split_and!.
    + exists (n1 ++ n2). rewrite Hr2, Hr1, app_assoc. split; [done|].
      by apply Forall_app.
    + auto.
    + congruence.
Qed.


Lemma submit_main_fold l : forall s,
  let s' := fold_left submit_main l s in
  snd <$> transfer_submitted s' = (snd <$> transfer_submitted s) ++ l
  /\ task_plan s' = task_plan s
  /\ recovery_tasks s' = recovery_tasks s.
Proof.
  induction l as [|t l IH]; intros s; cbn [fold_left].
  - by rewrite app_nil_r.
  - cbv zeta in *. destruct (IH (submit_main s t)) as (-> & -> & ->).
    cbn. rewrite fmap_app. cbn. by rewrite <- app_assoc.
Qed.




(** ** The archiver supervisor *)

Section SupervisorProperties.

Import Supervisor.

Variable retries : nat.
Variable env : nat -> attempt.

Lemma timed_out_attempts_S i :
  timed_out_attempts (S i) = timed_out_attempts i ++ [Popen i; Kill i].
Proof.
  unfold timed_out_attempts. rewrite seq_S, flat_map_app. by cbn.
Qed.

Lemma popen_count_app tr1 tr2 :
  popen_count (tr1 ++ tr2) = (popen_count tr1 + popen_count tr2)%nat.
Proof. unfold popen_count. by rewrite List.filter_app, length_app. Qed.

Lemma popen_count_timed_out i : popen_count (timed_out_attempts i) = i.
Proof.
  induction i as [|i IH]; [done|].
  rewrite timed_out_attempts_S, popen_count_app, IH. cbn. lia.
Qed.

(** The loop over the attempts [k, k + n), where [k + n = retries]. *)
Lemma retry_loop_bounds n : forall k,
  (k + n = retries)%nat ->
  let tr := snd (retry_loop retries env (seq k n)) in
  (popen_count tr <= n)%nat
  /\ (forall x, Popen x ∈ tr -> (k <= x)%nat)
  /\ (forall j, (k <= j)%nat -> Popen (S j) ∈ tr ->
        stop_at_start (env j) = false /\ child_of (env j) = TimedOut
        /\ stop_after (env j) = false /\ Kill j ∈ tr).
Proof.
  induction n as [|n IH]; intros k Hk; cbn [seq retry_loop].
  - cbn. split_and!; [lia|intros x H; by apply elem_of_nil in H|].
    intros j _ H. by apply elem_of_nil in H.
  - cbv zeta in *.
    assert (Hone : forall (r : outcome unit) (kill : list action),
      (kill = [] \/ kill = [Kill k]) ->
      (popen_count (snd (r, Popen k :: kill)) <= S n)%nat
      /\ (forall x, Popen x ∈ snd (r, Popen k :: kill) -> (k <= x)%nat)
      /\ (forall j, (k <= j)%nat -> Popen (S j) ∈ snd (r, Popen k :: kill) ->
            stop_at_start (env j) = false /\ child_of (env j) = TimedOut
            /\ stop_after (env j) = false
            /\ Kill j ∈ snd (r, Popen k :: kill))).
    { intros r kill Hkill. cbn [snd].
      assert (Hin : forall x, Popen x ∈ Popen k :: kill -> x = k).
      { intros x Hx. apply elem_of_cons in Hx as [[= ->]|Hx]; [done|].
        destruct Hkill as [-> | ->]; [by apply elem_of_nil in Hx|].
        by apply list_elem_of_singleton in Hx. }
      split_and!.
      - destruct Hkill as [-> | ->]; cbn; lia.
      - intros x Hx. apply Hin in Hx. lia.
      - intros j Hj Hx. apply Hin in Hx. lia. }
    destruct (stop_at_start (env k)) eqn:Hs0.
    { cbn. split_and!; [lia|intros x H; by apply elem_of_nil in H|].
      intros j _ H. by apply elem_of_nil in H. }
    destruct (child_of (env k)) as [rc| |e] eqn:Hch.
    + destruct (stop_after (env k)); [apply Hone; by left|].
      destruct (negb (rc =? 0)); apply Hone; by left.
    + destruct (stop_after (env k)) eqn:Hs1; [apply Hone; by right|].
      destruct (k =? retries - 1)%nat; [apply Hone; by right|].
      destruct (IH (S k) ltac:(lia)) as (Hc & Hlo & Hre).
      destruct (retry_loop retries env (seq (S k) n)) as [r tr]. cbn [snd] in *.
      split_and!.
      * change (Popen k :: Kill k :: tr) with ([Popen k; Kill k] ++ tr).
        rewrite popen_count_app. cbn. lia.
      * intros x Hx. apply elem_of_cons in Hx as [[= ->]|Hx]; [lia|].
        apply elem_of_cons in Hx as [?|Hx]; [done|].
        apply Hlo in Hx. lia.
      * intros j Hj Hx.
        apply elem_of_cons in Hx as [[= ?]|Hx]; [lia|].
        apply elem_of_cons in Hx as [?|Hx]; [done|].
        destruct (decide (j = k)) as [->|Hne].
        -- split_and!; auto. apply elem_of_cons. right.
           apply elem_of_cons. by left.
        -- destruct (Hre j ltac:(lia) Hx) as (? & ? & ? & ?).
           split_and!; auto. by do 2 (apply elem_of_cons; right).
    + apply Hone. by left.
Qed.

(** When the attempts before [i] all timed out, the loop reaches
    attempt [i] having spawned and killed a child for each of them. *)
Lemma retry_loop_reached i :
  (i < retries)%nat -> reached env i ->
  run_command_with_retry retries env
  = let '(r, tr) := retry_loop retries env (seq i (retries - i)) in
    (r, timed_out_attempts i ++ tr).
Proof.
  unfold run_command_with_retry. induction i as [|i IH]; intros Hi Hr.
  - rewrite Nat.sub_0_r. by destruct (retry_loop _ _ _).
  - rewrite IH; [|lia|intros j Hj; apply Hr; lia].
    destruct (Hr i ltac:(lia)) as (Hs0 & Hch & Hs1).
    replace (retries - i)%nat with (S (retries - S i)) by lia.
    cbn [seq retry_loop]. rewrite Hs0, Hch, Hs1.
    rewrite (proj2 (Nat.eqb_neq i (retries - 1))) by lia.
    destruct (retry_loop retries env (seq (S i) (retries - S i))) as [r tr].
    rewrite timed_out_attempts_S. by rewrite <- app_assoc.
Qed.

End SupervisorProperties.

(** C7. The supervised invocation spawns at most [retries] children (3
    by default) and spawns a further one only after the previous one
    timed out, was killed, and the flag was not seen set. At the attempt
    [i] that the loop reaches: a flag seen set, at the start, after the
    child ended or after its timeout, makes the call return [None]; a
    non-zero exit raises CalledProcessError at once and no further child
    is spawned; a timeout kills the child, and at the last attempt
    re-raises TimeoutExpired. *)
Theorem supervisor_retries_only_on_timeout (retries : nat)
    (env : nat -> Supervisor.attempt) :
  let r := fst (Supervisor.run_command_with_retry retries env) in
  let tr := snd (Supervisor.run_command_with_retry retries env) in
  (Supervisor.popen_count tr <= retries)%nat
  /\ (forall j, Supervisor.Popen (S j) ∈ tr ->
        Supervisor.stop_at_start (env j) = false
        /\ Supervisor.child_of (env j) = Supervisor.TimedOut
        /\ Supervisor.stop_after (env j) = false
        /\ Supervisor.Kill j ∈ tr)
  /\ (forall i, (i < retries)%nat -> Supervisor.reached env i ->
        let before := Supervisor.timed_out_attempts i in
        if Supervisor.stop_at_start (env i)
        then r = Return tt /\ tr = before
        else
          match Supervisor.child_of (env i) with
          | Supervisor.Exited rc =>
              tr = before ++ [Supervisor.Popen i]
              /\ r = (if Supervisor.stop_after (env i) then Return tt
                      else if bool_decide (rc = 0) then Return tt
                      else Raise (CalledProcessError rc))
          | Supervisor.TimedOut =>
              if Supervisor.stop_after (env i)
              then r = Return tt
                   /\ tr = before ++ [Supervisor.Popen i; Supervisor.Kill i]
              else if bool_decide (i = (retries - 1)%nat)
              then r = Raise TimeoutExpired
                   /\ tr = Supervisor.timed_out_attempts retries
              else Supervisor.reached env (S i)
          | Supervisor.Failed e =>
              r = Raise e /\ tr = before ++ [Supervisor.Popen i]
          end).
Proof.
  intros r tr. split_and!.
  - destruct (retry_loop_bounds retries env retries 0 eq_refl) as (H & _).
    exact H.
  - intros j Hj.
    destruct (retry_loop_bounds retries env retries 0 eq_refl) as (_ & _ & H).
    apply (H j); [lia|exact Hj].
  - intros i Hi Hr before. subst r tr.
    rewrite (retry_loop_reached retries env i) by (lia || done).
    replace (retries - i)%nat with (S (retries - S i)) by lia.
    cbn [seq Supervisor.retry_loop].
    destruct (Supervisor.stop_at_start (env i)) eqn:Hs0.
    { cbn. by rewrite app_nil_r. }
    destruct (Supervisor.child_of (env i)) as [rc| |e] eqn:Hch.
    + destruct (Supervisor.stop_after (env i)); [done|].
      case_bool_decide as Hrc.
      * subst rc. done.
      * rewrite (proj2 (Z.eqb_neq rc 0)) by done. done.
    + destruct (Supervisor.stop_after (env i)) eqn:Hs1; [done|].
      case_bool_decide as Hlast.
      * rewrite (proj2 (Nat.eqb_eq i (retries - 1))) by done. cbn.
        split; [done|].
        replace retries with (S i) by lia.
        by rewrite timed_out_attempts_S.
      * intros j Hj. destruct (decide (j = i)) as [->|Hne]; [done|].
        apply Hr. lia.
    + done.
Qed.

(** ** The file list *)

Lemma translate_newlines_app linesep a b :
  FileList.translate_newlines linesep (a ++ b)
  = (FileList.translate_newlines linesep a
     ++ FileList.translate_newlines linesep b)%string.
Proof.
  induction a as [|x a IH]; rewrite ?append_nil_l, ?append_cons; [done|].
  cbn [FileList.translate_newlines]. rewrite IH.
  destruct (Ascii.eqb x (ascii_of_nat 10)); [|done].
  by rewrite append_assoc_string.
Qed.

Lemma translate_newlines_no_LF linesep a :
  FileList.has_no_LF a = true -> FileList.translate_newlines linesep a = a.
Proof.
  induction a as [|x a IH]; [done|]. cbn. intros H.
  apply andb_true_iff in H as [Hx Ha]. apply negb_true_iff in Hx.
  by rewrite Hx, IH.
Qed.

Lemma translate_newlines_LF a :
  FileList.translate_newlines FileList.LF a = a.
Proof.
  induction a as [|x a IH]; [done|]. cbn [FileList.translate_newlines].
  rewrite IH. destruct (Ascii.eqb_spec x (ascii_of_nat 10)) as [->|]; done.
Qed.

Lemma append_nil_r (a : string) : (a ++ "")%string = a.
Proof.
  induction a as [|x a IH]; rewrite ?append_nil_l, ?append_cons; [done|].
  by rewrite IH.
Qed.

(** The '\n' written after a path adds no surrogate to it. *)
Lemma has_surrogate_line (a : string) :
  FileList.has_surrogate (a ++ FileList.LF) = FileList.has_surrogate a.
Proof.
  induction a as [|x a IH]; [done|]. rewrite append_cons.
  cbn [FileList.has_surrogate]. rewrite IH.
  destruct a as [|y a]; [|by rewrite append_cons].
  rewrite append_nil_l. unfold FileList.LF, FileList.is_surrogate.
  rewrite nat_ascii_embedding by lia. cbn [Nat.leb]. by rewrite andb_false_r.
Qed.

Lemma lines_with_cons eol line lines :
  FileList.lines_with eol (line :: lines)
  = (line ++ eol ++ FileList.lines_with eol lines)%string.
Proof. reflexivity. Qed.

Lemma translate_lines_with linesep lines :
  linesep = FileList.LF \/ Forall (fun l => FileList.has_no_LF l = true) lines ->
  FileList.translate_newlines linesep (FileList.lines_with FileList.LF lines)
  = FileList.lines_with linesep lines.
Proof.
  intros [->|Hno]; [apply translate_newlines_LF|].
  induction Hno as [|l lines Hl _ IH]; [done|].
  rewrite !lines_with_cons, !translate_newlines_app, IH.
  rewrite (translate_newlines_no_LF _ _ Hl). f_equal. f_equal.
  cbn. by rewrite append_nil_r.
Qed.

(** What the loop writes and how it ends, from any content. *)
Lemma write_lines_spec relpath cfg files : forall content,
  let result := FileList.write_lines relpath cfg files content in
  let lines := FileList.leading_lines relpath cfg files in
  snd result
  = (content
     ++ FileList.translate_newlines (os_linesep (os cfg))
          (FileList.lines_with FileList.LF lines))%string
  /\ Forall2 (fun fi line => relpath (path fi) (source_dir cfg) = Return line)
       (take (length lines) files) lines
  /\ (length lines = length files -> fst result = Return tt)
  /\ (forall fi, files !! length lines = Some fi ->
        match relpath (path fi) (source_dir cfg) with
        | Raise e => fst result = Raise e
        | Return relative_path =>
            FileList.has_surrogate relative_path = true
            /\ fst result = Raise UnicodeEncodeError
        end).
Proof.
  induction files as [|f files IH]; intros content;
    cbn [FileList.write_lines FileList.leading_lines].
  - cbn. rewrite append_nil_r. by split_and!.
  - unfold FileList.line_of, FileList.write.
    destruct (relpath (path f) (source_dir cfg)) as [rel|e] eqn:Hrel.
    2:{ cbn. rewrite append_nil_r. split_and!; [done|constructor|done|].
        intros fi [= <-]. by rewrite Hrel. }
    rewrite has_surrogate_line.
    destruct (FileList.has_surrogate rel) eqn:Hs.
    { cbn. rewrite append_nil_r. split_and!; [done|constructor|done|].
      intros fi [= <-]. by rewrite Hrel. }
    cbv zeta in IH.
    destruct (IH (content
                  +:+ FileList.translate_newlines (os_linesep (os cfg))
                        (rel +:+ FileList.LF))) as (Hc & Hf & Hall & Hfirst).
    cbn [length take]. split_and!.
    + rewrite Hc, lines_with_cons, <- append_assoc_string. f_equal.
      rewrite <- translate_newlines_app. f_equal.
      by rewrite <- append_assoc_string.
    + by constructor.
    + intros [= Hlen]. by apply Hall.
    + intros fi Hfi. by apply Hfirst.
Qed.

(** C8, as stated, fails on Windows: the file list of a pack of one
    file is not its relative path followed by a single LF. *)
Lemma filelist_LF_counterexample :
  let cfg := Config "C:\data" "D:\backup" 8 (64 * 1024 * 1024) 20000 15
               false false FileList.windows in
  let files := [FileInfo "C:\data\a.txt" 5] in
  let relpath := fun _ _ : string => Return "a.txt" in
  FileList.write_filelist relpath cfg files
  = (Return tt, ("a.txt" ++ FileList.CRLF)%string)
  /\ snd (FileList.write_filelist relpath cfg files)
     <> FileList.lines_with FileList.LF ["a.txt"].
Proof. split; [by vm_compute|]. by vm_compute. Qed.

(** C8, amended. Once the file list of a pack is opened, the relative
    path of each file of the pack is written in pack order, followed by
    a '\n' that the text-mode file writes as [os.linesep], as every
    line feed: the content is one relative path per line, each ended
    by [os.linesep], where [os.linesep] is a line feed or no path holds
    one. The list is complete, and the block left without exception,
    when every relative path is computed and holds no lone surrogate;
    else the listing stops before the first file whose relative path
    raises or holds a lone surrogate, and the exception,
    UnicodeEncodeError for a surrogate, leaves the block. *)
Theorem filelist_lines_end_with_linesep
    (relpath : string -> string -> outcome string) (cfg : config)
    (files : list file_info) :
  let result := FileList.write_filelist relpath cfg files in
  let lines := FileList.leading_lines relpath cfg files in
  snd result
  = FileList.translate_newlines (os_linesep (os cfg))
      (FileList.lines_with FileList.LF lines)
  /\ (os_linesep (os cfg) = FileList.LF
      \/ Forall (fun l => FileList.has_no_LF l = true) lines ->
      snd result = FileList.lines_with (os_linesep (os cfg)) lines)
  /\ Forall2 (fun fi line => relpath (path fi) (source_dir cfg) = Return line)
       (take (length lines) files) lines
  /\ Forall (fun line => FileList.has_surrogate line = false) lines
  /\ (length lines = length files -> fst result = Return tt)
  /\ (forall fi, files !! length lines = Some fi ->
        match relpath (path fi) (source_dir cfg) with
        | Raise e => fst result = Raise e
        | Return relative_path =>
            FileList.has_surrogate relative_path = true
            /\ fst result = Raise UnicodeEncodeError
        end).
Proof.
  cbv zeta. unfold FileList.write_filelist.
  destruct (write_lines_spec relpath cfg files EmptyString)
    as (Hc & Hf & Hall & Hfirst).
  cbv zeta in *. rewrite append_nil_l in Hc.
  split_and!; [done| |done| |done|done].
  - intros H. by rewrite Hc, translate_lines_with.
  - clear. induction files as [|f files IH]; [constructor|].
    cbn [FileList.leading_lines]. unfold FileList.line_of.
    destruct (relpath _ _) as [rel|e]; [|constructor].
    destruct (FileList.has_surrogate rel) eqn:Hs; by constructor.
Qed.

(** A pack of three files whose second name holds the lone surrogate
    U+DC80: the first line is written, UnicodeEncodeError leaves the
    block, and the third file is not listed. *)
Lemma filelist_stops_at_surrogate :
  let cfg := Config "/data" "/backup" 8 (64 * 1024 * 1024) 20000 15
               false false FileList.posix in
  let bad := String (ascii_of_nat 237)
               (String (ascii_of_nat 178) (String (ascii_of_nat 128) ".txt")) in
  let files := [FileInfo "/data/a.txt" 5; FileInfo ("/data/" ++ bad) 1;
                FileInfo "/data/c.txt" 7] in
  let relpath := fun p _ : string =>
                   Return (String.substring 6 (String.length p - 6) p) in
  FileList.write_filelist relpath cfg files
  = (Raise UnicodeEncodeError, ("a.txt" ++ FileList.LF)%string).
Proof. by vm_compute. Qed.

(** ** The shapes of a step of the pipeline *)

(** The end of a task is kept folded when two states are compared. *)
Strategy opaque [update_progress on_failure finish progress_of].

Lemma step_shape_eq s ev s1 s2 :
  step_shape s ev s1 -> s1 = s2 -> step_shape s ev s2.
Proof. by intros H <-. Qed.

Ltac unfold_pools :=
  unfold handle, main_task_done_callback, final_cleanup_callback,
    cleanup_task_done_callback, process_main_task,
    submit_tracked_cleanup, submit_cleanup,
    add_final_cleanup_callback, pop_active_future,
    io_step, result_of, modify, mbind, M_bind, bind, ret, raise in *.

Ltac rewrite_lookups :=
  repeat match goal with H : _ !! _ = _ |- _ => rewrite H end.

Ltac side :=
  first
    [ done
    | eassumption
    | by eauto
    | (rewrite_lookups; by eauto)
    | (intros ? [=]; fail)
    | (intros ? [= <-]; by eauto)
    | (unfold owner; rewrite_lookups; by eauto)
    | (intros ?; unfold live; rewrite_lookups; first [tauto|done]) ].

Ltac shape_with s c :=
  eapply step_shape_eq; [c|try (destruct s; reflexivity)].

Lemma handle_shape cfg ev s s' :
  handle cfg ev s = Some s' -> step_shape s ev s'.
Proof.
  intros H. destruct ev as [fut io|fut|fut error stop_seen ce de|fut error|].
  - (* MainDone *)
    unfold handle in H.
    destruct (pending s !! fut) as [[t| | |]|] eqn:Hp; try discriminate.
    destruct (active_futures s !! fut) as [u|] eqn:Ha.
    + assert (Hl : live s fut u) by (unfold live; by rewrite Hp).
      destruct t as [i p fs|i fi|i p fs], io as [[pe|] [ee|] [me|]],
        (copy_only cfg) eqn:Hco; unfold_pools; rewrite ?Hco in H; cbn in H;
        rewrite ?Ha in H; cbn in H; rewrite ?lookup_insert_eq in H; cbn in H;
        injection H as <-.
      all: rewrite ?insert_insert_eq.
      all: try (shape_with s
                  ltac:(eapply (shape_failed s _ fut u None true); side);
                fail).
      all: try (shape_with s
                  ltac:(eapply (shape_failed s _ fut u
                                  (Some (DeleteSourceFiles (path <$> fs) None))
                                  true); side);
                fail).
      all: try (shape_with s
                  ltac:(eapply (shape_finished s _ fut u true); side);
                fail).
      all: try (shape_with s
                  ltac:(eapply (shape_handed_over s _ fut u
                                  (CleanupCacheOnly (cache_files_of cfg p))
                                  true); side);
                fail).
      all: try (shape_with s
                  ltac:(eapply (shape_handed_over s _ fut u
                                  (CleanupEmptyDirs [path fi]) true); side);
                fail).
      all: try (shape_with s
                  ltac:(eapply (shape_handed_over s _ fut u
                                  (DeleteSourceFiles (path <$> fs)
                                     (Some (u, cache_files_of cfg p)))
                                  false); side);
                fail).
    + assert (Hl : forall t', ~ live s fut t').
      { intros t'. unfold live. by rewrite Hp, Ha. }
      destruct t as [i p fs|i fi|i p fs], io as [[pe|] [ee|] [me|]],
        (copy_only cfg) eqn:Hco; unfold_pools; rewrite ?Hco in H; cbn in H;
        rewrite ?Ha in H; cbn in H; injection H as <-.
      all: try (shape_with s
                  ltac:(eapply (shape_orphan s _ fut None true); side);
                fail).
      all: shape_with s
             ltac:(eapply (shape_orphan s _ fut
                             (Some (DeleteSourceFiles (path <$> fs) None))
                             true); side).
  - (* MainCancelled *)
    unfold handle in H.
    destruct (pending s !! fut) as [[t| | |]|] eqn:Hp; try discriminate.
    destruct (stop_event s); [|discriminate].
    unfold_pools. cbn in H.
    destruct (active_futures s !! fut) as [u|] eqn:Ha; cbn in H;
      injection H as <-.
    + assert (Hl : live s fut u) by (unfold live; by rewrite Hp).
      shape_with s ltac:(eapply (shape_failed s _ fut u None true); side).
    + shape_with s ltac:(eapply (shape_orphan s _ fut None true); side).
  - (* DeleteDone *)
    unfold handle in H.
    destruct (pending s !! fut) as [[|paths [[t cf]|]| |]|] eqn:Hp;
      try discriminate.
    + assert (Hl : live s fut t) by (unfold live; by rewrite Hp).
      destruct error as [e|], ce as [e1|], de as [e2|]; unfold_pools;
        cbn in H; injection H as <-.
      all: try (shape_with s
                  ltac:(eapply (shape_failed s _ fut t None false); side);
                fail).
      shape_with s ltac:(eapply (shape_finished s _ fut t false); side).
    + injection H as <-.
      shape_with s ltac:(eapply (shape_orphan s _ fut None false); side).
  - (* CleanupDone *)
    unfold handle in H.
    assert (Hcl : exists j, pending s !! fut = Some j
                            /\ forall t, live s fut t
                                         <-> active_futures s !! fut = Some t).
    { unfold live. destruct (pending s !! fut) as [[| | |]|]; try discriminate;
        eauto. }
    destruct Hcl as (j & Hp & Hlive).
    assert (H' : Some (snd (cleanup_task_done_callback fut (result_of error tt)
                              (set_pending (delete fut (pending s)) s)))
                 = Some s').
    { destruct (pending s !! fut) as [[| | |]|]; try discriminate; done. }
    clear H. injection H' as <-. unfold_pools. cbn.
    destruct (active_futures s !! fut) as [u|] eqn:Ha; cbn.
    + assert (Hl : live s fut u) by (by apply Hlive).
      destruct error as [e|]; cbn.
      * shape_with s ltac:(eapply (shape_failed s _ fut u None true); side).
      * shape_with s ltac:(eapply (shape_finished s _ fut u true); side).
    + eapply step_shape_eq; [eapply (shape_orphan s _ fut None true)|].
      * done.
      * by eauto.
      * intros t Ht. apply Hlive in Ht. congruence.
      * intros ? [=].
      * by destruct s.
  - injection H as <-. by constructor.
Qed.

Strategy transparent [update_progress on_failure finish progress_of].

(** ** The end of a task *)

Lemma progress_of_zero p : progress_of p 0 = None.
Proof. reflexivity. Qed.

Lemma progress_of_is_Some p total :
  total <> 0 -> exists f, progress_of p total = Some f.
Proof.
  intros H. unfold progress_of, int_truediv.
  rewrite (proj2 (Z.eqb_neq total 0)) by done. cbn. eauto.
Qed.

(** What [_update_progress] does. *)
Lemma update_progress_effect t failed s :
  let o := fst (update_progress t failed s) in
  let s' := snd (update_progress t failed s) in
  same_pools s s'
  /\ transfer_failed s' = transfer_failed s
  /\ completed_task_queue s' = completed_task_queue s
  /\ processed_size s' = processed_size s + task_size t
  /\ (exists calls, status_calls s' = status_calls s ++ calls
                    /\ progress_calls (total_transfer_size s)
                         (processed_size s') calls)
  /\ match o with
     | Return _ => total_transfer_size s <> 0
     | Raise e =>
         status_calls s' = status_calls s
         /\ (total_transfer_size s = 0
             \/ failed = false
                /\ exists f,
                     progress_of (processed_size s') (total_transfer_size s)
                     = Some f
                     /\ int_of_float f = None)
     end.
Proof.
  cbv zeta. unfold update_progress. cbn [processed_size set_processed_size
    total_transfer_size last_reported_progress].
  destruct (progress_of (processed_size s + task_size t)
              (total_transfer_size s)) as [f|] eqn:Hf.
  - assert (Hnz : total_transfer_size s <> 0).
    { intros H0. rewrite H0, progress_of_zero in Hf. discriminate. }
    destruct failed.
    + cbn. split_and!; try done. exists [StatusCall MsgTaskSkipped (PyFloat f)].
      split; [done|]. right. eauto.
    + destruct (int_of_float f) as [p|] eqn:Hp.
      * destruct (last_reported_progress s <? p); cbn; split_and!; try done.
        -- exists [StatusCall (MsgProgress p) (PyFloat f)].
           split; [done|]. right. eauto.
        -- exists []. split; [by rewrite app_nil_r|by left].
      * cbn. split_and!; try done.
        -- exists []. split; [by rewrite app_nil_r|by left].
        -- right. eauto.
  - cbn. split_and!; try done.
    + exists []. split; [by rewrite app_nil_r|by left].
    + left. destruct (decide (total_transfer_size s = 0)) as [|Hnz]; [done|].
      destruct (progress_of_is_Some (processed_size s + task_size t)
                  (total_transfer_size s) Hnz) as [f' Hf'].
      congruence.
Qed.

Lemma same_pools_trans s1 s2 s3 :
  same_pools s1 s2 -> same_pools s2 s3 -> same_pools s1 s3.
Proof.
  unfold same_pools. intros (?&?&?&?&?&?&?&?) (?&?&?&?&?&?&?&?).
  split_and!; congruence.
Qed.

(** What the [except] branch of a callback does. *)
Lemma on_failure_effect t s :
  let s' := snd (on_failure t s) in
  same_pools s s'
  /\ transfer_failed s' = true
  /\ completed_task_queue s' = completed_task_queue s
  /\ processed_size s' = processed_size s + task_size t
  /\ exists calls, status_calls s' = status_calls s ++ calls
                   /\ progress_calls (total_transfer_size s)
                        (processed_size s') calls.
Proof.
  cbv zeta. unfold on_failure, mbind, M_bind, bind, modify.
  pose proof (update_progress_effect t true (set_transfer_failed true s))
    as (Hsame & Hf & Hq & Hp & Hcalls & _).
  destruct (update_progress t true (set_transfer_failed true s)) as [[u|e] s'];
    cbn [fst snd] in *; split_and!; auto.
Qed.

(** What the [try] block that ends a task does, with its handler: the
    task id is queued, and the bytes are credited once - or twice, when
    [_update_progress] raises after it has added them. *)
Lemma finish_effect t s :
  let s' := snd (finish t s) in
  same_pools s s'
  /\ completed_task_queue s' = completed_task_queue s ++ [task_id t]
  /\ (exists calls, status_calls s' = status_calls s ++ calls
        /\ progress_calls (total_transfer_size s) (processed_size s') calls)
  /\ (transfer_failed s' = transfer_failed s
      /\ processed_size s' = processed_size s + task_size t
      /\ total_transfer_size s <> 0
      \/ transfer_failed s' = true
         /\ processed_size s' = processed_size s + task_size t + task_size t
         /\ (total_transfer_size s = 0
             \/ exists f,
                  progress_of (processed_size s + task_size t)
                    (total_transfer_size s) = Some f
                  /\ int_of_float f = None)).
Proof.
  cbv zeta. unfold finish, try_except, mbind, M_bind, bind, mark_task_complete,
    modify.
  set (s1 := set_completed_task_queue _ s).
  pose proof (update_progress_effect t false s1)
    as (Hsame & Hf & Hq & Hp & (calls & Hcalls & Hpc) & Ho).
  cbv zeta in Ho.
  destruct (update_progress t false s1) as [[u|e] s2]; cbn [fst snd] in *.
  - split_and!; auto.
    exists calls. by split.
  - pose proof (on_failure_effect t s2)
      as (Hsame' & Hf' & Hq' & Hp' & (calls' & Hcalls' & Hpc')).
    cbv zeta in *. destruct Ho as [Hst Ho].
    assert (Htot : total_transfer_size s2 = total_transfer_size s).
    { destruct Hsame as (_ & _ & _ & _ & -> & _). done. }
    split_and!.
    + eapply same_pools_trans; [exact Hsame|exact Hsame'].
    + by rewrite Hq', Hq.
    + exists calls'. rewrite Hcalls', Hst. split; [done|].
      by rewrite Htot in Hpc'.
    + right. split_and!; [done|by rewrite Hp', Hp|].
      rewrite Hp in Ho. destruct Ho as [?|[_ ?]]; auto.
Qed.

(** ** The pools after a step *)

Lemma pools_after_fields fut extra pops s :
  let s' := pools_after fut extra pops s in
  pending s' = match extra with
               | Some j => <[next_future s := j]> (delete fut (pending s))
               | None => delete fut (pending s)
               end
  /\ active_futures s' = (if pops then delete fut (active_futures s)
                          else active_futures s)
  /\ next_future s' = match extra with
                      | Some _ => S (next_future s)
                      | None => next_future s
                      end
  /\ processed_size s' = processed_size s
  /\ completed_task_queue s' = completed_task_queue s
  /\ transfer_failed s' = transfer_failed s
  /\ stop_event s' = stop_event s
  /\ total_transfer_size s' = total_transfer_size s
  /\ status_calls s' = status_calls s
  /\ completed_task_ids s' = completed_task_ids s.
Proof. destruct extra, pops; done. Qed.

Lemma handed_over_fields fut j track t s :
  let s' := handed_over fut j track t s in
  pending s' = <[next_future s := j]> (delete fut (pending s))
  /\ active_futures s'
     = (if track then <[next_future s := t]> else id)
         (delete fut (active_futures s))
  /\ next_future s' = S (next_future s)
  /\ processed_size s' = processed_size s
  /\ completed_task_queue s' = completed_task_queue s
  /\ transfer_failed s' = transfer_failed s
  /\ stop_event s' = stop_event s
  /\ total_transfer_size s' = total_transfer_size s
  /\ status_calls s' = status_calls s
  /\ completed_task_ids s' = completed_task_ids s.
Proof. done. Qed.

Lemma live_same_pools s s' fut t :
  same_pools s s' -> live s' fut t <-> live s fut t.
Proof. intros (Hp & Ha & _). unfold live. by rewrite Hp, Ha. Qed.

Lemma fresh_same_pools s s' :
  same_pools s s' -> fresh_futures s -> fresh_futures s'.
Proof.
  intros (Hp & Ha & Hn & _). unfold fresh_futures. by rewrite Hp, Ha, Hn.
Qed.

Lemma live_pools_after fut extra pops s f' t' :
  without_callback extra ->
  live (pools_after fut extra pops s) f' t' -> f' <> fut /\ live s f' t'.
Proof.
  intros Hex. unfold live.
  destruct (pools_after_fields fut extra pops s) as (-> & -> & _).
  assert (Hgen : match delete fut (pending s) !! f' with
                 | Some (DeleteSourceFiles _ (Some (u, _))) => u = t'
                 | Some (DeleteSourceFiles _ None) => False
                 | Some _ => (if pops then delete fut (active_futures s)
                              else active_futures s) !! f' = Some t'
                 | None => False
                 end -> f' <> fut /\ live s f' t').
  { unfold live. destruct (decide (f' = fut)) as [->|Hne].
    - by rewrite lookup_delete_eq.
    - rewrite lookup_delete_ne by done. intros H. split; [done|].
      destruct (pending s !! f') as [[?|? [[]|]|?|?]|]; try done;
        destruct pops; by rewrite ?lookup_delete_ne in H. }
  destruct extra as [j|]; [|exact Hgen].
  destruct (Hex j eq_refl) as [paths ->].
  destruct (decide (f' = next_future s)) as [->|Hne].
  - by rewrite lookup_insert_eq.
  - rewrite lookup_insert_ne by done. exact Hgen.
Qed.

Lemma live_pools_after_other fut extra pops s f' t' :
  f' <> fut ->
  (forall j, extra = Some j -> f' <> next_future s) ->
  live s f' t' -> live (pools_after fut extra pops s) f' t'.
Proof.
  intros Hne Hn. unfold live.
  destruct (pools_after_fields fut extra pops s) as (-> & -> & _).
  assert (Hp : match extra with
               | Some j => <[next_future s := j]> (delete fut (pending s))
               | None => delete fut (pending s)
               end !! f' = pending s !! f').
  { destruct extra as [j|].
    - rewrite lookup_insert_ne by (apply not_eq_sym; eauto).
      by rewrite lookup_delete_ne.
    - by rewrite lookup_delete_ne. }
  rewrite Hp.
  assert (Ha : (if pops then delete fut (active_futures s)
                else active_futures s) !! f' = active_futures s !! f').
  { destruct pops; [by rewrite lookup_delete_ne|done]. }
  by rewrite Ha.
Qed.

Lemma live_handed_over fut j track t s f' t' :
  carries_on j track t ->
  live (handed_over fut j track t s) f' t' ->
  f' = next_future s /\ t' = t \/ f' <> fut /\ live s f' t'.
Proof.
  intros Hj. unfold live.
  destruct (handed_over_fields fut j track t s) as (-> & -> & _).
  destruct (decide (f' = next_future s)) as [->|Hne].
  - rewrite lookup_insert_eq. intros H. left. split; [done|].
    destruct j as [?|paths [[u cf]|]|?|?]; cbn in Hj; try done.
    + destruct Hj as [_ ->]. done.
    + subst track. rewrite lookup_insert_eq in H. congruence.
    + subst track. rewrite lookup_insert_eq in H. congruence.
  - rewrite lookup_insert_ne by done.
    destruct (decide (f' = fut)) as [->|Hne'].
    + by rewrite lookup_delete_eq.
    + rewrite lookup_delete_ne by done. intros H. right. split; [done|].
      assert (Ha : (if track then <[next_future s := t]> else id)
                     (delete fut (active_futures s)) !! f'
                   = active_futures s !! f').
      { destruct track; cbn; rewrite ?lookup_insert_ne by done;
          by rewrite lookup_delete_ne. }
      by rewrite Ha in H.
Qed.

Lemma live_handed_over_new fut j track t s :
  carries_on j track t ->
  live (handed_over fut j track t s) (next_future s) t.
Proof.
  intros Hj. unfold live.
  destruct (handed_over_fields fut j track t s) as (-> & -> & _).
  rewrite lookup_insert_eq.
  destruct j as [?|paths [[u cf]|]|?|?]; cbn in Hj; try done.
  - by destruct Hj.
  - subst track. by rewrite lookup_insert_eq.
  - subst track. by rewrite lookup_insert_eq.
Qed.

Lemma fresh_pools_after fut extra pops s :
  fresh_futures s -> fresh_futures (pools_after fut extra pops s).
Proof.
  intros [Hp Ha]. unfold fresh_futures.
  destruct (pools_after_fields fut extra pops s) as (-> & -> & -> & _).
  split.
  - intros k j Hk.
    assert (Hcase : k = next_future s \/ (k < next_future s)%nat).
    { destruct extra as [j'|].
      - apply lookup_insert_Some in Hk as [[<- _]|[_ Hk]]; [by left|].
        apply lookup_delete_Some in Hk as [_ Hk]. right. eauto.
      - apply lookup_delete_Some in Hk as [_ Hk]. right. eauto. }
    destruct extra; destruct Hcase as [->|?]; try lia.
    apply lookup_delete_Some in Hk as [_ Hk]. eauto.
  - intros k t Hk.
    assert (Hlt : (k < next_future s)%nat).
    { destruct pops; [apply lookup_delete_Some in Hk as [_ Hk]|]; eauto. }
    destruct extra; lia.
Qed.

Lemma fresh_handed_over fut j track t s :
  fresh_futures s -> fresh_futures (handed_over fut j track t s).
Proof.
  intros [Hp Ha]. unfold fresh_futures.
  destruct (handed_over_fields fut j track t s) as (-> & -> & -> & _).
  split.
  - intros k j' Hk.
    apply lookup_insert_Some in Hk as [[<- _]|[_ Hk]]; [lia|].
    apply lookup_delete_Some in Hk as [_ Hk]. apply Hp in Hk. lia.
  - intros k t' Hk. destruct track; cbn in Hk.
    + apply lookup_insert_Some in Hk as [[<- _]|[_ Hk]]; [lia|].
      apply lookup_delete_Some in Hk as [_ Hk]. apply Ha in Hk. lia.
    + apply lookup_delete_Some in Hk as [_ Hk]. apply Ha in Hk. lia.
Qed.

(** Futures stay numbered in the order of their creation. *)
Lemma handle_fresh cfg ev s s' :
  fresh_futures s -> handle cfg ev s = Some s' -> fresh_futures s'.
Proof.
  intros Hf H. apply handle_shape in H.
  destruct H as [?|fut extra pops ? ? ? ?|fut t j track ? ? ? ?
                 |fut t pops ? ? ?|fut t extra pops ? ? ? ?].
  - done.
  - by apply fresh_pools_after.
  - by apply fresh_handed_over.
  - eapply fresh_same_pools; [apply finish_effect|by apply fresh_pools_after].
  - eapply fresh_same_pools; [apply on_failure_effect|
                               by apply fresh_pools_after].
Qed.

(** A task id is queued only by the callback of a live future. *)
Lemma handle_queue cfg ev s s' tid :
  handle cfg ev s = Some s' ->
  tid ∈ completed_task_queue s' ->
  tid ∈ completed_task_queue s \/ can_complete s tid.
Proof.
  intros H Hin. apply handle_shape in H.
  destruct H as [?|fut extra pops ? ? ? ?|fut t j track ? ? ? ?
                 |fut t pops ? Hl ?|fut t extra pops ? ? ? ?].
  - by left.
  - destruct (pools_after_fields fut extra pops s)
      as (_ & _ & _ & _ & Hq & _). cbv zeta in Hq. rewrite Hq in Hin.
    by left.
  - by left.
  - destruct (finish_effect t (pools_after fut None pops s)) as (_ & Hq & _).
    cbv zeta in Hq. rewrite Hq in Hin.
    destruct (pools_after_fields fut None pops s)
      as (_ & _ & _ & _ & Hq' & _). rewrite Hq' in Hin.
    apply elem_of_app in Hin as [Hin|Hin]; [by left|].
    apply list_elem_of_singleton in Hin. right. exists fut, t. by split.
  - destruct (on_failure_effect t (pools_after fut extra pops s))
      as (_ & _ & Hq & _).
    cbv zeta in Hq. rewrite Hq in Hin.
    destruct (pools_after_fields fut extra pops s)
      as (_ & _ & _ & _ & Hq' & _). rewrite Hq' in Hin. by left.
Qed.

(** No step makes a future live for a task that had none. *)
Lemma handle_can_complete cfg ev s s' tid :
  handle cfg ev s = Some s' -> can_complete s' tid -> can_complete s tid.
Proof.
  intros H (f' & t' & Hl' & Hid). apply handle_shape in H.
  destruct H as [?|fut extra pops ? ? ? Hex|fut t j track ? Hl ? Hj
                 |fut t pops ? Hl ?|fut t extra pops ? Hl ? Hex].
  - by exists f', t'.
  - apply (live_pools_after _ _ _ _ _ _ Hex) in Hl' as [_ Hl'].
    by exists f', t'.
  - apply (live_handed_over _ _ _ _ _ _ _ Hj) in Hl' as [[_ ->]|[_ Hl']].
    + by exists fut, t.
    + by exists f', t'.
  - apply (proj1 (live_same_pools _ _ f' t'
             (proj1 (finish_effect t (pools_after fut None pops s))))) in Hl'.
    apply live_pools_after in Hl'; [|by intros ? [=]].
    destruct Hl' as [_ Hl']. by exists f', t'.
  - apply (proj1 (live_same_pools _ _ f' t'
             (proj1 (on_failure_effect t (pools_after fut extra pops s)))))
      in Hl'.
    apply (live_pools_after _ _ _ _ _ _ Hex) in Hl' as [_ Hl'].
    by exists f', t'.
Qed.

Lemma run_events_queue cfg evs : forall s s' tid,
  run_events cfg evs s = Some s' ->
  tid ∈ completed_task_queue s' ->
  tid ∈ completed_task_queue s \/ can_complete s tid.
Proof.
  induction evs as [|ev evs IH]; intros s s' tid H Hin; cbn in H.
  - injection H as <-. by left.
  - destruct (handle cfg ev s) as [s1|] eqn:H1; [|discriminate]. cbn in H.
    destruct (IH s1 s' tid H Hin) as [Hq|Hc].
    + eapply handle_queue; eauto.
    + right. eapply handle_can_complete; eauto.
Qed.

(** ** A failing task *)

Strategy opaque [update_progress on_failure finish progress_of].


Lemma fails_live s ev fut t : fails s ev fut t -> live s fut t.
Proof.
  unfold fails, live. destruct ev; try done.
  - by intros (_ & -> & ? & _).
  - by intros (_ & (? & ? & ->) & _).
  - by intros (_ & (? & [-> | ->]) & ? & _).
Qed.

Lemma fails_future s ev fut t : fails s ev fut t -> future_of ev = Some fut.
Proof. unfold fails. destruct ev; try done; by intros [-> _]. Qed.


Strategy transparent [update_progress on_failure finish progress_of].

(** No callback touches the ids read from the session file. *)
Lemma handle_completed_ids cfg ev s s' :
  handle cfg ev s = Some s' -> completed_task_ids s' = completed_task_ids s.
Proof.
  intros H. apply handle_shape in H.
  destruct H as [?|fut extra pops ? ? ? ?|fut t j track ? ? ? ?
                 |fut t pops ? ? ?|fut t extra pops ? ? ? ?].
  - done.
  - apply pools_after_fields.
  - done.
  - destruct (finish_effect t (pools_after fut None pops s)) as [Hs _].
    destruct Hs as (_ & _ & _ & _ & _ & _ & _ & ->).
    apply pools_after_fields.
  - destruct (on_failure_effect t (pools_after fut extra pops s)) as [Hs _].
    destruct Hs as (_ & _ & _ & _ & _ & _ & _ & ->).
    apply pools_after_fields.
Qed.




(** ** Submission *)

Lemma fresh_submit_main s t :
  fresh_futures s -> fresh_futures (submit_main s t).
Proof.
  intros [Hp Ha]. split; cbn; intros k x Hk;
    apply lookup_insert_Some in Hk as [[<- _]|[_ Hk]]; try lia.
  - apply Hp in Hk. lia.
  - apply Ha in Hk. lia.
Qed.

Lemma fresh_fold_submit_main l : forall s,
  fresh_futures s -> fresh_futures (fold_left submit_main l s).
Proof.
  induction l as [|t l IH]; intros s Hs; cbn; [done|].
  by apply IH, fresh_submit_main.
Qed.

Lemma fresh_execute_plan_submit s :
  pending s = ∅ -> fresh_futures (execute_plan_submit s).
Proof.
  intros Hp. unfold execute_plan_submit.
  do 2 apply fresh_fold_submit_main.
  split; cbn; intros k x; [rewrite Hp|]; by rewrite lookup_empty.
Qed.


(** *** Two main futures *)





(** ** Accounts *)

Lemma sum_over_empty {A} (f : A -> Z) : sum_over f ∅ = 0.
Proof. unfold sum_over. by rewrite map_fold_empty. Qed.

Lemma sum_over_insert {A} (f : A -> Z) (m : gmap nat A) k a :
  m !! k = None -> sum_over f (<[k := a]> m) = f a + sum_over f m.
Proof.
  intros Hk. unfold sum_over.
  rewrite map_fold_insert_L; [done| |done]. intros. lia.
Qed.

Lemma sum_over_delete {A} (f : A -> Z) (m : gmap nat A) k a :
  m !! k = Some a -> sum_over f m = f a + sum_over f (delete k m).
Proof.
  intros Hk. unfold sum_over.
  rewrite (map_fold_delete_L _ _ k a m); [done| |done]. intros. lia.
Qed.

Lemma sum_over_nonneg {A} (f : A -> Z) (m : gmap nat A) :
  (forall k a, m !! k = Some a -> 0 <= f a) -> 0 <= sum_over f m.
Proof.
  induction m as [|k a m Hk IH] using map_ind; intros Hm.
  - by rewrite sum_over_empty.
  - rewrite sum_over_insert by done.
    assert (0 <= f a) by (apply (Hm k); by rewrite lookup_insert_eq).
    assert (0 <= sum_over f m); [|lia].
    apply IH. intros k' a' Hk'. apply (Hm k').
    rewrite lookup_insert_ne; [done|]. intros ->. congruence.
Qed.

Lemma sum_over_delete_le {A} (f : A -> Z) (m : gmap nat A) k :
  (forall k a, m !! k = Some a -> 0 <= f a) ->
  sum_over f (delete k m) <= sum_over f m.
Proof.
  intros Hm. destruct (m !! k) as [a|] eqn:Hk.
  - rewrite (sum_over_delete f m k a Hk). specialize (Hm _ _ Hk). lia.
  - by rewrite delete_id.
Qed.

Lemma nonneg_delete {A} (f : A -> Z) (m : gmap nat A) k :
  (forall k a, m !! k = Some a -> 0 <= f a) ->
  forall k' a, delete k m !! k' = Some a -> 0 <= f a.
Proof.
  intros Hm k' a Hk'. apply lookup_delete_Some in Hk' as [_ Hk']. eauto.
Qed.

Lemma nonneg_insert {A} (f : A -> Z) (m : gmap nat A) k b :
  0 <= f b ->
  (forall k a, m !! k = Some a -> 0 <= f a) ->
  forall k' a, <[k := b]> m !! k' = Some a -> 0 <= f a.
Proof.
  intros Hb Hm k' a Hk'.
  apply lookup_insert_Some in Hk' as [[_ <-]|[_ Hk']]; eauto.
Qed.

Lemma owed_nonneg s : nonneg_sizes s -> 0 <= owed s.
Proof.
  intros [Ha Hp]. unfold owed.
  pose proof (sum_over_nonneg task_size _ Ha).
  pose proof (sum_over_nonneg callback_size _ Hp). lia.
Qed.

Lemma owed_same_pools s s' : same_pools s s' -> owed s' = owed s.
Proof. intros (Hp & Ha & _). unfold owed. by rewrite Hp, Ha. Qed.

Lemma nonneg_same_pools s s' :
  same_pools s s' -> nonneg_sizes s -> nonneg_sizes s'.
Proof. intros (Hp & Ha & _). unfold nonneg_sizes. by rewrite Hp, Ha. Qed.

Lemma owner_size s fut pops t :
  nonneg_sizes s -> owner s fut pops t -> 0 <= task_size t.
Proof.
  intros [Ha Hp]. unfold owner. destruct pops.
  - apply Ha.
  - intros (paths & cf & Hj). apply (Hp _ _ Hj).
Qed.

(** A future that is done takes what it owed out of the pools. *)
Lemma pools_after_owed fut extra pops s :
  fresh_futures s -> nonneg_sizes s -> without_callback extra ->
  let s' := pools_after fut extra pops s in
  nonneg_sizes s' /\ owed s' <= owed s
  /\ forall t, owner s fut pops t -> owed s' + task_size t <= owed s.
Proof.
  intros [Hfp Hfa] [Ha Hp] Hex. cbv zeta.
  unfold nonneg_sizes, owed.
  destruct (pools_after_fields fut extra pops s) as (-> & -> & _).
  assert (Hn : delete fut (pending s) !! next_future s = None).
  { apply lookup_delete_None. right.
    destruct (pending s !! next_future s) eqn:E; [|done].
    apply Hfp in E. lia. }
  assert (Hpd := nonneg_delete callback_size (pending s) fut Hp).
  assert (Had := nonneg_delete task_size (active_futures s) fut Ha).
  assert (Hps : sum_over callback_size
                  match extra with
                  | Some j => <[next_future s := j]> (delete fut (pending s))
                  | None => delete fut (pending s)
                  end
                = sum_over callback_size (delete fut (pending s))).
  { destruct extra as [j|]; [|done]. destruct (Hex j eq_refl) as [paths ->].
    by rewrite sum_over_insert. }
  rewrite Hps.
  pose proof (sum_over_delete_le callback_size (pending s) fut Hp) as Hle1.
  pose proof (sum_over_delete_le task_size (active_futures s) fut Ha) as Hle2.
  split_and!.
  - by destruct pops.
  - destruct extra as [j|]; [|done]. destruct (Hex j eq_refl) as [paths ->].
    by apply nonneg_insert.
  - destruct pops; lia.
  - intros t Ht. unfold owner in Ht. destruct pops.
    + rewrite (sum_over_delete task_size (active_futures s) fut t Ht). lia.
    + destruct Ht as (paths & cf & Hj).
      rewrite (sum_over_delete callback_size (pending s) fut _ Hj). cbn. lia.
Qed.

(** A main future that hands its task over leaves what it owed to the
    new future. *)
Lemma handed_over_owed fut j track t s :
  fresh_futures s -> nonneg_sizes s -> carries_on j track t ->
  active_futures s !! fut = Some t ->
  let s' := handed_over fut j track t s in
  nonneg_sizes s' /\ owed s' <= owed s.
Proof.
  intros [Hfp Hfa] [Ha Hp] Hj Ht. cbv zeta.
  unfold nonneg_sizes, owed.
  destruct (handed_over_fields fut j track t s) as (-> & -> & _).
  assert (Hn : delete fut (pending s) !! next_future s = None).
  { apply lookup_delete_None. right.
    destruct (pending s !! next_future s) eqn:E; [|done].
    apply Hfp in E. lia. }
  assert (Hn' : delete fut (active_futures s) !! next_future s = None).
  { apply lookup_delete_None. right.
    destruct (active_futures s !! next_future s) eqn:E; [|done].
    apply Hfa in E. lia. }
  assert (Hpd := nonneg_delete callback_size (pending s) fut Hp).
  assert (Had := nonneg_delete task_size (active_futures s) fut Ha).
  pose proof (Ha _ _ Ht) as Hsz.
  pose proof (sum_over_delete_le callback_size (pending s) fut Hp) as Hle1.
  rewrite (sum_over_delete task_size (active_futures s) fut t Ht).
  rewrite sum_over_insert by done.
  destruct j as [?|paths [[u cf]|]|?|?]; cbn in Hj; try done.
  - destruct Hj as [-> ->]. cbn. split_and!; [done| |lia].
    by apply nonneg_insert.
  - subst track. rewrite sum_over_insert by done. cbn. split_and!; [| |lia].
    + by apply nonneg_insert.
    + by apply nonneg_insert.
  - subst track. rewrite sum_over_insert by done. cbn. split_and!; [| |lia].
    + by apply nonneg_insert.
    + by apply nonneg_insert.
Qed.

Lemma fold_submit_main_accounts l : forall s,
  fresh_futures s -> nonneg_sizes s ->
  Forall (fun t => 0 <= task_size t) l ->
  let s' := fold_left submit_main l s in
  fresh_futures s' /\ nonneg_sizes s'
  /\ owed s' = sum_task_sizes l + owed s
  /\ processed_size s' = processed_size s
  /\ total_transfer_size s' = total_transfer_size s
  /\ status_calls s' = status_calls s
  /\ task_plan s' = task_plan s.
Proof.
  induction l as [|t l IH]; intros s Hf Hn Hl; cbn [fold_left sum_task_sizes
    foldr]; [by split_and!|].
  apply Forall_cons in Hl as [Ht Hl].
  assert (Hf' := fresh_submit_main s t Hf).
  assert (Hn' : nonneg_sizes (submit_main s t)).
  { destruct Hn as [Ha Hp]. split; cbn.
    - by apply nonneg_insert.
    - by apply nonneg_insert. }
  assert (Ho : owed (submit_main s t) = task_size t + owed s).
  { destruct Hf as [Hp Ha]. unfold owed. cbn.
    rewrite !sum_over_insert; [cbn; lia| |].
    - destruct (pending s !! next_future s) eqn:E; [|done].
      apply Hp in E. lia.
    - destruct (active_futures s !! next_future s) eqn:E; [|done].
      apply Ha in E. lia. }
  destruct (IH (submit_main s t) Hf' Hn' Hl) as (? & ? & Ho' & ? & ? & ? & ?).
  cbv zeta. split_and!; try done. rewrite Ho', Ho.
  unfold sum_task_sizes. lia.
Qed.

Lemma sum_task_sizes_app l1 l2 :
  sum_task_sizes (l1 ++ l2) = sum_task_sizes l1 + sum_task_sizes l2.
Proof.
  unfold sum_task_sizes.
  induction l1 as [|t l1 IH]; cbn [app foldr]; [done|]. rewrite IH. lia.
Qed.

(** Once the plan is submitted, the pools owe the bytes of its tasks. *)
Lemma execute_plan_submit_accounted s :
  pending s = ∅ ->
  0 <= processed_size s ->
  Forall (fun t => 0 <= task_size t) (recovery_tasks s ++ task_plan s) ->
  processed_size s + sum_task_sizes (recovery_tasks s ++ task_plan s)
    <= total_transfer_size s ->
  let s' := execute_plan_submit s in
  accounted (total_transfer_size s) s'
  /\ processed_size s' = processed_size s
  /\ status_calls s' = status_calls s.
Proof.
  intros Hp H0 Hl Hsum. cbv zeta. unfold execute_plan_submit.
  apply Forall_app in Hl as [Hl1 Hl2].
  set (s0 := set_active_futures ∅ s).
  assert (Hf0 : fresh_futures s0).
  { split; cbn; intros k x; [rewrite Hp|]; by rewrite lookup_empty. }
  assert (Hn0 : nonneg_sizes s0).
  { split; cbn; intros k x; [|rewrite Hp]; by rewrite lookup_empty. }
  assert (Ho0 : owed s0 = 0).
  { unfold owed. cbn. rewrite Hp. by rewrite !sum_over_empty. }
  destruct (fold_submit_main_accounts (recovery_tasks s0) s0 Hf0 Hn0 Hl1)
    as (Hf1 & Hn1 & Ho1 & Hp1 & Ht1 & Hc1 & Hpl1).
  set (s1 := fold_left submit_main (recovery_tasks s0) s0) in *.
  cbv zeta in *. rewrite Hpl1.
  destruct (fold_submit_main_accounts (task_plan s0) s1 Hf1 Hn1 Hl2)
    as (Hf2 & Hn2 & Ho2 & Hp2 & Ht2 & Hc2 & _).
  cbv zeta in *. rewrite sum_task_sizes_app in Hsum.
  unfold accounted. rewrite Ht2, Ht1, Hp2, Hp1, Hc2, Hc1, Ho2, Ho1, Ho0.
  cbn [s0 processed_size total_transfer_size status_calls set_active_futures
       task_plan recovery_tasks] in *.
  split_and!; try done. lia.
Qed.

(** ** Progress values *)

Lemma progress_of_none_done total :
  0 < total -> progress_of 0 total = Some (S754_zero false).
Proof.
  intros H. unfold progress_of, int_truediv.
  rewrite (proj2 (Z.eqb_neq total 0)) by lia. by destruct total.
Qed.

Lemma progress_of_all_done total :
  0 < total -> progress_of total total = Some (float_of_int 100).
Proof.
  intros H. unfold progress_of, int_truediv.
  rewrite (proj2 (Z.eqb_neq total 0)) by lia.
  destruct total as [|t|]; try lia.
  cbn [int_exact mbind option_bind]. f_equal.
  unfold SFdiv. cbn [xorb]. unfold SFdiv_core_binary.
  replace (Zdigits2 (Z.pos t) + 0 - (Zdigits2 (Z.pos t) + 0)) with 0 by lia.
  change (0 - 0 - fexp prec emax 0 `min` (0 - 0)) with 53.
  change (fexp prec emax 0 `min` (0 - 0)) with (-53).
  cbv iota. rewrite Z.shiftl_mul_pow2 by lia.
  pose proof (Z.div_mul (2 ^ 53) (Z.pos t) ltac:(lia)) as Hq.
  pose proof (Z.mod_mul (2 ^ 53) (Z.pos t) ltac:(lia)) as Hr.
  rewrite (Z.mul_comm (2 ^ 53)) in Hq, Hr.
  unfold Z.div, Z.modulo in Hq, Hr.
  destruct (Z.div_eucl (Z.pos t * 2 ^ 53) (Z.pos t)) as [q r].
  cbn [fst snd] in Hq, Hr. subst q r.
  unfold new_location. by destruct (Z.even (Z.pos t)).
Qed.

(** What [(p / total) * 100] evaluates to does not decrease when [p]
    grows from 0 to [total]. *)
Lemma progress_of_mono total p p' f f' :
  0 <= p <= p' -> p' <= total ->
  progress_of p total = Some f -> progress_of p' total = Some f' ->
  SFleb f f' = true.
Proof.
  intros Hp Hp'. unfold progress_of, int_truediv.
  destruct (Z.eqb_spec total 0) as [|Ht]; [done|].
  cbn [mbind option_bind]. intros [= <-] [= <-]. unfold float_mul_int.
  replace (float_of_int 100)
    with (S754_finite false 7036874417766400 (-46))
    by (vm_compute; reflexivity).
  destruct total as [|t|t]; [lia| |lia].
  assert (Hmc : 2 ^ 52 <= 7036874417766400 < 2 ^ 53) by (cbn; lia).
  destruct p' as [|q'|q']; [| |lia].
  { assert (p = 0) as -> by lia. done. }
  destruct p as [|q|q]; [| |lia].
  - destruct (SFdiv_int_ord q' q' t ltac:(lia) ltac:(lia))
      as (m & _ & -> & _ & (Hm & _) & Hmax).
    cbn [int_exact SFdiv SFmul xorb].
    destruct (rounded_cases (quotient_E (Z.pos q') (Z.pos t)) m Hm)
      as [[-> ->]|(r & x & -> & Hv & Hx & Hr)]; [done|].
    destruct (SFmul_rounded_shape r x 7036874417766400 (-46) Hmc Hr
                ltac:(change (emax - prec) with 971; lia))
      as (Hmul & Hsh & Hb).
    cbv zeta in *. rewrite Hmul.
    destruct (binary_round_aux_shape (Z.pos (r * 7036874417766400) / 1)
                (x + -46) loc_Exact ltac:(rewrite Z.div_1_r; lia) Hsh Hb)
      as (-> & _).
    apply zero_le_rounded.
  - destruct (SFdiv_int_ord q q' t ltac:(lia) ltac:(lia))
      as (m & m' & -> & -> & Hord & Hmax).
    apply SFmul_rounded_ord; [done|done|].
    change (emax - prec) with 971. lia.
Qed.

Lemma rounding_is_monotone total : rounding_monotone total.
Proof.
  intros p p' f f' Hp Hp' Hf Hf'. unfold py_le. cbn [py_compare].
  pose proof (progress_of_mono total p p' f f' Hp Hp' Hf Hf') as H.
  unfold SFleb in H. by destruct (SFcompare f f') as [[]|].
Qed.

(** Between 0 and [total] bytes the progress is a float between 0 and
    100, which [int] truncates. *)
Lemma progress_in_range total p f :
  rounding_monotone total -> 0 < total -> 0 <= p <= total ->
  progress_of p total = Some f ->
  is_Some (int_of_float f)
  /\ py_le (PyFloat f) (PyFloat (float_of_int 100)) = true.
Proof.
  intros Hm Ht Hp Hf.
  pose proof (Hm 0 p _ _ ltac:(lia) ltac:(lia)
                (progress_of_none_done total Ht) Hf) as Hlo.
  pose proof (Hm p total _ _ ltac:(lia) ltac:(lia)
                Hf (progress_of_all_done total Ht)) as Hhi.
  split; [|done].
  destruct f as [b|[]| |b m e]; cbn; eauto; try done.
Qed.

(** ** The progress aggregator along a run *)

Lemma accounted_total_nonneg total s : accounted total s -> 0 <= total.
Proof.
  intros (_ & _ & Hn & Hp & Hle). pose proof (owed_nonneg s Hn). lia.
Qed.

(** A task that ends is credited once, out of what the pools owed. *)
Lemma credit_accounted total s s1 s' t :
  rounding_monotone total ->
  accounted total s ->
  nonneg_sizes s1 -> fresh_futures s1 ->
  owed s1 + task_size t <= owed s -> 0 <= task_size t ->
  processed_size s1 = processed_size s ->
  total_transfer_size s1 = total_transfer_size s ->
  same_pools s1 s' ->
  (processed_size s' = processed_size s1 + task_size t
   \/ processed_size s' = processed_size s1 + task_size t + task_size t
      /\ (total_transfer_size s1 = 0
          \/ exists f,
               progress_of (processed_size s1 + task_size t)
                 (total_transfer_size s1) = Some f
               /\ int_of_float f = None)) ->
  accounted total s' /\ processed_size s <= processed_size s'.
Proof.
  intros Hm (Ht & Hf & Hn & Hp & Hle) Hn1 Hf1 Ho Hsz Hp1 Ht1 Hsame Hcase.
  pose proof (owed_nonneg s1 Hn1) as Ho1.
  assert (Hp' : processed_size s' = processed_size s + task_size t).
  { destruct Hcase as [->|[-> [H0|(f & Hpf & Hnone)]]]; [lia| |].
    - assert (task_size t = 0) by lia. lia.
    - exfalso. rewrite Ht1, Ht, Hp1 in Hpf.
      assert (Hpos : 0 < total).
      { destruct (decide (total = 0)) as [->|]; [|lia].
        by rewrite progress_of_zero in Hpf. }
      destruct (progress_in_range total (processed_size s + task_size t) f
                  Hm Hpos ltac:(lia) Hpf) as [[z Hz] _]. congruence. }
  unfold accounted. rewrite (owed_same_pools _ _ Hsame), Hp'.
  assert (Hst : total_transfer_size s' = total).
  { destruct Hsame as (_ & _ & _ & _ & -> & _). by rewrite Ht1. }
  split_and!; try lia.
  - by apply (fresh_same_pools s1).
  - by apply (nonneg_same_pools s1).
Qed.

(** The accounts are kept by every event, the counter never goes
    back, and the status calls of the step report its new value. *)
Lemma handle_accounted cfg ev s s' total :
  rounding_monotone total -> accounted total s ->
  handle cfg ev s = Some s' ->
  accounted total s'
  /\ processed_size s <= processed_size s'
  /\ exists calls, status_calls s' = status_calls s ++ calls
                   /\ progress_calls total (processed_size s') calls.
Proof.
  intros Hm Hacc H. pose proof Hacc as (Ht & Hf & Hn & Hp & Hle).
  apply handle_shape in H.
  destruct H as [?|fut extra pops _ _ _ Hex|fut t j track _ _ Ha Hj
                 |fut t pops _ _ Hown|fut t extra pops _ _ Hown Hex].
  - split_and!; [done|done|]. exists []. split; [by rewrite app_nil_r|by left].
  - destruct (pools_after_owed fut extra pops s Hf Hn Hex) as (Hn1 & Ho1 & _).
    destruct (pools_after_fields fut extra pops s)
      as (_ & _ & _ & Hp1 & _ & _ & _ & Ht1 & Hc1 & _).
    cbv zeta in *. split_and!.
    + unfold accounted. rewrite Hp1, Ht1.
      split_and!; try done; [by apply fresh_pools_after|lia].
    + by rewrite Hp1.
    + exists []. split; [by rewrite app_nil_r|by left].
  - destruct (handed_over_owed fut j track t s Hf Hn Hj Ha) as (Hn1 & Ho1).
    cbv zeta in *. split_and!.
    + unfold accounted. cbn [processed_size total_transfer_size handed_over
        set_active_futures set_next_future set_pending].
      split_and!; try done; [by apply fresh_handed_over|].
      change (processed_size s + owed (handed_over fut j track t s) <= total).
      lia.
    + done.
    + exists []. split; [by rewrite app_nil_r|by left].
  - destruct (pools_after_owed fut None pops s Hf Hn) as (Hn1 & _ & Ho1);
      [by intros ? [=]|].
    destruct (pools_after_fields fut None pops s)
      as (_ & _ & _ & Hp1 & _ & _ & _ & Ht1 & Hc1 & _).
    set (s1 := pools_after fut None pops s) in *.
    destruct (finish_effect t s1) as (Hsame & _ & (calls & Hcalls & Hpc) & Hc).
    cbv zeta in *.
    destruct (credit_accounted total s s1 (finish t s1).2 t) as [Hacc' Hge];
      try done.
    + by apply fresh_pools_after.
    + by apply Ho1.
    + by apply (owner_size s fut pops).
    + destruct Hc as [(_ & ? & _)|(_ & ? & ?)]; auto.
    + split_and!; [done|done|]. exists calls. rewrite Hcalls, Hc1.
      split; [done|]. by rewrite Ht1, Ht in Hpc.
  - destruct (pools_after_owed fut extra pops s Hf Hn Hex) as (Hn1 & _ & Ho1).
    destruct (pools_after_fields fut extra pops s)
      as (_ & _ & _ & Hp1 & _ & _ & _ & Ht1 & Hc1 & _).
    set (s1 := pools_after fut extra pops s) in *.
    destruct (on_failure_effect t s1)
      as (Hsame & _ & _ & Hp' & (calls & Hcalls & Hpc)).
    cbv zeta in *.
    destruct (credit_accounted total s s1 (on_failure t s1).2 t)
      as [Hacc' Hge]; try done.
    + by apply fresh_pools_after.
    + by apply Ho1.
    + by apply (owner_size s fut pops).
    + by left.
    + split_and!; [done|done|]. exists calls. rewrite Hcalls, Hc1.
      split; [done|]. by rewrite Ht1, Ht in Hpc.
Qed.

Lemma non_decreasing_snoc calls c :
  non_decreasing calls ->
  Forall (fun x => py_le (call_progress x) (call_progress c) = true) calls ->
  non_decreasing (calls ++ [c]).
Proof.
  intros Hnd Hall i j x y Hij Hi Hj.
  assert (Hjlt : (j < length (calls ++ [c]))%nat)
    by (apply lookup_lt_is_Some; eauto).
  rewrite length_app in Hjlt. cbn in Hjlt.
  rewrite lookup_app_l in Hi by lia.
  destruct (decide (j < length calls)%nat) as [Hlt|Hge].
  - rewrite lookup_app_l in Hj by done. eauto.
  - rewrite lookup_app_r in Hj by lia.
    replace (j - length calls)%nat with 0%nat in Hj by lia.
    injection Hj as <-.
    rewrite Forall_forall in Hall. apply Hall.
    by apply list_elem_of_lookup_2 in Hi.
Qed.

(** New status calls at a greater value of the counter extend a
    non-decreasing report. *)
Lemma reported_extend total p p' calls new :
  rounding_monotone total ->
  0 <= p -> p <= p' -> p' <= total ->
  reported total p calls -> progress_calls total p' new ->
  reported total p' (calls ++ new).
Proof.
  intros Hm H0 Hpp Hpt [Hnd Hall] Hnew.
  assert (Hall' : Forall (fun c => exists q f,
                    0 <= q <= p' /\ progress_of q total = Some f
                    /\ call_progress c = PyFloat f) calls).
  { eapply Forall_impl; [exact Hall|]. cbn.
    intros c (q & f & Hq & Hf & Hc). exists q, f. split_and!; [lia..|done|done]. }
  destruct Hnew as [->|(m & f & Hf & ->)].
  - rewrite app_nil_r. by split.
  - split.
    + apply non_decreasing_snoc; [done|].
      eapply Forall_impl; [exact Hall|]. cbn.
      intros c (q & g & Hq & Hg & ->).
      by apply (Hm q p' g f); [lia|lia|done|done].
    + apply Forall_app. split; [done|].
      apply Forall_singleton. exists p', f. split_and!; [lia..|done|done].
Qed.

Lemma run_events_reported cfg evs total base : forall s s' calls,
  rounding_monotone total -> accounted total s ->
  status_calls s = base ++ calls ->
  reported total (processed_size s) calls ->
  run_events cfg evs s = Some s' ->
  accounted total s' /\ processed_size s <= processed_size s'
  /\ exists calls', status_calls s' = base ++ calls'
                    /\ reported total (processed_size s') calls'.
Proof.
  induction evs as [|ev evs IH]; intros s s' calls Hm Hacc Hst Hrep H;
    cbn in H.
  - injection H as <-. split_and!; [done|lia|eauto].
  - destruct (handle cfg ev s) as [s1|] eqn:H1; [|discriminate]. cbn in H.
    destruct (handle_accounted _ _ _ _ _ Hm Hacc H1)
      as (Hacc1 & Hge1 & new & Hst1 & Hnew).
    pose proof Hacc as (_ & _ & _ & Hp & _).
    pose proof Hacc1 as (_ & _ & Hn1 & _ & Hle1).
    pose proof (owed_nonneg s1 Hn1).
    destruct (IH s1 s' (calls ++ new) Hm Hacc1) as (Hacc' & Hge' & Hex);
      [by rewrite Hst1, Hst, app_assoc| |done|].
    + apply (reported_extend total (processed_size s)); try done; lia.
    + split_and!; [done|lia|done].
Qed.

(** In a run whose plan carries, with what the session has already
    credited, no more than [total_transfer_size] bytes, the counter
    [processed_size] only grows and stays within the total, and the
    progress values that [_update_progress] passes to the status
    callback never decrease and never exceed 100. *)
Lemma run_events_progress (cfg : config) (s0 s : state) (evs : list event) :
  pending s0 = ∅ ->
  0 <= processed_size s0 ->
  Forall (fun t => 0 <= task_size t) (recovery_tasks s0 ++ task_plan s0) ->
  processed_size s0 + sum_task_sizes (recovery_tasks s0 ++ task_plan s0)
    <= total_transfer_size s0 ->
  run_events cfg evs (execute_plan_submit s0) = Some s ->
  processed_size s0 <= processed_size s <= total_transfer_size s0
  /\ exists calls,
       status_calls s = status_calls s0 ++ calls
       /\ non_decreasing calls
       /\ Forall (fun c => py_le (call_progress c)
                             (PyFloat (float_of_int 100)) = true) calls.
Proof.
  intros Hp H0 Hl Hsum Hrun.
  pose proof (rounding_is_monotone (total_transfer_size s0)) as Hm.
  destruct (execute_plan_submit_accounted s0 Hp H0 Hl Hsum)
    as (Hacc & Hp1 & Hc1).
  cbv zeta in *.
  destruct (run_events_reported cfg evs (total_transfer_size s0)
              (status_calls s0) _ s [] Hm Hacc)
    as (Hacc' & Hge & calls & Hst & Hnd & Hall); [by rewrite app_nil_r| |done|].
  { split; [|done]. intros i j x y _ Hi. by rewrite lookup_nil in Hi. }
  pose proof Hacc' as (_ & _ & Hn' & _ & Hle').
  pose proof (owed_nonneg s Hn').
  split; [lia|]. exists calls. split_and!; [done|done|].
  eapply Forall_impl; [exact Hall|]. cbn.
  intros c (q & f & Hq & Hf & ->).
  assert (Hpos : 0 < total_transfer_size s0).
  { pose proof (accounted_total_nonneg _ _ Hacc).
    destruct (decide (total_transfer_size s0 = 0)) as [E|]; [|lia].
    by rewrite E, progress_of_zero in Hf. }
  by apply (progress_in_range _ q f Hm Hpos); [lia|].
Qed.

(** ** A run of zero bytes *)

Lemma update_progress_zero_total t failed s :
  total_transfer_size s = 0 ->
  fst (update_progress t failed s) = Raise ZeroDivisionError.
Proof.
  intros H. unfold update_progress.
  cbn [total_transfer_size set_processed_size]. by rewrite H.
Qed.

Lemma finish_zero_total t s :
  total_transfer_size s = 0 -> transfer_failed (snd (finish t s)) = true.
Proof.
  intros H. destruct (finish_effect t s) as (_ & _ & _ & [(_ & _ & ?)|[? _]]);
    done.
Qed.

(** Once failed, always failed. *)
Lemma handle_transfer_failed cfg ev s s' :
  handle cfg ev s = Some s' ->
  transfer_failed s = true -> transfer_failed s' = true.
Proof.
  intros H Hf. apply handle_shape in H.
  destruct H as [?|fut extra pops ? ? ? ?|fut t j track ? ? ? ?
                 |fut t pops ? ? ?|fut t extra pops ? ? ? ?].
  - done.
  - by destruct (pools_after_fields fut extra pops s)
      as (_ & _ & _ & _ & _ & -> & _).
  - done.
  - destruct (pools_after_fields fut None pops s)
      as (_ & _ & _ & _ & _ & Hf1 & _).
    destruct (finish_effect t (pools_after fut None pops s))
      as (_ & _ & _ & [(-> & _)|[? _]]); [|done].
    by rewrite Hf1.
  - by destruct (on_failure_effect t (pools_after fut extra pops s))
      as (_ & ? & _).
Qed.

Lemma handle_total cfg ev s s' :
  handle cfg ev s = Some s' -> total_transfer_size s' = total_transfer_size s.
Proof.
  intros H. apply handle_shape in H.
  destruct H as [?|fut extra pops ? ? ? ?|fut t j track ? ? ? ?
                 |fut t pops ? ? ?|fut t extra pops ? ? ? ?].
  - done.
  - apply pools_after_fields.
  - done.
  - destruct (finish_effect t (pools_after fut None pops s)) as [Hs _].
    destruct Hs as (_ & _ & _ & _ & -> & _). apply pools_after_fields.
  - destruct (on_failure_effect t (pools_after fut extra pops s)) as [Hs _].
    destruct Hs as (_ & _ & _ & _ & -> & _). apply pools_after_fields.
Qed.

(** With nothing to divide by, every task that ends marks the transfer
    failed; until one does, some future is still to come. *)
Lemma handle_zero_total cfg ev s s' :
  total_transfer_size s = 0 -> fresh_futures s ->
  transfer_failed s = true \/ (exists fut t, live s fut t) ->
  handle cfg ev s = Some s' ->
  transfer_failed s' = true \/ (exists fut t, live s' fut t).
Proof.
  intros Ht Hfr [Hf|(f' & t' & Hl')] H.
  { left. eapply handle_transfer_failed; eauto. }
  assert (Hlt : forall j, pending s !! f' = Some j -> (f' < next_future s)%nat).
  { intros j. apply Hfr. }
  assert (Hn : f' <> next_future s).
  { unfold live in Hl'. destruct (pending s !! f') as [j|] eqn:Hj; [|done].
    specialize (Hlt _ eq_refl). lia. }
  apply handle_shape in H.
  destruct H as [?|fut extra pops _ _ Hnl Hex|fut t j track _ _ _ Hj
                 |fut t pops _ _ _|fut t extra pops _ _ _ _].
  - right. by exists f', t'.
  - right. exists f', t'. apply live_pools_after_other; [|done|done].
    intros ->. by apply (Hnl t').
  - right. exists (next_future s), t. by apply live_handed_over_new.
  - left. apply finish_zero_total.
    destruct (pools_after_fields fut None pops s)
      as (_ & _ & _ & _ & _ & _ & _ & -> & _). done.
  - left. by destruct (on_failure_effect t (pools_after fut extra pops s))
      as (_ & ? & _).
Qed.

Lemma run_events_zero_total cfg evs : forall s s',
  total_transfer_size s = 0 -> fresh_futures s ->
  transfer_failed s = true \/ (exists fut t, live s fut t) ->
  run_events cfg evs s = Some s' ->
  transfer_failed s' = true \/ (exists fut t, live s' fut t).
Proof.
  induction evs as [|ev evs IH]; intros s s' Ht Hfr Hj H; cbn in H.
  - by injection H as <-.
  - destruct (handle cfg ev s) as [s1|] eqn:H1; [|discriminate]. cbn in H.
    apply (IH s1 s'); [|by eapply handle_fresh| |done].
    + by rewrite (handle_total _ _ _ _ H1).
    + by eapply handle_zero_total.
Qed.

(** The last task submitted has a live future. *)
Lemma submit_main_live s t : live (submit_main s t) (next_future s) t.
Proof. unfold live. cbn. by rewrite !lookup_insert_eq. Qed.

Lemma execute_plan_submit_live s :
  task_plan s <> [] -> exists fut t, live (execute_plan_submit s) fut t.
Proof.
  intros Hne. unfold execute_plan_submit.
  set (s0 := set_active_futures ∅ s).
  destruct (submit_main_fold (recovery_tasks s0) s0) as (_ & Hpl & _).
  cbv zeta in *. rewrite Hpl. change (task_plan s0) with (task_plan s).
  destruct (task_plan s) as [|t l _] using rev_ind; [done|].
  rewrite fold_left_app. cbn. eauto using submit_main_live.
Qed.

Lemma execute_plan_submit_total s :
  total_transfer_size (execute_plan_submit s) = total_transfer_size s.
Proof.
  unfold execute_plan_submit. set (s0 := set_active_futures ∅ s).
  assert (H : forall l s1, total_transfer_size (fold_left submit_main l s1)
                           = total_transfer_size s1).
  { induction l as [|t l IH]; intros s1; cbn; [done|]. by rewrite IH. }
  by rewrite !H.
Qed.

Lemma run_events_total cfg evs : forall s s',
  run_events cfg evs s = Some s' ->
  total_transfer_size s' = total_transfer_size s.
Proof.
  induction evs as [|ev evs IH]; intros s s' H; cbn in H.
  - by injection H as <-.
  - destruct (handle cfg ev s) as [s1|] eqn:H1; [|discriminate]. cbn in H.
    rewrite (IH _ _ H). by eapply handle_total.
Qed.

Lemma filter_both_nil {A} (P : A -> bool) (l : list A) :
  List.filter P l = [] -> List.filter (fun x => negb (P x)) l = [] -> l = [].
Proof. destruct l as [|a l]; [done|]. cbn. by destruct (P a). Qed.

(** A scan that finds a file plans a task. *)
Lemma scan_and_plan_nonempty (uuid4 : nat -> string)
    (shuffle : list file_info -> list file_info) W limit cfl all_files st
    total ps :
  (forall l, shuffle l ≡ₚ l) ->
  all_files <> [] ->
  Planner.scan_and_plan uuid4 shuffle W limit cfl all_files st
  = Some (total, ps) ->
  total = Planner.total_size all_files /\ Planner.task_plan ps <> [].
Proof.
  intros Hperm Hne Hscan.
  destruct (scan_and_plan_spec uuid4 shuffle W limit cfl all_files st Hne)
    as (avg & thr & chunks & _ & _ & _ & _ & Hplan & Hcat & _).
  cbv zeta in *. rewrite Hplan in Hscan. injection Hscan as <- <-.
  split; [done|]. cbn. intros Hnil.
  apply app_eq_nil in Hnil as [Hnil Hpacks].
  apply app_eq_nil in Hnil as [_ Hmoves].
  apply (f_equal length) in Hpacks, Hmoves.
  unfold pack_tasks, move_large_tasks in *.
  rewrite length_imap in Hpacks. rewrite length_imap in Hmoves.
  apply nil_length_inv in Hpacks. apply nil_length_inv in Hmoves.
  subst chunks. cbn in Hcat.
  apply Hne, (filter_both_nil (is_large thr)); [done|].
  apply Permutation_nil_r. rewrite <- (Hperm _). by rewrite <- Hcat.
Qed.

(** C9. When the scan finds files but no byte, the plan is not empty
    and [total_transfer_size] is 0; then, in every state of the run,
    [_update_progress] raises ZeroDivisionError, the [try] block that
    ends a task leaves the transfer marked failed, and once no future
    is left the transfer is marked failed, so that the guard of the
    teardown is false. *)
Theorem zero_byte_run_is_marked_failed (uuid4 : nat -> string)
    (shuffle : list file_info -> list file_info) (cfg : config)
    (all_files : list file_info) (st : Planner.plan_state) (total : Z)
    (ps : Planner.plan_state) (s0 : state) :
  (forall l, shuffle l ≡ₚ l) ->
  all_files <> [] ->
  Planner.total_size all_files = 0 ->
  Planner.scan_and_plan uuid4 shuffle (max_workers cfg)
    (chunk_size_limit cfg) (chunk_file_limit cfg) all_files st
  = Some (total, ps) ->
  total_transfer_size s0 = total ->
  task_plan s0 = Planner.task_plan ps ->
  pending s0 = ∅ ->
  total = 0
  /\ task_plan s0 <> []
  /\ forall evs s,
       run_events cfg evs (execute_plan_submit s0) = Some s ->
       (forall t failed,
          fst (update_progress t failed s) = Raise ZeroDivisionError)
       /\ (forall t, transfer_failed (snd (finish t s)) = true)
       /\ (pending s = ∅ ->
           transfer_failed s = true /\ teardown_runs s = false).
Proof.
  intros Hperm Hne Hzero Hscan Htot Hplan Hpend.
  destruct (scan_and_plan_nonempty _ _ _ _ _ _ _ _ _ Hperm Hne Hscan)
    as [-> Hps].
  rewrite Hzero in *. rewrite <- Hplan in Hps. split_and!; [done|done|].
  intros evs s Hrun.
  assert (Hs : total_transfer_size s = 0).
  { rewrite (run_events_total _ _ _ _ Hrun).
    by rewrite execute_plan_submit_total. }
  split_and!.
  - intros t failed. by apply update_progress_zero_total.
  - intros t. by apply finish_zero_total.
  - intros Hdone.
    assert (Hf : transfer_failed s = true).
    { destruct (run_events_zero_total cfg evs (execute_plan_submit s0) s)
        as [Hf|(fut & t & Hl)]; try done.
      - by rewrite execute_plan_submit_total.
      - by apply fresh_execute_plan_submit.
      - right. by apply execute_plan_submit_live.
      - unfold live in Hl. by rewrite Hdone, lookup_empty in Hl. }
    split; [done|]. unfold teardown_runs. rewrite Hf. by rewrite andb_false_r.
Qed.

Lemma zero_byte_run_is_marked_failed_witness :
  let cfg := Config "C:\data" "D:\backup" 4 (64 * Planner.MiB) 500 300
               false false FileList.windows in
  let all_files := [FileInfo "C:\data\empty.txt" 0] in
  let plan := [Pack "id-0" 1 all_files] in
  let s0 := set_task_plan plan (init_state false) in
  let evs := [MainDone 0 (MainIO None None None);
              DeleteDone 1 None false None None] in
  exists s,
    run_events cfg evs (execute_plan_submit s0) = Some s
    /\ completed_task_queue s = ["id-0"]
    /\ transfer_failed s = true
    /\ teardown_runs s = false.
Proof.
  intros cfg all_files plan s0 evs.
  assert (E : exists s, run_events cfg evs (execute_plan_submit s0) = Some s
                        /\ pending s = ∅
                        /\ completed_task_queue s = ["id-0"]).
  { vm_compute. eexists. split_and!; reflexivity. }
  destruct E as (s & E1 & E2 & E3).
  destruct (zero_byte_run_is_marked_failed (fun _ => "id-0") (fun l => l)
              cfg all_files (Planner.PlanState [] 0) 0
              (Planner.PlanState plan 1) s0)
    as (_ & _ & Hrun).
  - intros l. reflexivity.
  - discriminate.
  - vm_compute. reflexivity.
  - vm_compute. reflexivity.
  - vm_compute. reflexivity.
  - vm_compute. reflexivity.
  - vm_compute. reflexivity.
  - destruct (Hrun evs s E1) as (_ & _ & Hend).
    destruct (Hend E2) as [Hf Ht].
    exists s. split; [exact E1|]. split; [exact E3|]. split; [exact Hf|].
    exact Ht.
Defined.

(** ** Worker count and settings *)

(** X1. Whatever psutil does - missing, raising, [None], or any two
    integers - [get_optimal_worker_count] returns at least 1. *)
Theorem worker_count_at_least_one
    (psutil : option (outcome (option Z) * outcome (option Z))) :
  1 <= get_optimal_worker_count psutil.
Proof.
  unfold get_optimal_worker_count.
  destruct psutil as [[[[p|]|e] [[l|]|e']]|]; try lia.
  destruct (l =? p * 2); [lia|]. destruct (l =? p); [lia|].
  cbv zeta. destruct (Z.ltb_spec 0 (l - p)); lia.
Qed.

(** X2. The settings of a first start pass the validation of
    [start_transfer] in both performance modes: the worker count is
    the detected one, halved (but at least 1) in the mode "normal",
    with chunks of 64 MB, 500 files per pack and a timeout of 10 s. *)
Theorem default_settings_accepted
    (psutil : option (outcome (option Z) * outcome (option Z)))
    (performance_mode : string) :
  let n := get_optimal_worker_count psutil in
  let w := if String.eqb performance_mode "normal"
           then Z.max 1 (n `div` 2) else n in
  default_settings psutil performance_mode = Some (w, 64, 500, 10)
  /\ 1 <= w.
Proof.
  intros n w. pose proof (worker_count_at_least_one psutil) as Hn.
  fold n in Hn.
  assert (Hw : 1 <= w) by (subst w; destruct (String.eqb _ _); lia).
  split; [|done].
  unfold default_settings, parse_settings. fold n. rewrite int_str.
  replace (PyStr.int "64") with (Some 64) by (vm_compute; reflexivity).
  replace (PyStr.int "500") with (Some 500) by (vm_compute; reflexivity).
  replace (PyStr.int "10") with (Some 10) by (vm_compute; reflexivity).
  cbn [mbind option_bind]. fold w.
  rewrite (proj2 (Z.leb_gt w 0)) by lia. reflexivity.
Qed.

(** ** File operations with retries *)

Section FileOpsProperties.

Import FileOps.

Lemma count_app p (l1 l2 : list action) :
  count p (l1 ++ l2) = (count p l1 + count p l2)%nat.
Proof. unfold count. by rewrite List.filter_app, length_app. Qed.

Lemma count_inner_calls i a :
  count is_remove (inner_calls i a) = 0%nat
  /\ count is_sleep (inner_calls i a) = 0%nat.
Proof. unfold inner_calls. by destruct (attributes_of a). Qed.

Lemma removals_failed_S env i e :
  removals_failed env i -> vanished (env i) = false ->
  remove_of (env i) = Some e -> is_OSError e = true ->
  removals_failed env (S i).
Proof.
  intros Hb Hv He Hos j Hj.
  destruct (decide (j = i)) as [->|]; [eauto|]. apply Hb. lia.
Qed.

Lemma remove_loop_spec retries env : forall n k,
  (k + n = retries)%nat -> removals_failed env k ->
  let r := fst (remove_loop retries env (seq k n)) in
  let tr := snd (remove_loop retries env (seq k n)) in
  (count is_remove tr <= n)%nat
  /\ match r with
     | Ok (Some true) =>
         exists i, (k <= i < retries)%nat /\ removals_failed env i
                   /\ (vanished (env i) = true \/ remove_of (env i) = None)
     | Ok (Some false) =>
         (0 < n)%nat /\ removals_failed env retries
         /\ count is_remove tr = n /\ count is_sleep tr = (n - 1)%nat
     | Ok None => n = 0%nat
     | Raised e =>
         is_OSError e = false
         /\ exists i, (k <= i < retries)%nat /\ removals_failed env i
                      /\ vanished (env i) = false
                      /\ remove_of (env i) = Some e
     end.
Proof.
  induction n as [|n IH]; intros k Hk Hb; cbn [seq remove_loop fst snd].
  { by split. }
  destruct (count_inner_calls k (env k)) as [Hcr Hcs].
  destruct (vanished (env k)) eqn:Hv; cbn [fst snd].
  { rewrite Hcr. split; [lia|]. exists k. split_and!; [lia..|done|by left]. }
  destruct (remove_of (env k)) as [e|] eqn:He; cbn [fst snd].
  2:{ rewrite count_app, Hcr. split; [cbn; lia|].
      exists k. split_and!; [lia..|done|by right]. }
  destruct (is_OSError e) eqn:Hos; cbn [fst snd].
  2:{ rewrite count_app, Hcr. split; [cbn; lia|].
      split; [done|]. exists k. split_and!; try done; lia. }
  pose proof (removals_failed_S env k e Hb Hv He Hos) as Hb'.
  destruct (Nat.ltb_spec k (retries - 1)) as [Hlt|Hge].
  - specialize (IH (S k) ltac:(lia) Hb').
    destruct (remove_loop retries env (seq (S k) n)) as [r tr].
    cbn [fst snd] in *. destruct IH as [Hc Hr].
    rewrite !count_app, Hcr, Hcs. cbn. split; [unfold count in *; lia|].
    destruct r as [[[]|]|e']; try done.
    + destruct Hr as (i & Hi & ?). exists i. split; [lia|done].
    + destruct Hr as (Hn & ? & Hcn & Hsn). unfold count in *.
      split_and!; try done; lia.
    + lia.
    + destruct Hr as (? & i & Hi & ?). split; [done|].
      exists i. split; [lia|done].
  - cbn [fst snd]. rewrite !count_app, Hcr, Hcs. cbn.
    assert (n = 0%nat) as -> by lia.
    split; [lia|]. split_and!; try done; [lia|].
    by replace retries with (S k) by lia.
Qed.

Lemma copies_failed_S env i e :
  copies_failed env i -> env i = Some e -> is_OSError e = true ->
  copies_failed env (S i).
Proof.
  intros Hb He Hos j Hj.
  destruct (decide (j = i)) as [->|]; [eauto|]. apply Hb. lia.
Qed.

Lemma copy_loop_spec retries env : forall n k,
  (k + n = retries)%nat -> copies_failed env k ->
  let r := fst (copy_loop retries env (seq k n)) in
  let tr := snd (copy_loop retries env (seq k n)) in
  match r with
  | Ok _ =>
      n = 0%nat /\ tr = []
      \/ exists i, (k <= i < retries)%nat /\ copies_failed env i
                   /\ env i = None
                   /\ count is_copy tr = (S i - k)%nat
                   /\ count is_sleep tr = (i - k)%nat
  | Raised e =>
      exists i, (k <= i < retries)%nat /\ copies_failed env i
                /\ env i = Some e
                /\ (is_OSError e = true -> S i = retries)
                /\ count is_copy tr = (S i - k)%nat
                /\ count is_sleep tr = (i - k)%nat
  end.
Proof.
  induction n as [|n IH]; intros k Hk Hb; cbn [seq copy_loop fst snd].
  { by left. }
  destruct (env k) as [e|] eqn:He; cbn [fst snd].
  2:{ right. exists k.
      split_and!; first [done|lia|congruence|(unfold count; cbn -[Nat.sub]; lia)]. }
  destruct (is_OSError e) eqn:Hos; cbn [fst snd].
  2:{ exists k. split_and!; first [done|lia|congruence|(unfold count; cbn -[Nat.sub]; lia)]. }
  pose proof (copies_failed_S env k e Hb He Hos) as Hb'.
  destruct (Nat.ltb_spec k (retries - 1)) as [Hlt|Hge].
  - specialize (IH (S k) ltac:(lia) Hb').
    destruct (copy_loop retries env (seq (S k) n)) as [r tr].
    cbn [fst snd] in *. unfold count in *. cbn.
    destruct r as [[]|e'].
    + destruct IH as [[-> _]|(i & Hi & ? & ? & Hc & Hs)]; [lia|].
      right. exists i. split_and!; try done; lia.
    + destruct IH as (i & Hi & ? & ? & ? & Hc & Hs).
      exists i. split_and!; try done; lia.
  - cbn [fst snd]. exists k.
    split_and!; first [done|lia|congruence|(unfold count; cbn -[Nat.sub]; lia)].
Qed.

End FileOpsProperties.

(** X3. [_remove_file_with_retry] calls [os.remove] at most [retries]
    times and lets no OSError escape. It returns True at the first
    attempt that finds the file gone or removes it; False only after
    [retries] removals that all raised an OSError, with a sleep between
    two of them; [None] only when [retries] is 0; and it raises only
    what [os.remove] raised that is no OSError. *)
Theorem remove_file_with_retry_outcomes (retries : nat)
    (env : nat -> FileOps.removal) :
  let r := fst (FileOps.remove_file_with_retry retries env) in
  let tr := snd (FileOps.remove_file_with_retry retries env) in
  (FileOps.count FileOps.is_remove tr <= retries)%nat
  /\ match r with
     | FileOps.Ok (Some true) =>
         exists i, (i < retries)%nat /\ FileOps.removals_failed env i
                   /\ (FileOps.vanished (env i) = true
                       \/ FileOps.remove_of (env i) = None)
     | FileOps.Ok (Some false) =>
         (0 < retries)%nat /\ FileOps.removals_failed env retries
         /\ FileOps.count FileOps.is_remove tr = retries
         /\ FileOps.count FileOps.is_sleep tr = (retries - 1)%nat
     | FileOps.Ok None => retries = 0%nat
     | FileOps.Raised e =>
         FileOps.is_OSError e = false
         /\ exists i, (i < retries)%nat /\ FileOps.removals_failed env i
                      /\ FileOps.vanished (env i) = false
                      /\ FileOps.remove_of (env i) = Some e
     end.
Proof.
  intros r tr.
  destruct (remove_loop_spec retries env retries 0 eq_refl) as [Hc Hr].
  { intros j Hj. lia. }
  split; [exact Hc|]. fold (FileOps.remove_file_with_retry retries env) in Hr.
  fold r in Hr. fold tr in Hr. destruct r as [[[]|]|e]; try done.
  - destruct Hr as (i & Hi & ?). exists i. split; [lia|done].
  - destruct Hr as (? & i & Hi & ?). split; [done|].
    exists i. split; [lia|done].
Qed.

(** X4. [_copy_large_file_with_retry] returns normally when a copy
    succeeds after copies that all raised an OSError, or, without a
    single copy, when [retries] is 0. It raises what the last copy
    raised: an OSError only at attempt [retries - 1], any other
    exception at once. It sleeps once between two copies. *)
Theorem copy_large_file_with_retry_outcomes (retries : nat)
    (env : nat -> option FileOps.raised) :
  let r := fst (FileOps.copy_large_file_with_retry retries env) in
  let tr := snd (FileOps.copy_large_file_with_retry retries env) in
  match r with
  | FileOps.Ok _ =>
      retries = 0%nat /\ tr = []
      \/ exists i, (i < retries)%nat /\ FileOps.copies_failed env i
                   /\ env i = None
                   /\ FileOps.count FileOps.is_copy tr = S i
                   /\ FileOps.count FileOps.is_sleep tr = i
  | FileOps.Raised e =>
      exists i, (i < retries)%nat /\ FileOps.copies_failed env i
                /\ env i = Some e
                /\ (FileOps.is_OSError e = true -> S i = retries)
                /\ FileOps.count FileOps.is_copy tr = S i
                /\ FileOps.count FileOps.is_sleep tr = i
  end.
Proof.
  intros r tr.
  pose proof (copy_loop_spec retries env retries 0 eq_refl) as Hr.
  fold (FileOps.copy_large_file_with_retry retries env) in Hr.
  cbv zeta in Hr. fold r in Hr. fold tr in Hr.
  specialize (Hr ltac:(intros j Hj; lia)).
  destruct r as [[]|e].
  - destruct Hr as [?|(i & Hi & ? & ? & Hc & Hs)]; [by left|].
    right. exists i. split_and!; try done; lia.
  - destruct Hr as (i & Hi & ? & ? & ? & Hc & Hs).
    exists i. split_and!; try done; lia.
Qed.

(** ** The teardown *)

Lemma handle_stop_event cfg ev s s' :
  handle cfg ev s = Some s' -> stop_event s = true -> stop_event s' = true.
Proof.
  intros H Hs. apply handle_shape in H.
  destruct H as [?|fut extra pops ? ? ? ?|fut t j track ? ? ? ?
                 |fut t pops ? ? ?|fut t extra pops ? ? ? ?].
  - done.
  - by destruct (pools_after_fields fut extra pops s)
      as (_ & _ & _ & _ & _ & _ & -> & _).
  - done.
  - destruct (finish_effect t (pools_after fut None pops s)) as [Hsame _].
    destruct Hsame as (_ & _ & _ & -> & _).
    by destruct (pools_after_fields fut None pops s)
      as (_ & _ & _ & _ & _ & _ & -> & _).
  - destruct (on_failure_effect t (pools_after fut extra pops s))
      as [Hsame _].
    destruct Hsame as (_ & _ & _ & -> & _).
    by destruct (pools_after_fields fut extra pops s)
      as (_ & _ & _ & _ & _ & _ & -> & _).
Qed.

Lemma handle_teardown_runs cfg ev s s' :
  handle cfg ev s = Some s' ->
  teardown_runs s = false -> teardown_runs s' = false.
Proof.
  intros H. unfold teardown_runs. intros Hg.
  destruct (stop_event s) eqn:Hs.
  - by rewrite (handle_stop_event _ _ _ _ H Hs).
  - destruct (transfer_failed s) eqn:Hf; [|done].
    rewrite (handle_transfer_failed _ _ _ _ H Hf). apply andb_false_r.
Qed.

(** X5. Once the flag that cancels the run is set or a task has
    failed, no later event of the run makes the guard of the teardown
    true again: the cache and the source directory are kept. *)
Theorem teardown_guard_never_recovers (cfg : config) (evs : list event)
    (s s' : state) :
  run_events cfg evs s = Some s' ->
  teardown_runs s = false ->
  teardown_runs s' = false.
Proof.
  revert s. induction evs as [|ev evs IH]; intros s H Hg; cbn in H.
  - by injection H as <-.
  - destruct (handle cfg ev s) as [s1|] eqn:H1; [|discriminate]. cbn in H.
    apply (IH s1 H). by eapply handle_teardown_runs.
Qed.

Lemma teardown_guard_never_recovers_witness :
  let cfg := Config "C:\data" "D:\backup" 4 (64 * Planner.MiB) 500 300
               false false FileList.windows in
  let t1 := MoveLarge "id-1" (FileInfo "C:\data\big.bin" 1) in
  let s := set_stop_event true
             (execute_plan_submit
                (set_task_plan [t1]
                   (set_total_transfer_size 1 (init_state false)))) in
  let evs := [MainDone 0 (MainIO None None None); CleanupDone 1 None] in
  exists s',
    run_events cfg evs s = Some s'
    /\ completed_task_queue s' = ["id-1"]
    /\ transfer_failed s' = false
    /\ teardown_runs s' = false.
Proof.
  intros cfg t1 s evs.
  assert (E : exists s', run_events cfg evs s = Some s'
                         /\ completed_task_queue s' = ["id-1"]
                         /\ transfer_failed s' = false).
  { vm_compute. eexists. split_and!; reflexivity. }
  destruct E as (s' & E1 & E2 & E3).
  assert (Hg : teardown_runs s = false) by (vm_compute; reflexivity).
  exists s'. split; [exact E1|]. split; [exact E2|]. split; [exact E3|].
  exact (teardown_guard_never_recovers cfg evs s s' E1 Hg).
Defined.

Lemma live_functional s fut t t' : live s fut t -> live s fut t' -> t = t'.
Proof.
  unfold live. destruct (pending s !! fut) as [[?|? [[u cf]|]|?|?]|];
    try done; congruence.
Qed.

Lemma live_fresh s fut t :
  fresh_futures s -> live s fut t -> (fut < next_future s)%nat.
Proof.
  intros [Hp _]. unfold live.
  destruct (pending s !! fut) as [j|] eqn:Hj; [|done]. intros _. eauto.
Qed.

Lemma live_handed_over_other fut j track t s f' t' :
  f' <> fut -> f' <> next_future s -> live s f' t' ->
  live (handed_over fut j track t s) f' t'.
Proof.
  intros Hne Hn. unfold live.
  destruct (handed_over_fields fut j track t s) as (-> & -> & _).
  rewrite lookup_insert_ne by done. rewrite lookup_delete_ne by done.
  assert (Ha : (if track then <[next_future s := t]> else id)
                 (delete fut (active_futures s)) !! f'
               = active_futures s !! f').
  { destruct track; cbn; rewrite ?lookup_insert_ne by done;
      by rewrite lookup_delete_ne. }
  by rewrite Ha.
Qed.

(** Unless the transfer is marked failed, each of the tasks [tasks] is
    still handled by a future or has been queued as complete. *)
Lemma handle_live_or_complete cfg ev s s' (tasks : list task) :
  fresh_futures s ->
  transfer_failed s = true
  \/ Forall (fun t => (exists fut, live s fut t)
                      \/ task_id t ∈ completed_task_queue s) tasks ->
  handle cfg ev s = Some s' ->
  transfer_failed s' = true
  \/ Forall (fun t => (exists fut, live s' fut t)
                      \/ task_id t ∈ completed_task_queue s') tasks.
Proof.
  intros Hfr [Hf|Hall] H.
  { left. eapply handle_transfer_failed; eauto. }
  apply handle_shape in H.
  destruct H as [?|fut extra pops _ _ Hnl Hex|fut t j track _ Hl _ Hj
                 |fut t pops _ Hl _|fut t extra pops _ _ _ _].
  - by right.
  - right. eapply Forall_impl; [exact Hall|]. cbn.
    intros t0 [[f Hl0]|Hq].
    + left. exists f. apply live_pools_after_other; [| |done].
      * intros ->. by apply (Hnl t0).
      * intros ? _ ->. apply (live_fresh _ _ _ Hfr) in Hl0. lia.
    + right. by destruct (pools_after_fields fut extra pops s)
        as (_ & _ & _ & _ & -> & _).
  - right. eapply Forall_impl; [exact Hall|]. cbn.
    intros t0 [[f Hl0]|Hq]; [|by right]. left.
    destruct (decide (f = fut)) as [->|Hne].
    + rewrite (live_functional _ _ _ _ Hl0 Hl).
      exists (next_future s). by apply live_handed_over_new.
    + exists f. apply live_handed_over_other; [done| |done].
      intros ->. apply (live_fresh _ _ _ Hfr) in Hl0. lia.
  - set (s1 := pools_after fut None pops s).
    destruct (finish_effect t s1) as (Hsame & Hq & _ & Hc).
    destruct Hc as [(_ & _ & _)|(? & _)]; [|by left]. right.
    destruct (pools_after_fields fut None pops s)
      as (_ & _ & _ & _ & Hq1 & _).
    cbv zeta in *. fold s1 in Hq1.
    eapply Forall_impl; [exact Hall|]. cbn.
    intros t0 [[f Hl0]|Hq0].
    + destruct (decide (f = fut)) as [->|Hne].
      * right. rewrite (live_functional _ _ _ _ Hl0 Hl), Hq.
        apply elem_of_app. right. by apply list_elem_of_singleton.
      * left. exists f. apply (live_same_pools _ _ _ _ Hsame).
        apply live_pools_after_other; [done|by intros ? [=]|done].
    + right. rewrite Hq, Hq1. apply elem_of_app. by left.
  - left. by destruct (on_failure_effect t (pools_after fut extra pops s))
      as (_ & ? & _).
Qed.

Lemma run_events_live_or_complete cfg evs (tasks : list task) : forall s s',
  fresh_futures s ->
  transfer_failed s = true
  \/ Forall (fun t => (exists fut, live s fut t)
                      \/ task_id t ∈ completed_task_queue s) tasks ->
  run_events cfg evs s = Some s' ->
  transfer_failed s' = true
  \/ Forall (fun t => (exists fut, live s' fut t)
                      \/ task_id t ∈ completed_task_queue s') tasks.
Proof.
  induction evs as [|ev evs IH]; intros s s' Hfr HK H; cbn in H.
  - by injection H as <-.
  - destruct (handle cfg ev s) as [s1|] eqn:H1; [|discriminate]. cbn in H.
    apply (IH s1 s'); [by eapply handle_fresh| |done].
    by eapply handle_live_or_complete.
Qed.

Lemma submit_main_live_other s u fut t :
  fresh_futures s -> live s fut t -> live (submit_main s u) fut t.
Proof.
  intros Hfr Hl. pose proof (live_fresh _ _ _ Hfr Hl) as Hlt.
  unfold live in *. cbn. rewrite !lookup_insert_ne by lia. done.
Qed.

Lemma fold_submit_main_live l : forall s (tasks : list task),
  fresh_futures s ->
  Forall (fun t => exists fut, live s fut t) tasks ->
  Forall (fun t => exists fut, live (fold_left submit_main l s) fut t)
    (tasks ++ l).
Proof.
  induction l as [|u l IH]; intros s tasks Hfr Hall; cbn [fold_left].
  - by rewrite app_nil_r.
  - replace (tasks ++ u :: l) with ((tasks ++ [u]) ++ l)
      by (by rewrite <- app_assoc).
    apply IH; [by apply fresh_submit_main|].
    apply Forall_app. split.
    + eapply Forall_impl; [exact Hall|]. cbn. intros t [f Hl].
      exists f. by apply submit_main_live_other.
    + apply Forall_singleton. exists (next_future s). apply submit_main_live.
Qed.

(** Once the plan is submitted, every task has its future. *)
Lemma execute_plan_submit_all_live s :
  pending s = ∅ ->
  Forall (fun t => exists fut, live (execute_plan_submit s) fut t)
    (recovery_tasks s ++ task_plan s).
Proof.
  intros Hp. unfold execute_plan_submit.
  set (s0 := set_active_futures ∅ s).
  assert (Hf0 : fresh_futures s0).
  { split; cbn; intros k x; [rewrite Hp|]; by rewrite lookup_empty. }
  destruct (submit_main_fold (recovery_tasks s0) s0) as (_ & Hpl & _).
  cbv zeta in *. rewrite Hpl.
  change (recovery_tasks s0) with (recovery_tasks s).
  change (task_plan s0) with (task_plan s).
  apply fold_submit_main_live; [by apply fresh_fold_submit_main|].
  apply (fold_submit_main_live (recovery_tasks s) s0 []); [done|].
  by apply Forall_nil.
Qed.

(** With every future done and the transfer not marked failed, every
    task submitted has been queued as complete. *)
Lemma run_events_all_complete cfg evs s0 s :
  pending s0 = ∅ ->
  run_events cfg evs (execute_plan_submit s0) = Some s ->
  pending s = ∅ ->
  transfer_failed s = false ->
  Forall (fun t => task_id t ∈ completed_task_queue s)
    (recovery_tasks s0 ++ task_plan s0).
Proof.
  intros Hp Hrun Hdone Hf.
  destruct (run_events_live_or_complete cfg evs
              (recovery_tasks s0 ++ task_plan s0) _ s
              (fresh_execute_plan_submit s0 Hp)) as [Hf'|Hall];
    [|done|congruence|].
  - right. eapply Forall_impl; [exact (execute_plan_submit_all_live s0 Hp)|].
    cbn. by left.
  - eapply Forall_impl; [exact Hall|]. cbn. intros t [[f Hl]|Hq]; [|done].
    unfold live in Hl. by rewrite Hdone, lookup_empty in Hl.
Qed.

(** X6. [run] reaches its teardown - which deletes the cache and, unless
    in copy-only mode, the source directory - only when, with every
    future done, the run was neither cancelled nor marked failed; and
    then every task submitted, recovery tasks and plan alike, has been
    queued as complete. *)
Theorem teardown_only_after_all_tasks_complete (cfg : config)
    (evs : list event) (s0 s : state) :
  pending s0 = ∅ ->
  run_events cfg evs (execute_plan_submit s0) = Some s ->
  pending s = ∅ ->
  teardown_runs s = true ->
  stop_event s = false
  /\ transfer_failed s = false
  /\ Forall (fun t => task_id t ∈ completed_task_queue s)
       (recovery_tasks s0 ++ task_plan s0).
Proof.
  intros Hp Hrun Hdone Hg. unfold teardown_runs in Hg.
  apply andb_true_iff in Hg as [Hs Hf].
  apply negb_true_iff in Hs, Hf. split_and!; [done|done|].
  by apply (run_events_all_complete cfg evs).
Qed.

Lemma teardown_only_after_all_tasks_complete_witness :
  let cfg := Config "C:\data" "D:\backup" 4 (64 * Planner.MiB) 500 300
               false false FileList.windows in
  let t1 := MoveLarge "id-1" (FileInfo "C:\data\big.bin" 1) in
  let t2 := Pack "id-2" 1 [FileInfo "C:\data\a.txt" 2] in
  let s0 := set_task_plan [t1; t2]
              (set_total_transfer_size 3 (init_state false)) in
  let evs := [MainDone 1 (MainIO None None None);
              MainDone 0 (MainIO None None None);
              DeleteDone 2 None false None None; CleanupDone 3 None] in
  exists s,
    run_events cfg evs (execute_plan_submit s0) = Some s
    /\ completed_task_queue s = ["id-2"; "id-1"]
    /\ Forall (fun t => task_id t ∈ completed_task_queue s) [t1; t2].
Proof.
  intros cfg t1 t2 s0 evs.
  assert (E : exists s, run_events cfg evs (execute_plan_submit s0) = Some s
                        /\ completed_task_queue s = ["id-2"; "id-1"]
                        /\ pending s = ∅
                        /\ teardown_runs s = true).
  { vm_compute. eexists. split_and!; reflexivity. }
  destruct E as (s & E1 & E2 & E3 & E4).
  assert (Hp : pending s0 = ∅) by (vm_compute; reflexivity).
  exists s. split; [exact E1|]. split; [exact E2|].
  exact (proj2 (proj2 (teardown_only_after_all_tasks_complete
                         cfg evs s0 s Hp E1 E3 E4))).
Defined.

(** ** The throttle of the progress calls *)

Lemma strictly_increasing_snoc (l : list Z) (x : Z) :
  strictly_increasing l -> Forall (fun y => y < x) l ->
  strictly_increasing (l ++ [x]).
Proof.
  intros Hs Hall i j a b Hij Hi Hj.
  assert (Hjlt : (j < length (l ++ [x]))%nat)
    by (apply lookup_lt_is_Some; eauto).
  rewrite length_app in Hjlt. cbn in Hjlt.
  rewrite lookup_app_l in Hi by lia.
  destruct (decide (j < length l)%nat) as [Hlt|Hge].
  - rewrite lookup_app_l in Hj by done. eauto.
  - rewrite lookup_app_r in Hj by lia.
    replace (j - length l)%nat with 0%nat in Hj by lia.
    injection Hj as <-.
    rewrite Forall_forall in Hall. apply Hall.
    by apply list_elem_of_lookup_2 in Hi.
Qed.

Lemma progress_percents_app l1 l2 :
  progress_percents (l1 ++ l2) = progress_percents l1 ++ progress_percents l2.
Proof. unfold progress_percents. apply omap_app. Qed.

Lemma update_progress_throttled t failed s :
  throttled s ->
  throttled (snd (update_progress t failed s))
  /\ last_reported_progress s
     <= last_reported_progress (snd (update_progress t failed s)).
Proof.
  intros (Hs & Hle & Hint). unfold update_progress, throttled.
  cbn [processed_size set_processed_size total_transfer_size
       last_reported_progress].
  destruct (progress_of _ _) as [f|]; [|by cbn].
  destruct failed.
  - cbn. rewrite progress_percents_app. cbn. rewrite app_nil_r.
    split_and!; try done.
    apply Forall_app. split; [done|]. by apply Forall_singleton.
  - destruct (int_of_float f) as [p|] eqn:Hp; [|by cbn].
    destruct (Z.ltb_spec (last_reported_progress s) p) as [Hlt|Hge];
      [|by cbn].
    cbn. rewrite progress_percents_app. cbn. split_and!; [| | |lia].
    + apply strictly_increasing_snoc; [done|].
      eapply Forall_impl; [exact Hle|]. cbn. lia.
    + apply Forall_app. split; [|apply Forall_singleton; lia].
      eapply Forall_impl; [exact Hle|]. cbn. lia.
    + apply Forall_app. split; [done|]. apply Forall_singleton. cbn. eauto.
Qed.

Lemma on_failure_throttled t s :
  throttled s ->
  throttled (snd (on_failure t s))
  /\ last_reported_progress s <= last_reported_progress (snd (on_failure t s)).
Proof.
  intros H. unfold on_failure, mbind, M_bind, bind, modify.
  apply (update_progress_throttled t true (set_transfer_failed true s) H).
Qed.

Lemma finish_throttled t s :
  throttled s ->
  throttled (snd (finish t s))
  /\ last_reported_progress s <= last_reported_progress (snd (finish t s)).
Proof.
  intros H. unfold finish, try_except, mbind, M_bind, bind,
    mark_task_complete, modify.
  set (s1 := set_completed_task_queue _ s).
  destruct (update_progress_throttled t false s1 H) as [H1 Hl1].
  destruct (update_progress t false s1) as [[u|e] s2]; cbn [fst snd] in *.
  - by split.
  - destruct (on_failure_throttled t s2 H1) as [H2 Hl2].
    split; [done|]. change (last_reported_progress s1)
      with (last_reported_progress s) in Hl1. lia.
Qed.

Lemma pools_after_throttled fut extra pops s :
  throttled s ->
  throttled (pools_after fut extra pops s)
  /\ last_reported_progress (pools_after fut extra pops s)
     = last_reported_progress s.
Proof. by destruct extra, pops. Qed.

Lemma handle_throttled cfg ev s s' :
  throttled s -> handle cfg ev s = Some s' ->
  throttled s' /\ last_reported_progress s <= last_reported_progress s'.
Proof.
  intros Ht H. apply handle_shape in H.
  destruct H as [?|fut extra pops ? ? ? ?|fut t j track ? ? ? ?
                 |fut t pops ? ? ?|fut t extra pops ? ? ? ?].
  - by split.
  - destruct (pools_after_throttled fut extra pops s Ht) as [? ->].
    by split.
  - by split.
  - destruct (pools_after_throttled fut None pops s Ht) as [Hp Ep].
    destruct (finish_throttled t _ Hp) as [? ?]. split; [done|lia].
  - destruct (pools_after_throttled fut extra pops s Ht) as [Hp Ep].
    destruct (on_failure_throttled t _ Hp) as [? ?]. split; [done|lia].
Qed.

Lemma execute_plan_submit_throttled s :
  throttled s -> throttled (execute_plan_submit s).
Proof.
  unfold execute_plan_submit.
  assert (H : forall l s1, throttled s1 ->
                throttled (fold_left submit_main l s1)).
  { induction l as [|t l IH]; intros s1 H1; cbn; [done|]. by apply IH. }
  intros Hs. by do 2 apply H.
Qed.

(** X7. In a run, the status calls "进度 n%" of [_update_progress]
    carry strictly increasing integer percentages, each the truncation
    [int(progress)] of the value passed with it and none above
    [last_reported_progress], which never decreases. *)
Theorem progress_calls_are_throttled (cfg : config) (evs : list event)
    (s0 s : state) :
  throttled s0 ->
  run_events cfg evs (execute_plan_submit s0) = Some s ->
  throttled s /\ last_reported_progress s0 <= last_reported_progress s.
Proof.
  intros H0 Hrun. apply execute_plan_submit_throttled in H0.
  assert (Hl : last_reported_progress (execute_plan_submit s0)
               = last_reported_progress s0).
  { unfold execute_plan_submit.
    assert (H : forall l s1, last_reported_progress (fold_left submit_main l s1)
                             = last_reported_progress s1).
    { induction l as [|t l IH]; intros s1; cbn; [done|]. by rewrite IH. }
    by rewrite !H. }
  rewrite <- Hl. clear Hl. revert Hrun H0.
  generalize (execute_plan_submit s0). clear s0.
  induction evs as [|ev evs IH]; intros s1 H H1; cbn in H.
  - injection H as <-. split; [done|lia].
  - destruct (handle cfg ev s1) as [s2|] eqn:E; [|discriminate]. cbn in H.
    destruct (handle_throttled _ _ _ _ H1 E) as [H2 Hle].
    destruct (IH s2 H H2) as [? ?]. split; [done|lia].
Qed.

Lemma throttled_without_calls s : status_calls s = [] -> throttled s.
Proof.
  intros H. unfold throttled. rewrite H. cbn. split_and!; [|done|done].
  intros i j x y _ Hi. by rewrite lookup_nil in Hi.
Qed.

Lemma progress_calls_are_throttled_witness :
  let cfg := Config "C:\data" "D:\backup" 4 (64 * Planner.MiB) 500 300
               false false FileList.windows in
  let t1 := MoveLarge "id-1" (FileInfo "C:\data\big.bin" 1) in
  let t2 := Pack "id-2" 1 [FileInfo "C:\data\a.txt" 2] in
  let s0 := set_task_plan [t1; t2]
              (set_total_transfer_size 3 (init_state false)) in
  let evs := [MainDone 0 (MainIO None None None); CleanupDone 2 None;
              MainDone 1 (MainIO None None None);
              DeleteDone 3 None false None None] in
  exists s,
    run_events cfg evs (execute_plan_submit s0) = Some s
    /\ progress_percents (status_calls s) = [33; 100]
    /\ throttled s.
Proof.
  intros cfg t1 t2 s0 evs.
  assert (E : exists s, run_events cfg evs (execute_plan_submit s0) = Some s
                        /\ progress_percents (status_calls s) = [33; 100]).
  { vm_compute. eexists. split_and!; reflexivity. }
  destruct E as (s & E1 & E2).
  assert (H0 : status_calls s0 = []) by (vm_compute; reflexivity).
  exists s. split; [exact E1|]. split; [exact E2|].
  exact (proj1 (progress_calls_are_throttled cfg evs s0 s
                  (throttled_without_calls s0 H0) E1)).
Defined.

(** ** Recovery planning keeps the tasks *)

Lemma task_id_as_resume_extract u :
  task_id (as_resume_extract u) = task_id u.
Proof. by destruct u. Qed.

(** What one cache item does to the plan: the ids are kept, a task
    put with the recovery tasks is not complete, and no task with its
    id stays in the plan. *)
Lemma recovery_step_keeps (m : gmap Z task) s item :
  let s' := recovery_step m s item in
  (task_id <$> (recovery_tasks s ++ task_plan s))
    ⊆ (task_id <$> (recovery_tasks s' ++ task_plan s'))
  /\ exists new,
       recovery_tasks s' = recovery_tasks s ++ new
       /\ Forall (fun r => (task_id r ∉ completed_task_ids s)
                           /\ forall t, t ∈ task_plan s' ->
                                        task_id t <> task_id r) new.
Proof.
  cbv zeta. unfold recovery_step.
  assert (Hid : (task_id <$> (recovery_tasks s ++ task_plan s))
                  ⊆ (task_id <$> (recovery_tasks s ++ task_plan s))
                /\ exists new,
                     recovery_tasks s = recovery_tasks s ++ new
                     /\ Forall (fun r => (task_id r ∉ completed_task_ids s)
                                  /\ forall t, t ∈ task_plan s ->
                                               task_id t <> task_id r) new).
  { split; [done|]. exists []. by rewrite app_nil_r. }
  destruct (_ && _); [|exact Hid].
  destruct (parse_pack_id item) as [p|]; [|exact Hid].
  destruct (m !! p) as [u|] eqn:Hu; [|exact Hid].
  case_bool_decide as Hc; [exact Hid|]. cbn. split.
  - intros x Hx. apply list_elem_of_fmap in Hx as (t & -> & Ht).
    apply list_elem_of_fmap.
    apply elem_of_app in Ht as [Ht|Ht].
    + exists t. split; [done|]. rewrite !elem_of_app. auto.
    + destruct (decide (task_id t = task_id u)) as [E|E].
      * exists (as_resume_extract u).
        split; [by rewrite task_id_as_resume_extract|].
        rewrite !elem_of_app. left. right. by apply list_elem_of_singleton.
      * exists t. split; [done|]. apply elem_of_app. right.
        apply list_elem_of_In, filter_In. split; [by apply list_elem_of_In|].
        by apply negb_true_iff, String.eqb_neq.
  - exists [as_resume_extract u]. split; [done|].
    apply Forall_singleton. rewrite task_id_as_resume_extract.
    split; [done|]. intros t Ht.
    apply list_elem_of_In, filter_In in Ht as [_ Ht].
    by apply negb_true_iff, String.eqb_neq in Ht.
Qed.

Lemma recovery_fold_keeps (m : gmap Z task) items : forall s,
  let s' := fold_left (recovery_step m) items s in
  (task_id <$> (recovery_tasks s ++ task_plan s))
    ⊆ (task_id <$> (recovery_tasks s' ++ task_plan s'))
  /\ exists new,
       recovery_tasks s' = recovery_tasks s ++ new
       /\ Forall (fun r => (task_id r ∉ completed_task_ids s)
                           /\ forall t, t ∈ task_plan s' ->
                                        task_id t <> task_id r) new.
Proof.
  induction items as [|item items IH]; intros s; cbn [fold_left].
  - split; [done|]. exists []. by rewrite app_nil_r.
  - cbv zeta in *.
    destruct (recovery_step_keeps m s item) as (Hi1 & n1 & Hr1 & Hf1).
    destruct (IH (recovery_step m s item)) as (Hi2 & n2 & Hr2 & Hf2).
    destruct (recovery_step_mono m s item) as (_ & _ & Hc1).
    destruct (recovery_fold_mono m items (recovery_step m s item))
      as (_ & Hp2 & _).
    cbv zeta in *. split; [by etrans|].
    exists (n1 ++ n2). rewrite Hr2, Hr1, app_assoc. split; [done|].
    apply Forall_app. split.
    + eapply Forall_impl; [exact Hf1|]. cbn. intros r [? Hne].
      split; [done|]. intros t Ht. apply Hne. by apply Hp2.
    + eapply Forall_impl; [exact Hf2|]. cbn. intros r [Hn ?].
      split; [|done]. by rewrite <- Hc1.
Qed.

(** X8. [_plan_recovery_tasks] loses no task: every task id of the
    recovery tasks and the plan is still the id of a recovery task or
    of a task of the plan afterwards. The plan only shrinks; a task
    added to the recovery tasks is a resume_extract task whose id is
    not in [completed_task_ids], and no task of that id is left in the
    plan; the completed ids are unchanged. With no session file or no
    cache directory nothing changes. *)
Theorem recovery_planning_keeps_every_task (file : option session_data)
    (listing : option (list string)) (s : state) :
  let s' := plan_recovery_tasks file listing s in
  (task_id <$> (recovery_tasks s ++ task_plan s))
    ⊆ (task_id <$> (recovery_tasks s' ++ task_plan s'))
  /\ (forall t, t ∈ task_plan s' -> t ∈ task_plan s)
  /\ (exists new,
        recovery_tasks s' = recovery_tasks s ++ new
        /\ Forall (fun r => is_resume_extract r = true
                            /\ (task_id r ∉ completed_task_ids s)
                            /\ forall t, t ∈ task_plan s' ->
                                         task_id t <> task_id r) new)
  /\ completed_task_ids s' = completed_task_ids s
  /\ (file = None \/ listing = None -> s' = s).
Proof.
  cbv zeta. unfold plan_recovery_tasks.
  assert (Hid : (task_id <$> (recovery_tasks s ++ task_plan s))
                  ⊆ (task_id <$> (recovery_tasks s ++ task_plan s))
                /\ (forall t, t ∈ task_plan s -> t ∈ task_plan s)
                /\ (exists new,
                      recovery_tasks s = recovery_tasks s ++ new
                      /\ Forall (fun r => is_resume_extract r = true
                                   /\ (task_id r ∉ completed_task_ids s)
                                   /\ forall t, t ∈ task_plan s ->
                                                task_id t <> task_id r) new)
                /\ completed_task_ids s = completed_task_ids s
                /\ (file = None \/ listing = None -> s = s)).
  { split_and!; try done. exists []. by rewrite app_nil_r. }
  destruct file as [sd|]; [|exact Hid].
  destruct listing as [items|]; [|exact Hid]. clear Hid.
  set (m := pack_id_to_task (sd_task_plan sd)).
  destruct (recovery_fold_keeps m items s) as (Hi & new & Hr & Hf).
  destruct (recovery_fold_mono m items s) as ((new' & Hr' & Hf') & Hp & Hc).
  cbv zeta in *. split_and!; try done.
  - exists new. split; [done|].
    assert (new' = new) as -> by (rewrite Hr in Hr'; by apply app_inv_head in Hr').
    apply Forall_forall. intros r Hin.
    rewrite Forall_forall in Hf, Hf'.
    destruct (Hf r Hin) as [? ?]. destruct (Hf' r Hin) as (q & u & Hu & ->).
    split_and!; try done.
    apply pack_id_to_task_is_pack in Hu. by destruct u.
  - by intros [[=]|[=]].
Qed.

(** ** The writer of the session file *)

Lemma writer_loop_app cfg before rest : forall w,
  Forall (fun x => got_of x <> GotNone) before ->
  writer_loop cfg (before ++ rest) w
  = writer_loop cfg rest (fold_left (writer_turn cfg) before w).
Proof.
  induction before as [|x before IH]; intros w Hb; cbn [app fold_left];
    [done|].
  apply Forall_cons in Hb as [Hx Hb]. cbn [writer_loop].
  unfold writer_turn at 2. destruct (got_of x); [|done|]; by rewrite IH.
Qed.

(** The file holds the ids in memory unless ids are pending. *)
Definition file_follows (sd : session_data) (w : writer) : Prop :=
  exists ids, file_holds (w_file w) sd ids
              /\ (pending_ids w = false -> ids = completed_task_ids (w_state w)).

Lemma writer_writes_holds cfg sd w ids :
  file_holds (w_file w) sd ids ->
  file_holds (w_file (writer_writes cfg DiskOk w)) sd
    (completed_task_ids (w_state w)).
Proof.
  intros (sd' & Hf & ? & ? & ? & ? & _). cbn. rewrite Hf. cbn.
  eexists. split; [done|]. cbn. split_and!; try done.
  apply list_to_set_elements_L.
Qed.

Lemma periodic_write_follows cfg sd x w :
  disk_of x = DiskOk -> file_follows sd w ->
  file_follows sd (periodic_write cfg x w)
  /\ w_state (periodic_write cfg x w) = w_state w.
Proof.
  intros Hx (ids & Hf & Hp). unfold periodic_write.
  destruct (_ && _); [|split; [by exists ids|done]].
  rewrite Hx. split; [|done]. eexists. split; [|done].
  cbn [w_file]. by apply (writer_writes_holds cfg sd w ids).
Qed.

Lemma writer_turn_follows cfg sd x w :
  disk_of x = DiskOk -> file_follows sd w ->
  file_follows sd (writer_turn cfg w x)
  /\ completed_task_ids (w_state (writer_turn cfg w x))
     = completed_task_ids (w_state w) ∪ list_to_set (ids_got [x]).
Proof.
  intros Hx Hw. unfold writer_turn, ids_got. cbn [omap list_omap].
  destruct (got_of x) as [i| |]; cbn [list_to_set foldr mbind option_bind].
  - assert (Ha : file_follows sd (writer_adds i w)).
    { destruct Hw as (ids & Hf & _). exists ids. by split. }
    destruct (periodic_write_follows cfg sd x _ Hx Ha) as [? ->].
    split; [done|]. cbn.
    by rewrite (right_id_L ∅ (∪)), (comm_L (∪)).
  - destruct (periodic_write_follows cfg sd x _ Hx Hw) as [? ->].
    split; [done|]. by rewrite (right_id_L ∅ (∪)).
  - destruct (periodic_write_follows cfg sd x _ Hx Hw) as [? ->].
    split; [done|]. by rewrite (right_id_L ∅ (∪)).
Qed.

Lemma ids_got_cons x l : ids_got (x :: l) = ids_got [x] ++ ids_got l.
Proof. unfold ids_got. cbn. by destruct (got_of x). Qed.

Lemma writer_fold_follows cfg sd before : forall w,
  Forall (fun x => disk_of x = DiskOk) before -> file_follows sd w ->
  file_follows sd (fold_left (writer_turn cfg) before w)
  /\ completed_task_ids (w_state (fold_left (writer_turn cfg) before w))
     = completed_task_ids (w_state w) ∪ list_to_set (ids_got before).
Proof.
  induction before as [|x before IH]; intros w Hd Hw; cbn [fold_left].
  - split; [done|]. cbn. by rewrite (right_id_L ∅ (∪)).
  - apply Forall_cons in Hd as [Hx Hd].
    destruct (writer_turn_follows cfg sd x w Hx Hw) as [Hw1 E1].
    destruct (IH _ Hd Hw1) as [Hw2 E2]. split; [done|].
    rewrite E2, E1, (ids_got_cons x before), list_to_set_app_L.
    by rewrite (assoc_L (∪)).
Qed.

(** X9. When the writes to the disk succeed, [_session_writer_loop]
    loses no id: started with a session file that holds the completed
    ids in memory, it leaves at the sentinel with every id taken from
    the queue added to [completed_task_ids] and to the session file,
    whose other entries are unchanged - whatever the times of the
    turns. The ids of the file are then those of
    [written_completed_ids] when the queue was that of [s]. *)
Theorem session_writer_loses_no_id (cfg : config) (start : spec_float)
    (before rest : list turn) (sentinel : turn) (s : state)
    (file : option session_data) (sd : session_data) :
  Forall (fun x => got_of x <> GotNone) before ->
  got_of sentinel = GotNone ->
  Forall (fun x => disk_of x = DiskOk) (before ++ [sentinel]) ->
  file_holds file sd (completed_task_ids s) ->
  exists w,
    session_writer_loop cfg start (before ++ sentinel :: rest) s file
    = (w, true)
    /\ completed_task_ids (w_state w)
       = completed_task_ids s ∪ list_to_set (ids_got before)
    /\ file_holds (w_file w) sd (completed_task_ids (w_state w))
    /\ (ids_got before = completed_task_queue s ->
        completed_task_ids (w_state w) = written_completed_ids s).
Proof.
  intros Hb Hs Hd Hf. apply Forall_app in Hd as [Hd Hds].
  rewrite Forall_singleton in Hds.
  unfold session_writer_loop. rewrite writer_loop_app by done.
  set (w0 := {| w_state := s; w_file := file; pending_ids := false;
                last_write_time := start |}).
  assert (H0 : file_follows sd w0) by (by exists (completed_task_ids s)).
  destruct (writer_fold_follows cfg sd before w0 Hd H0) as [Hw E].
  set (w1 := fold_left (writer_turn cfg) before w0) in *.
  cbn [writer_loop]. rewrite Hs, Hds. eexists. split; [done|].
  destruct Hw as (ids & Hh & Hp).
  destruct (pending_ids w1) eqn:Hpe.
  - split_and!; [done| |].
    + by apply (writer_writes_holds cfg sd w1 ids).
    + intros Hq. cbn. rewrite E. unfold written_completed_ids. by rewrite Hq.
  - split_and!; [done| |].
    + by rewrite <- (Hp eq_refl).
    + intros Hq. rewrite E. unfold written_completed_ids. by rewrite Hq.
Qed.

Lemma session_writer_loses_no_id_witness :
  let cfg := Config "C:\data" "D:\backup" 4 (64 * Planner.MiB) 500 300
               false false FileList.windows in
  let s := init_state false in
  let sd := SessionData "C:\data" "D:\backup" 3 [] [] in
  let start := float_of_int 100 in
  let before := [Turn (GotId "id-1") (float_of_int 101) DiskOk;
                 Turn QueueEmpty (float_of_int 107) DiskOk;
                 Turn (GotId "id-2") (float_of_int 108) DiskOk] in
  let sentinel := Turn GotNone (float_of_int 109) DiskOk in
  exists w,
    session_writer_loop cfg start (before ++ [sentinel]) s (Some sd)
    = (w, true)
    /\ completed_task_ids (w_state w)
       = completed_task_ids s ∪ list_to_set (ids_got before)
    /\ file_holds (w_file w) sd (completed_task_ids (w_state w)).
Proof.
  intros cfg s sd start before sentinel.
  destruct (session_writer_loses_no_id cfg start before [] sentinel s
              (Some sd) sd) as (w & H1 & H2 & H3 & _).
  - repeat constructor; discriminate.
  - reflexivity.
  - repeat constructor.
  - exists sd. split_and!; reflexivity.
  - exists w. split; [exact H1|]. split; [exact H2|]. exact H3.
Defined.

(** ** The session file, written and read back *)

Lemma load_session_accepted cfg sd s :
  sd_source_dir sd = source_dir cfg -> sd_target_dir sd = target_dir cfg ->
  let ids : gset string := list_to_set (sd_completed_task_ids sd) in
  exists s',
    load_session cfg (Some sd) s = (true, s')
    /\ total_transfer_size s' = sd_total_transfer_size sd
    /\ completed_task_ids s' = ids
    /\ task_plan s'
       = List.filter (fun t => negb (completed_in ids t)) (sd_task_plan sd)
    /\ processed_size s'
       = sum_task_sizes
           (List.filter (fun t => completed_in ids t
                                  && negb (is_resume_extract t))
              (sd_task_plan sd)).
Proof.
  intros Hs Ht ids. unfold load_session.
  apply String.eqb_eq in Hs, Ht. rewrite Hs, Ht. cbn [negb orb].
  set (s0 := set_task_plan [] _).
  destruct (load_fold (sd_task_plan sd) s0) as (Hp & Hsz & Hc & Htot & _).
  cbv zeta in *. set (s1 := fold_left load_step (sd_task_plan sd) s0) in *.
  change (completed_task_ids s0) with ids in *.
  change (task_plan s0) with (@nil task) in Hp.
  change (processed_size s0) with 0 in Hsz.
  change (total_transfer_size s0) with (sd_total_transfer_size sd) in Htot.
  set (s2 := if 0 <? total_transfer_size s1 then _ else s1).
  assert (Hsame : task_plan s2 = task_plan s1
                  /\ processed_size s2 = processed_size s1
                  /\ completed_task_ids s2 = completed_task_ids s1
                  /\ total_transfer_size s2 = total_transfer_size s1).
  { subst s2. destruct (0 <? total_transfer_size s1); [|done].
    by destruct (progress_of _ _). }
  destruct Hsame as (Hp2 & Hsz2 & Hc2 & Ht2).
  exists s2. rewrite Hp2, Hsz2, Hc2, Ht2, Hp, Hsz, Hc, Htot. by split_and!.
Qed.

Lemma filter_none_completed (l : list task) :
  List.filter (fun t => negb (completed_in ∅ t)) l = l
  /\ List.filter (fun t => completed_in ∅ t && negb (is_resume_extract t)) l
     = [].
Proof.
  unfold completed_in. induction l as [|t l [IH1 IH2]]; [done|]. cbn.
  rewrite bool_decide_eq_false_2 by apply not_elem_of_empty. cbn.
  by rewrite IH1, IH2.
Qed.

(** X10. The session file round trip. What [_save_session] writes,
    [_load_session] of the same directories reads back as the whole
    plan, with the total and nothing processed; and once
    [_write_session_to_disk] has added the completed ids of the memory,
    it reads back those ids, the total, the stored tasks whose id is not
    among them as the plan, and the bytes of the others as
    [processed_size]. *)
Theorem saved_session_loads_back (cfg : config) (s s' s2 : state)
    (file0 : option session_data) :
  let saved := save_session cfg SaveOk s file0 in
  let written := write_session_to_disk cfg DiskOk s' saved in
  let ids := completed_task_ids s' in
  (exists s3,
     load_session cfg saved s2 = (true, s3)
     /\ total_transfer_size s3 = total_transfer_size s
     /\ completed_task_ids s3 = ∅
     /\ task_plan s3 = task_plan s
     /\ processed_size s3 = 0)
  /\ (exists s3,
        load_session cfg written s2 = (true, s3)
        /\ total_transfer_size s3 = total_transfer_size s
        /\ completed_task_ids s3 = ids
        /\ task_plan s3
           = List.filter (fun t => negb (completed_in ids t)) (task_plan s)
        /\ processed_size s3
           = sum_task_sizes
               (List.filter (fun t => completed_in ids t
                                      && negb (is_resume_extract t))
                  (task_plan s))).
Proof.
  cbv zeta. unfold save_session, write_session_to_disk. split.
  - edestruct (load_session_accepted cfg) as (s3 & Hl & Ht & Hc & Hp & Hz);
      [| |exists s3; split; [exact Hl|]]; [done|done|].
    cbn in *. destruct (filter_none_completed (task_plan s)) as [E1 E2].
    rewrite Ht, Hc, Hp, Hz, E1, E2. by split_and!.
  - edestruct (load_session_accepted cfg) as (s3 & Hl & Ht & Hc & Hp & Hz);
      [| |exists s3; split; [exact Hl|]]; [done|done|].
    cbn in *. rewrite list_to_set_elements_L in Hc, Hp, Hz.
    by split_and!.
Qed.

(** ** The whole run *)

Lemma load_fold_pools (l : list task) : forall s,
  let s' := fold_left load_step l s in
  pending s' = pending s
  /\ completed_task_queue s' = completed_task_queue s
  /\ resume_session s' = resume_session s
  /\ recovery_tasks s' = recovery_tasks s.
Proof.
  induction l as [|t l IH]; intros s; cbn [fold_left]; [done|].
  cbv zeta in *. destruct (IH (load_step s t)) as (-> & -> & -> & ->).
  unfold load_step. case_bool_decide; [by destruct t|done].
Qed.

Lemma load_session_pools cfg file s :
  let s' := snd (load_session cfg file s) in
  pending s' = pending s
  /\ completed_task_queue s' = completed_task_queue s
  /\ resume_session s' = resume_session s.
Proof.
  cbv zeta. unfold load_session. destruct file as [sd|]; [|done].
  destruct (_ || _); [done|]. cbn [snd].
  set (s0 := set_task_plan [] _).
  destruct (load_fold_pools (sd_task_plan sd) s0) as (Hp & Hq & Hr & _).
  cbv zeta in *. set (s1 := fold_left load_step (sd_task_plan sd) s0) in *.
  assert (H : forall s2, (s2 = s1 \/ exists m p, s2 = emit m p s1) ->
            pending s2 = pending s /\ completed_task_queue s2
              = completed_task_queue s /\ resume_session s2 = resume_session s).
  { intros s2 [->|(m & p & ->)]; cbn; by rewrite ?Hp, ?Hq, ?Hr. }
  apply H. destruct (0 <? _); [|by left].
  destruct (progress_of _ _); [right; eauto|by left].
Qed.

(** A run resumes only from a session file of its two directories. *)
Lemma run_resume_resumed cfg file s :
  resume_session (run_resume cfg file s) = true ->
  exists sd s1,
    file = Some sd
    /\ sd_source_dir sd = source_dir cfg
    /\ sd_target_dir sd = target_dir cfg
    /\ load_session cfg (Some sd) s = (true, s1)
    /\ run_resume cfg file s = set_recovery_tasks [] s1.
Proof.
  unfold run_resume. destruct (resume_session s) eqn:Hr.
  - destruct (load_session cfg file s) as [[|] s1] eqn:Hl; [|done].
    intros _. destruct file as [sd|]; [|by cbn in Hl].
    exists sd, s1. split; [done|].
    assert (Hd : negb (String.eqb (sd_source_dir sd) (source_dir cfg))
                 || negb (String.eqb (sd_target_dir sd) (target_dir cfg))
                 = false).
    { unfold load_session in Hl. destruct (_ || _); [by injection Hl|done]. }
    apply orb_false_iff in Hd as [H1 H2].
    apply negb_false_iff, String.eqb_eq in H1, H2. by split_and!.
  - cbn. by rewrite Hr.
Qed.

Lemma run_resume_pools cfg file s :
  pending (run_resume cfg file s) = pending s
  /\ completed_task_queue (run_resume cfg file s) = completed_task_queue s.
Proof.
  unfold run_resume. destruct (resume_session s); [|done].
  destruct (load_session_pools cfg file s) as (Hp & Hq & _).
  cbv zeta in *. by destruct (load_session cfg file s) as [[|] s1].
Qed.

Lemma plan_recovery_tasks_pools file listing s :
  let s' := plan_recovery_tasks file listing s in
  pending s' = pending s
  /\ completed_task_queue s' = completed_task_queue s.
Proof.
  cbv zeta. unfold plan_recovery_tasks.
  destruct file as [sd|]; [|done]. destruct listing as [items|]; [|done].
  generalize (pack_id_to_task (sd_task_plan sd)). intros m. revert s.
  induction items as [|item items IH]; intros s; cbn [fold_left]; [done|].
  destruct (IH (recovery_step m s item)) as [-> ->].
  unfold recovery_step. destruct (_ && _); [|done].
  destruct (parse_pack_id item); [|done]. destruct (m !! _); [|done].
  by case_bool_decide.
Qed.

Lemma plan_recovery_tasks_keeps file listing s :
  let s' := plan_recovery_tasks file listing s in
  (task_id <$> (recovery_tasks s ++ task_plan s))
    ⊆ (task_id <$> (recovery_tasks s' ++ task_plan s'))
  /\ completed_task_ids s' = completed_task_ids s.
Proof.
  cbv zeta. unfold plan_recovery_tasks.
  destruct file as [sd|]; [|done]. destruct listing as [items|]; [|done].
  destruct (recovery_fold_keeps (pack_id_to_task (sd_task_plan sd)) items s)
    as [Hi _].
  destruct (recovery_fold_mono (pack_id_to_task (sd_task_plan sd)) items s)
    as (_ & _ & Hc).
  by split.
Qed.

Lemma scan_into_pools uuid4 shuffle cfg all_files s s2 :
  scan_into uuid4 shuffle cfg all_files s = Some s2 ->
  pending s2 = pending s
  /\ completed_task_queue s2 = completed_task_queue s
  /\ recovery_tasks s2 = recovery_tasks s.
Proof.
  unfold scan_into. destruct (Planner.scan_and_plan _ _ _ _ _ _ _)
    as [[total ps]|]; [|done].
  cbn. by intros [= <-].
Qed.

Lemma is_nil_true {A} (l : list A) : is_nil l = true -> l = [].
Proof. by destruct l. Qed.

Lemma walk_pools (entries : list (string * getsize)) :
  forall all_files s,
    let s' := snd (walk entries all_files s) in
    pending s' = pending s
    /\ completed_task_queue s' = completed_task_queue s
    /\ completed_task_ids s' = completed_task_ids s
    /\ stop_event s' = stop_event s
    /\ transfer_failed s' = transfer_failed s.
Proof.
  induction entries as [|[path g] entries IH]; intros all_files s;
    cbn [walk]; [done|].
  destruct g as [size| |e]; [|apply IH|done].
  cbv zeta in *.
  destruct (IH (all_files ++ [FileInfo path size])
              (set_total_transfer_size (total_transfer_size s + size) s))
    as (-> & -> & -> & -> & ->).
  done.
Qed.

(** What [_execute_plan] leaves when the run was not marked failed. *)
Lemma execute_plan_all_complete cfg evs heartbeat s s' e :
  pending s = ∅ ->
  execute_plan cfg evs heartbeat s = Some (s', e) ->
  completed_task_ids s' = completed_task_ids s
  /\ (e = None -> transfer_failed s' = false ->
      Forall (fun t => task_id t ∈ completed_task_queue s')
        (recovery_tasks s ++ task_plan s)).
Proof.
  intros Hp. unfold execute_plan.
  destruct (is_nil (task_plan s) && is_nil (recovery_tasks s)) eqn:Hn.
  - intros [= <- <-]. apply andb_true_iff in Hn as [H1 H2].
    apply is_nil_true in H1, H2. rewrite H1, H2. by split.
  - destruct (max_workers cfg <=? 0).
    { intros [= <- <-]. by split. }
    destruct (run_events cfg evs (execute_plan_submit s)) as [s1|] eqn:Hrun;
      [|done].
    cbn. case_bool_decide as Hd; [|done]. intros [= <- <-].
    apply dom_empty_iff_L in Hd. split.
    + clear Hd. revert Hrun.
      assert (H0 : completed_task_ids (execute_plan_submit s)
                   = completed_task_ids s).
      { unfold execute_plan_submit.
        assert (H : forall l s2, completed_task_ids (fold_left submit_main l s2)
                                 = completed_task_ids s2).
        { induction l as [|t l IH]; intros s2; cbn; [done|]. by rewrite IH. }
        by rewrite !H. }
      rewrite <- H0. generalize (execute_plan_submit s). clear H0.
      induction evs as [|ev evs IH]; intros s2 H; cbn in H.
      * by injection H as <-.
      * destruct (handle cfg ev s2) as [s3|] eqn:E; [|discriminate].
        cbn in H. rewrite (IH s3 H). by eapply handle_completed_ids.
    + intros _ Hf. by apply (run_events_all_complete cfg evs).
Qed.

Lemma finally_removes_source cfg s (before : list run_action) :
  Forall (fun a => a <> RemoveSourceDir) before ->
  RemoveSourceDir ∈ before ++ finally cfg s ->
  teardown_runs s = true /\ copy_only cfg = false.
Proof.
  intros Hb Hin. apply elem_of_app in Hin as [Hin|Hin].
  { rewrite Forall_forall in Hb. by destruct (Hb _ Hin). }
  unfold finally in Hin. apply elem_of_cons in Hin as [|Hin]; [done|].
  destruct (teardown_runs s); [|by apply elem_of_nil in Hin].
  split; [done|]. apply elem_of_cons in Hin as [|Hin]; [done|].
  destruct (copy_only cfg); [|done]. cbn in Hin.
  destruct (create_mklink cfg); [|by apply elem_of_nil in Hin].
  apply list_elem_of_singleton in Hin. done.
Qed.

Lemma teardown_runs_true s :
  teardown_runs s = true -> stop_event s = false /\ transfer_failed s = false.
Proof.
  unfold teardown_runs. intros H. apply andb_true_iff in H as [H1 H2].
  by apply negb_true_iff in H1, H2.
Qed.

(** What [_execute_plan] and the last status call leave in a run that
    no exception leaves and whose [finally] block tears down. *)
Lemma run_execute_all_complete cfg env before s2 s' acts :
  pending s2 = ∅ ->
  Forall (fun a => a <> RemoveSourceDir) before ->
  run_execute cfg env before s2 = Some (s', acts, None) ->
  RemoveSourceDir ∈ acts ->
  copy_only cfg = false
  /\ stop_event s' = false /\ transfer_failed s' = false
  /\ completed_task_ids s' = completed_task_ids s2
  /\ Forall (fun t => task_id t ∈ completed_task_queue s')
       (recovery_tasks s2 ++ task_plan s2).
Proof.
  intros Hp2 Hb Hrun Hin. unfold run_execute in Hrun.
  destruct (execute_plan cfg (env_events env) (env_heartbeat env) s2)
    as [[s3 e]|] eqn:He; [|done].
  cbn in Hrun. injection Hrun as <- <- ->.
  destruct (execute_plan_all_complete _ _ _ _ _ _ Hp2 He) as [Hc Hall].
  destruct (finally_removes_source cfg _ before Hb Hin) as [Hg Hco].
  apply teardown_runs_true in Hg as [Hs4 Hf4].
  destruct (stop_event s3) eqn:Hs3; [congruence|].
  split_and!; [done|done|done|done|]. by apply Hall.
Qed.

(** X11. In a run of [run] that no exception leaves, the source
    directory is removed only if the run is not copy-only, was not
    cancelled and has no failed task, and only when the id of every
    task it had to see complete - the tasks of the session file when it
    resumes, those of its scan when it starts afresh - is among the
    completed ids the writer thread stores. *)
Theorem source_removed_only_after_every_task (uuid4 : nat -> string)
    (shuffle : list file_info -> list file_info) (cfg : config)
    (env : run_env) (s s' : state) (acts : list run_action) :
  pending s = ∅ ->
  run uuid4 shuffle cfg env s = Some (s', acts, None) ->
  RemoveSourceDir ∈ acts ->
  copy_only cfg = false
  /\ stop_event s' = false
  /\ transfer_failed s' = false
  /\ Forall (fun t => task_id t ∈ written_completed_ids s')
       (planned_tasks uuid4 shuffle cfg env s).
Proof.
  intros Hp Hrun Hin. unfold run in Hrun. unfold planned_tasks.
  destruct (stop_event s) eqn:Hs0.
  { injection Hrun as <- <-.
    destruct (finally_removes_source cfg s [] (Forall_nil_2 _) Hin) as [Hg _].
    apply teardown_runs_true in Hg as [? _]. congruence. }
  destruct (if resume_session s then load_raises cfg (env_session env) s
            else None) as [[e0 s0]|]; [done|].
  set (file := document (env_session env)) in *.
  destruct (run_resume_pools cfg file s) as [Hp1 Hq1].
  set (s1 := run_resume cfg file s) in *.
  set (resets := resume_session s && negb (resume_session s1)) in *.
  set (reset := if resets then [RmtreeCache] else []) in *.
  assert (Hreset : Forall (fun a => a <> RemoveSourceDir) reset).
  { subst reset. destruct resets; by repeat constructor. }
  rewrite Hp in Hp1.
  destruct (if resets then env_reset env else None); [done|].
  destruct (resume_session s1) eqn:Hr1.
  - destruct (env_recovery env); [done|].
    destruct (run_resume_resumed _ _ _ Hr1)
      as (sd & sl & Hfile & Hsrc & Htgt & Hload & Hs1).
    rewrite Hfile.
    destruct (load_session_accepted cfg sd s Hsrc Htgt)
      as (sl' & Hload' & _ & Hids & Hplan & _).
    rewrite Hload in Hload'. injection Hload' as <-.
    destruct (plan_recovery_tasks_pools file (env_cache_listing env) s1)
      as [Hp2 _].
    destruct (plan_recovery_tasks_keeps file (env_cache_listing env) s1)
      as [Hkeep Hc2].
    cbv zeta in *.
    set (s2 := plan_recovery_tasks file (env_cache_listing env) s1) in *.
    destruct (run_execute_all_complete cfg env reset s2 s' acts
                ltac:(by rewrite Hp2) Hreset Hrun Hin)
      as (Hco & Hs4 & Hf4 & Hc4 & Hall).
    split_and!; [done|done|done|].
    apply Forall_forall. intros t Ht. unfold written_completed_ids.
    rewrite Hc4, Hc2.
    assert (Hc1 : completed_task_ids s1
                  = list_to_set (sd_completed_task_ids sd)).
    { unfold s1. by rewrite Hs1. }
    destruct (completed_in (list_to_set (sd_completed_task_ids sd)) t) eqn:E.
    + apply elem_of_union_l. rewrite Hc1.
      unfold completed_in in E. by apply bool_decide_eq_true in E.
    + apply elem_of_union_r, elem_of_list_to_set.
      assert (Hin1 : t ∈ task_plan s1).
      { unfold s1. rewrite Hs1. cbn. rewrite Hplan.
        apply list_elem_of_In, filter_In.
        split; [by apply list_elem_of_In|by rewrite E]. }
      assert (Hid : task_id t ∈ task_id <$> (recovery_tasks s1 ++ task_plan s1)).
      { apply list_elem_of_fmap. exists t. split; [done|].
        apply elem_of_app. by right. }
      apply Hkeep, list_elem_of_fmap in Hid as (t2 & -> & Ht2).
      rewrite Forall_forall in Hall. by apply Hall.
  - destruct (env_prepare env); [done|].
    destruct (walk_pools (env_walk env) [] (set_total_transfer_size 0 s1))
      as (Hpw & _).
    cbv zeta in Hpw.
    destruct (walk (env_walk env) [] (set_total_transfer_size 0 s1))
      as [[all_files|e1] sw]; [|done].
    cbn [snd] in Hpw.
    destruct (scan_into uuid4 shuffle cfg all_files sw) as [s2|] eqn:Hscan;
      [|done].
    destruct (scan_into_pools _ _ _ _ _ _ Hscan) as (Hp2 & _ & _).
    assert (Hpre : Forall (fun a => a <> RemoveSourceDir)
                     (reset ++ [PrepareEnvironment; SaveSession])).
    { apply Forall_app. split; [done|]. by repeat constructor. }
    destruct (is_nil (task_plan s2) && is_nil (recovery_tasks s2)) eqn:Hn.
    + injection Hrun as <- <-.
      destruct (finally_removes_source cfg (done_call s2) _ Hpre)
        as [Hg Hco]; [by rewrite <- app_assoc|].
      apply teardown_runs_true in Hg as [? ?].
      apply andb_true_iff in Hn as [Hn _]. apply is_nil_true in Hn.
      rewrite Hn. by split_and!.
    + destruct (run_execute_all_complete cfg env _ s2 s' acts
                  ltac:(by rewrite Hp2, Hpw) Hpre Hrun Hin)
        as (Hco & Hs4 & Hf4 & Hc4 & Hall).
      split_and!; [done|done|done|].
      apply Forall_app in Hall as [_ Hall].
      eapply Forall_impl; [exact Hall|]. cbn. intros t Ht.
      unfold written_completed_ids.
      by apply elem_of_union_r, elem_of_list_to_set.
Qed.

Lemma source_removed_only_after_every_task_witness :
  let cfg := Config "C:\data" "D:\backup" 4 (64 * Planner.MiB) 500 300
               false false FileList.windows in
  let uuid4 := fun k : nat => match k with O => "id-0" | _ => "id-1" end in
  let shuffle := fun l : list file_info => l in
  let env := RunEnv SessionUnreadable None None
               [("C:\data\a.txt", Size 1); ("C:\data\b.txt", Size 2)]
               None None
               [MainDone 0 (MainIO None None None);
                MainDone 1 (MainIO None None None);
                DeleteDone 2 None false None None;
                DeleteDone 3 None false None None]
               None in
  let acts := [PrepareEnvironment; SaveSession; StopWriter; Cleanup;
               RemoveSourceDir] in
  exists s',
    run uuid4 shuffle cfg env (init_state false) = Some (s', acts, None)
    /\ Forall (fun t => task_id t ∈ written_completed_ids s')
         (planned_tasks uuid4 shuffle cfg env (init_state false)).
Proof.
  intros cfg uuid4 shuffle env acts.
  assert (E : exists s', run uuid4 shuffle cfg env (init_state false)
                         = Some (s', acts, None)).
  { vm_compute. eexists. reflexivity. }
  destruct E as (s' & E).
  assert (Hp : pending (init_state false) = ∅) by reflexivity.
  assert (Hin : RemoveSourceDir ∈ acts).
  { do 4 apply list_elem_of_further. apply list_elem_of_here. }
  exists s'. split; [exact E|].
  exact (proj2 (proj2 (proj2
           (source_removed_only_after_every_task uuid4 shuffle cfg env
              (init_state false) s' acts Hp E Hin)))).
Defined.

(** The steps of a run end with its [finally] block. *)
Lemma run_ends_with_finally uuid4 shuffle cfg env s s' acts raised :
  run uuid4 shuffle cfg env s = Some (s', acts, raised) ->
  exists before, acts = before ++ finally cfg s'.
Proof.
  assert (Hex : forall before s2,
            run_execute cfg env before s2 = Some (s', acts, raised) ->
            exists before, acts = before ++ finally cfg s').
  { intros before s2 H. unfold run_execute in H.
    destruct (execute_plan _ _ _ _) as [[s3 e]|]; [|done].
    cbn in H. injection H as <- <- <-. by exists before. }
  unfold run. intros Hrun.
  destruct (stop_event s).
  { injection Hrun as <- <- <-. by exists []. }
  destruct (if resume_session s then _ else _) as [[e0 s0]|].
  { injection Hrun as <- <- <-. by exists []. }
  set (s1 := run_resume _ _ _) in *.
  set (reset := if _ && _ then [RmtreeCache] else []) in *.
  destruct (if _ && _ then env_reset env else None).
  { injection Hrun as <- <- <-. by exists reset. }
  destruct (resume_session s1).
  - destruct (env_recovery env).
    { injection Hrun as <- <- <-. by exists reset. }
    by eapply Hex.
  - destruct (env_prepare env).
    { injection Hrun as <- <- <-. exists (reset ++ [PrepareEnvironment]).
      by rewrite <- app_assoc. }
    destruct (walk _ _ _) as [[all_files|e1] sw].
    2:{ injection Hrun as <- <- <-. exists (reset ++ [PrepareEnvironment]).
        by rewrite <- app_assoc. }
    destruct (scan_into _ _ _ _ _) as [s2|].
    2:{ injection Hrun as <- <- <-. exists (reset ++ [PrepareEnvironment]).
        by rewrite <- app_assoc. }
    destruct (is_nil (task_plan s2) && is_nil (recovery_tasks s2)).
    + injection Hrun as <- <- <-.
      exists (reset ++ [PrepareEnvironment; SaveSession]).
      by rewrite <- app_assoc.
    + by eapply Hex.
Qed.

(** X13. An exception that leaves the [try] block of [run] does not
    keep the source directory: unless the run was cancelled, has a
    failed task or is copy-only, the [finally] block cleans up and
    removes the source directory, whatever the run had done by then. *)
Theorem exception_does_not_keep_source (uuid4 : nat -> string)
    (shuffle : list file_info -> list file_info) (cfg : config)
    (env : run_env) (s s' : state) (acts : list run_action) (e : exn) :
  run uuid4 shuffle cfg env s = Some (s', acts, Some e) ->
  stop_event s' = false ->
  transfer_failed s' = false ->
  copy_only cfg = false ->
  Cleanup ∈ acts /\ RemoveSourceDir ∈ acts.
Proof.
  intros Hrun Hs Hf Hc.
  destruct (run_ends_with_finally _ _ _ _ _ _ _ _ Hrun) as [before ->].
  unfold finally, teardown_runs. rewrite Hs, Hf, Hc. cbn.
  split; apply elem_of_app; right.
  - apply list_elem_of_further, list_elem_of_here.
  - do 2 apply list_elem_of_further. apply list_elem_of_here.
Qed.

Lemma exception_does_not_keep_source_witness :
  let cfg := Config "C:\data" "D:\backup" 4 (64 * Planner.MiB) 500 300
               false false FileList.windows in
  let uuid4 := fun k : nat => match k with O => "id-0" | _ => "id-1" end in
  let shuffle := fun l : list file_info => l in
  let env := RunEnv SessionUnreadable None (Some OSError)
               [("C:\data\a.txt", Size 1); ("C:\data\b.txt", Size 2)]
               None None [] None in
  let acts := [PrepareEnvironment; StopWriter; Cleanup; RemoveSourceDir] in
  run uuid4 shuffle cfg env (init_state false)
    = Some (init_state false, acts, Some OSError)
  /\ written_completed_ids (init_state false) = ∅
  /\ Cleanup ∈ acts /\ RemoveSourceDir ∈ acts.
Proof.
  intros cfg uuid4 shuffle env acts.
  assert (E : run uuid4 shuffle cfg env (init_state false)
              = Some (init_state false, acts, Some OSError))
    by (vm_compute; reflexivity).
  split; [exact E|]. split; [reflexivity|].
  exact (exception_does_not_keep_source uuid4 shuffle cfg env
           (init_state false) (init_state false) acts OSError E
           eq_refl eq_refl eq_refl).
Defined.

(** ** Exact accounts *)

Lemma registered_same_pools s s' :
  same_pools s s' -> registered s -> registered s'.
Proof. intros (Hp & Ha & _). unfold registered. by rewrite Hp, Ha. Qed.

Lemma registered_active_None s fut :
  registered s ->
  match pending s !! fut with
  | Some (DeleteSourceFiles _ _) | None => True
  | _ => False
  end ->
  active_futures s !! fut = None.
Proof.
  intros Hr Hj. destruct (active_futures s !! fut) as [t|] eqn:Ha; [|done].
  specialize (Hr _ _ Ha). by destruct (pending s !! fut) as [[]|].
Qed.

Lemma registered_callback_size s fut t j :
  registered s -> active_futures s !! fut = Some t ->
  pending s !! fut = Some j -> callback_size j = 0.
Proof.
  intros Hr Ha Hj. specialize (Hr _ _ Ha). rewrite Hj in Hr.
  by destruct j.
Qed.

Lemma sum_over_delete_eq {A} (f : A -> Z) (m : gmap nat A) k :
  sum_over f (delete k m)
  = sum_over f m - match m !! k with Some a => f a | None => 0 end.
Proof.
  destruct (m !! k) as [a|] eqn:Hk.
  - rewrite (sum_over_delete f m k a Hk). lia.
  - rewrite delete_id by done. lia.
Qed.

Lemma fresh_next_None s :
  fresh_futures s ->
  pending s !! next_future s = None /\ active_futures s !! next_future s = None.
Proof.
  intros [Hp Ha]. split.
  - destruct (pending s !! next_future s) eqn:E; [|done].
    apply Hp in E. lia.
  - destruct (active_futures s !! next_future s) eqn:E; [|done].
    apply Ha in E. lia.
Qed.

(** The pools after a future is done, to the byte. *)
Lemma pools_after_balance fut extra pops s j :
  fresh_futures s -> registered s -> without_callback extra ->
  pending s !! fut = Some j ->
  (pops = true \/ active_futures s !! fut = None) ->
  let s' := pools_after fut extra pops s in
  registered s'
  /\ owed s'
     = owed s - callback_size j
       - match active_futures s !! fut with
         | Some t => task_size t
         | None => 0
         end.
Proof.
  intros Hfr Hr Hex Hj Hpops. cbv zeta.
  destruct (fresh_next_None s Hfr) as [Hnp Hna].
  unfold registered, owed.
  destruct (pools_after_fields fut extra pops s) as (-> & -> & _).
  assert (Hn : delete fut (pending s) !! next_future s = None).
  { apply lookup_delete_None. by right. }
  assert (Hps : sum_over callback_size
                  match extra with
                  | Some j' => <[next_future s := j']> (delete fut (pending s))
                  | None => delete fut (pending s)
                  end
                = sum_over callback_size (pending s) - callback_size j).
  { assert (Hd : sum_over callback_size (delete fut (pending s))
                 = sum_over callback_size (pending s) - callback_size j).
    { rewrite (sum_over_delete callback_size (pending s) fut j Hj). lia. }
    destruct extra as [j'|]; [|done]. destruct (Hex j' eq_refl) as [paths ->].
    by rewrite sum_over_insert, Hd. }
  rewrite Hps.
  assert (Has : sum_over task_size
                  (if pops then delete fut (active_futures s)
                   else active_futures s)
                = sum_over task_size (active_futures s)
                  - match active_futures s !! fut with
                    | Some t => task_size t
                    | None => 0
                    end).
  { destruct pops; [apply sum_over_delete_eq|].
    destruct Hpops as [?| ->]; [done|lia]. }
  rewrite Has. split; [|lia].
  intros f t Hf.
  assert (Hne : f <> fut).
  { intros ->. destruct pops.
    - by rewrite lookup_delete_eq in Hf.
    - destruct Hpops as [|E]; [done|]. congruence. }
  assert (Hf' : active_futures s !! f = Some t).
  { destruct pops; [by rewrite lookup_delete_ne in Hf|done]. }
  assert (Hnn : f <> next_future s).
  { intros ->. congruence. }
  specialize (Hr _ _ Hf').
  destruct extra; rewrite ?lookup_insert_ne by done;
    by rewrite lookup_delete_ne.
Qed.

(** A main future that hands its task over, to the byte. *)
Lemma handed_over_balance fut j track t s :
  fresh_futures s -> registered s -> carries_on j track t ->
  active_futures s !! fut = Some t ->
  let s' := handed_over fut j track t s in
  registered s' /\ owed s' = owed s.
Proof.
  intros Hfr Hr Hj Ht. cbv zeta.
  destruct (fresh_next_None s Hfr) as [Hnp Hna].
  pose proof (Hr _ _ Ht) as Hjob.
  destruct (pending s !! fut) as [j0|] eqn:Hj0; [|done].
  assert (Hc0 : callback_size j0 = 0) by (by destruct j0).
  unfold registered, owed.
  destruct (handed_over_fields fut j track t s) as (-> & -> & _).
  assert (Hn : delete fut (pending s) !! next_future s = None).
  { apply lookup_delete_None. by right. }
  assert (Hn' : delete fut (active_futures s) !! next_future s = None).
  { apply lookup_delete_None. by right. }
  rewrite sum_over_insert by done.
  assert (Hd : sum_over callback_size (delete fut (pending s))
               = sum_over callback_size (pending s)).
  { rewrite (sum_over_delete callback_size (pending s) fut j0 Hj0). lia. }
  assert (Hd' : sum_over task_size (delete fut (active_futures s))
                = sum_over task_size (active_futures s) - task_size t).
  { rewrite (sum_over_delete task_size (active_futures s) fut t Ht). lia. }
  assert (Hreg : forall f u, f <> next_future s ->
            delete fut (active_futures s) !! f = Some u ->
            match <[next_future s := j]> (delete fut (pending s)) !! f with
            | Some (ProcessMainTask _) | Some (CleanupCacheOnly _)
            | Some (CleanupEmptyDirs _) => True
            | _ => False
            end).
  { intros f u Hfn Hf. apply lookup_delete_Some in Hf as [Hne Hf].
    rewrite lookup_insert_ne by done. rewrite lookup_delete_ne by done.
    by apply (Hr f u). }
  destruct j as [?|paths [[u cf]|]|?|?]; cbn in Hj; try done.
  - destruct Hj as [-> ->]. cbn. split; [|lia].
    intros f u0 Hf. apply Hreg with u0; [|done]. intros ->. congruence.
  - subst track. cbn. rewrite sum_over_insert by done. split; [|lia].
    intros f u0 Hf.
    destruct (decide (f = next_future s)) as [->|Hne];
      [by rewrite lookup_insert_eq|].
    rewrite lookup_insert_ne in Hf by done. by apply Hreg with u0.
  - subst track. cbn. rewrite sum_over_insert by done. split; [|lia].
    intros f u0 Hf.
    destruct (decide (f = next_future s)) as [->|Hne];
      [by rewrite lookup_insert_eq|].
    rewrite lookup_insert_ne in Hf by done. by apply Hreg with u0.
Qed.

Lemma live_registered s fut t :
  registered s -> live s fut t ->
  exists j, pending s !! fut = Some j
            /\ (active_futures s !! fut = Some t /\ callback_size j = 0
                \/ active_futures s !! fut = None /\ callback_size j = task_size t).
Proof.
  intros Hr. unfold live.
  destruct (pending s !! fut) as [j|] eqn:Hj; [|done]. intros Hl.
  exists j. split; [done|].
  destruct j as [?|paths [[u cf]|]|?|?]; try done; try (left; by split).
  subst u. right. split; [|done]. apply registered_active_None; [done|].
  by rewrite Hj.
Qed.

(** Every event keeps the accounts exact. *)
Lemma handle_balanced cfg ev s s' total :
  balanced total s -> handle cfg ev s = Some s' -> balanced total s'.
Proof.
  intros (Hfr & Hr & Hb) H. pose proof (handle_fresh _ _ _ _ Hfr H) as Hfr'.
  pose proof (handle_transfer_failed _ _ _ _ H) as Hfail.
  apply handle_shape in H.
  destruct H as [?|fut extra pops _ [j Hj] Hnl Hex|fut t j track _ _ Ha Hj
                 |fut t pops _ Hl Hown|fut t extra pops _ Hl Hown Hex].
  - by split_and!.
  - assert (Hn : active_futures s !! fut = None).
    { destruct (active_futures s !! fut) as [t|] eqn:Ha; [|done].
      exfalso. apply (Hnl t). unfold live. rewrite Hj.
      specialize (Hr _ _ Ha). rewrite Hj in Hr. by destruct j. }
    assert (Hc : callback_size j = 0).
    { destruct j as [?|paths [[u cf]|]|?|?]; try done.
      exfalso. apply (Hnl u). unfold live. by rewrite Hj. }
    destruct (pools_after_balance fut extra pops s j Hfr Hr Hex Hj
                ltac:(by right)) as [Hr' Ho].
    cbv zeta in *. rewrite Hn, Hc in Ho.
    split_and!; [done|done|]. destruct Hb as [Hf|Hb]; [left; auto|].
    right. destruct (pools_after_fields fut extra pops s)
      as (_ & _ & _ & -> & _). lia.
  - destruct (handed_over_balance fut j track t s Hfr Hr Hj Ha) as [Hr' Ho].
    cbv zeta in *. split_and!; [done|done|].
    destruct Hb as [Hf|Hb]; [left; auto|]. right. rewrite Ho. exact Hb.
  - destruct (live_registered s fut t Hr Hl) as (j & Hj & Hcase).
    assert (Hpops : pops = true \/ active_futures s !! fut = None).
    { destruct pops; [by left|right]. destruct Hown as (paths & cf & Hd).
      apply registered_active_None; [done|]. by rewrite Hd. }
    destruct (pools_after_balance fut None pops s j Hfr Hr
                ltac:(by intros ? [=]) Hj Hpops) as [Hr' Ho].
    cbv zeta in *. set (s1 := pools_after fut None pops s) in *.
    destruct (finish_effect t s1) as (Hsame & _ & _ & Hc).
    destruct (pools_after_fields fut None pops s)
      as (_ & _ & _ & Hp1 & _).
    cbv zeta in *. fold s1 in Hp1.
    split_and!; [done|by apply (registered_same_pools s1)|].
    destruct Hb as [Hf|Hb]; [left; auto|].
    destruct Hc as [(_ & Hp & _)|(? & _)]; [|by left]. right.
    rewrite (owed_same_pools _ _ Hsame), Hp, Hp1, Ho.
    destruct Hcase as [[-> ->]|[-> ->]]; lia.
  - destruct (live_registered s fut t Hr Hl) as (j & Hj & Hcase).
    assert (Hpops : pops = true \/ active_futures s !! fut = None).
    { destruct pops; [by left|right]. destruct Hown as (paths & cf & Hd).
      apply registered_active_None; [done|]. by rewrite Hd. }
    destruct (pools_after_balance fut extra pops s j Hfr Hr Hex Hj Hpops)
      as [Hr' _].
    destruct (on_failure_effect t (pools_after fut extra pops s))
      as (Hsame & Hfl & _).
    cbv zeta in *. split_and!; [done| |by left].
    by apply (registered_same_pools (pools_after fut extra pops s)).
Qed.

Lemma fold_submit_main_balance l : forall s,
  fresh_futures s -> registered s ->
  let s' := fold_left submit_main l s in
  fresh_futures s' /\ registered s'
  /\ owed s' = sum_task_sizes l + owed s
  /\ processed_size s' = processed_size s
  /\ transfer_failed s' = transfer_failed s
  /\ task_plan s' = task_plan s.
Proof.
  induction l as [|t l IH]; intros s Hf Hr;
    cbn [fold_left sum_task_sizes foldr]; [by split_and!|].
  destruct (fresh_next_None s Hf) as [Hnp Hna].
  assert (Hf' := fresh_submit_main s t Hf).
  assert (Hr' : registered (submit_main s t)).
  { intros f u Hu. cbn in *.
    destruct (decide (f = next_future s)) as [->|Hne];
      [by rewrite lookup_insert_eq|].
    rewrite lookup_insert_ne in Hu by done.
    rewrite lookup_insert_ne by done. by apply (Hr f u). }
  assert (Ho : owed (submit_main s t) = task_size t + owed s).
  { unfold owed. cbn. rewrite !sum_over_insert by done. cbn. lia. }
  destruct (IH (submit_main s t) Hf' Hr') as (? & ? & Ho' & ? & ? & ?).
  cbv zeta. split_and!; try done. rewrite Ho', Ho.
  unfold sum_task_sizes. lia.
Qed.

(** X12. A run that ends with every future done and no task failed has
    credited every task exactly once: [processed_size] has grown by the
    bytes of the recovery tasks and of the plan. When these, with what
    the session had credited, make up a positive
    [total_transfer_size], the progress value at the end is exactly
    100. *)
Theorem unfailed_run_credits_every_byte (cfg : config) (evs : list event)
    (s0 s : state) :
  pending s0 = ∅ ->
  transfer_failed s0 = false ->
  run_events cfg evs (execute_plan_submit s0) = Some s ->
  pending s = ∅ ->
  transfer_failed s = false ->
  processed_size s
  = processed_size s0 + sum_task_sizes (recovery_tasks s0 ++ task_plan s0)
  /\ (0 < total_transfer_size s0 ->
      total_transfer_size s0
      = processed_size s0
        + sum_task_sizes (recovery_tasks s0 ++ task_plan s0) ->
      progress_of (processed_size s) (total_transfer_size s)
      = Some (float_of_int 100)).
Proof.
  intros Hp Hf0 Hrun Hdone Hf.
  set (total := processed_size s0
                + sum_task_sizes (recovery_tasks s0 ++ task_plan s0)).
  assert (H0 : balanced total (execute_plan_submit s0)).
  { unfold execute_plan_submit. set (s1 := set_active_futures ∅ s0).
    assert (Hf1 : fresh_futures s1).
    { split; cbn; intros k x; [rewrite Hp|]; by rewrite lookup_empty. }
    assert (Hr1 : registered s1).
    { intros k x. cbn. by rewrite lookup_empty. }
    assert (Ho1 : owed s1 = 0).
    { unfold owed. cbn. rewrite Hp. by rewrite !sum_over_empty. }
    destruct (fold_submit_main_balance (recovery_tasks s1) s1 Hf1 Hr1)
      as (Hf2 & Hr2 & Ho2 & Hp2 & Hx2 & Hpl2).
    cbv zeta in *. rewrite Hpl2.
    destruct (fold_submit_main_balance (task_plan s1) _ Hf2 Hr2)
      as (Hf3 & Hr3 & Ho3 & Hp3 & Hx3 & _).
    cbv zeta in *. split_and!; [done|done|]. right.
    rewrite Hp3, Hp2, Ho3, Ho2, Ho1. subst total.
    rewrite sum_task_sizes_app. cbn [processed_size set_active_futures
      task_plan recovery_tasks s1]. unfold s1. cbn. unfold sum_task_sizes.
    lia. }
  assert (Hb : balanced total s).
  { revert Hrun H0. generalize (execute_plan_submit s0).
    induction evs as [|ev evs IH]; intros s1 H H1; cbn in H.
    - by injection H as <-.
    - destruct (handle cfg ev s1) as [s2|] eqn:E; [|discriminate].
      cbn in H. apply (IH s2 H). by eapply handle_balanced. }
  destruct Hb as (_ & Hr & [?|Hb]); [congruence|].
  assert (Ha : active_futures s = ∅).
  { apply map_empty. intros k.
    destruct (active_futures s !! k) as [t|] eqn:E; [|done].
    specialize (Hr _ _ E). by rewrite Hdone, lookup_empty in Hr. }
  assert (Ho : owed s = 0).
  { unfold owed. rewrite Ha, Hdone. by rewrite !sum_over_empty. }
  split; [lia|]. intros Hpos Heq.
  rewrite (run_events_total _ _ _ _ Hrun), execute_plan_submit_total.
  replace (processed_size s) with (total_transfer_size s0) by (fold total in Heq; lia).
  by apply progress_of_all_done.
Qed.

Lemma unfailed_run_credits_every_byte_witness :
  let cfg := Config "C:\data" "D:\backup" 4 (64 * Planner.MiB) 500 300
               false false FileList.windows in
  let t1 := MoveLarge "id-1" (FileInfo "C:\data\big.bin" 1) in
  let t2 := Pack "id-2" 1 [FileInfo "C:\data\a.txt" 2] in
  let s0 := set_task_plan [t1; t2]
              (set_total_transfer_size 3 (init_state false)) in
  let evs := [MainDone 1 (MainIO None None None);
              MainDone 0 (MainIO None None None);
              DeleteDone 2 None false None None; CleanupDone 3 None] in
  exists s,
    run_events cfg evs (execute_plan_submit s0) = Some s
    /\ processed_size s = 3
    /\ progress_of (processed_size s) (total_transfer_size s)
       = Some (float_of_int 100).
Proof.
  intros cfg t1 t2 s0 evs.
  assert (E : exists s, run_events cfg evs (execute_plan_submit s0) = Some s
                        /\ pending s = ∅
                        /\ transfer_failed s = false).
  { vm_compute. eexists. split_and!; reflexivity. }
  destruct E as (s & E1 & E2 & E3).
  assert (Hp : pending s0 = ∅) by (vm_compute; reflexivity).
  assert (Hf : transfer_failed s0 = false) by (vm_compute; reflexivity).
  assert (Hs : processed_size s0
               + sum_task_sizes (recovery_tasks s0 ++ task_plan s0) = 3)
    by (vm_compute; reflexivity).
  assert (Ht : total_transfer_size s0 = 3) by (vm_compute; reflexivity).
  destruct (unfailed_run_credits_every_byte cfg evs s0 s Hp Hf E1 E2 E3)
    as [H1 H2].
  exists s. split; [exact E1|]. split.
  - exact (eq_trans H1 Hs).
  - apply H2.
    + assert (Hpos : 0 < 3) by reflexivity.
      exact (eq_ind_r (fun z => 0 < z) Hpos Ht).
    + exact (eq_trans Ht (eq_sym Hs)).
Defined.

(** * The progress values of a whole run *)

(** ** The bytes of a plan *)

Lemma sum_sizes_perm l l' : l ≡ₚ l' -> sum_sizes l = sum_sizes l'.
Proof.
  induction 1 as [|x l l' _ IH|x y l|l l' l'' _ IH1 _ IH2];
    unfold sum_sizes in *; cbn [foldr]; lia.
Qed.

Lemma sum_sizes_filter (P : file_info -> bool) l :
  sum_sizes (List.filter P l) + sum_sizes (List.filter (fun f => negb (P f)) l)
  = sum_sizes l.
Proof.
  induction l as [|x l IH]; [done|]. cbn [List.filter].
  destruct (P x); unfold sum_sizes in *; cbn [foldr negb]; lia.
Qed.

Lemma sum_sizes_nonneg l : Forall (fun f => 0 <= size f) l -> 0 <= sum_sizes l.
Proof. induction 1; unfold sum_sizes in *; cbn [foldr]; lia. Qed.

Lemma sum_task_sizes_move_large uuid4 fs : forall k,
  sum_task_sizes (move_large_tasks uuid4 k fs) = sum_sizes fs.
Proof.
  induction fs as [|f fs IH]; intros k; [done|].
  rewrite move_large_tasks_cons.
  change (sum_task_sizes (?t :: ?l)) with (task_size t + sum_task_sizes l).
  rewrite IH. unfold sum_sizes. cbn [foldr task_size]. done.
Qed.

Lemma sum_task_sizes_pack uuid4 k chunks :
  sum_task_sizes (pack_tasks uuid4 k chunks) = sum_sizes (concat chunks).
Proof.
  induction chunks as [|c chunks IH] using rev_ind; [done|].
  rewrite pack_tasks_snoc, sum_task_sizes_app, IH, concat_app, sum_sizes_app.
  cbn [concat]. rewrite app_nil_r. unfold sum_task_sizes. cbn [foldr task_size].
  lia.
Qed.

(** What a scan plans carries the bytes of the scan, in pack and
    move_large tasks. *)
Lemma scan_and_plan_bytes uuid4 shuffle W limit cfl all_files total ps :
  (forall l, shuffle l ≡ₚ l) ->
  Forall (fun f => 0 <= size f) all_files ->
  Planner.scan_and_plan uuid4 shuffle W limit cfl all_files
    (Planner.PlanState [] 0) = Some (total, ps) ->
  sum_task_sizes (Planner.task_plan ps) = total
  /\ Forall (fun t => 0 <= task_size t) (Planner.task_plan ps)
  /\ Forall (fun t => is_resume_extract t = false) (Planner.task_plan ps).
Proof.
  intros Hperm Hpos Hscan.
  destruct (decide (all_files = [])) as [->|Hne].
  { cbn in Hscan. injection Hscan as <- <-. by split_and!. }
  destruct (scan_and_plan_spec uuid4 shuffle W limit cfl all_files
              (Planner.PlanState [] 0) Hne)
    as (avg & thr & chunks & _ & _ & _ & _ & Hplan & Hcat & _).
  cbv zeta in *. rewrite Hplan in Hscan. injection Hscan as <- <-.
  cbn [Planner.task_plan Planner.uuid_calls app].
  split_and!.
  - rewrite sum_task_sizes_app, sum_task_sizes_move_large,
      sum_task_sizes_pack, Hcat, (sum_sizes_perm _ _ (Hperm _)).
    rewrite sum_sizes_filter. by rewrite total_size_sum_sizes.
  - apply Forall_app. split; apply Forall_forall; intros t Ht.
    + apply elem_of_move_large_tasks in Ht as (i & fi & -> & Hi). cbn.
      apply list_elem_of_lookup_2 in Hi.
      apply list_elem_of_In, filter_In in Hi as [Hi _].
      by apply (proj1 (Forall_forall _ _) Hpos), list_elem_of_In.
    + apply elem_of_pack_tasks in Ht as (i & c & -> & Hi). cbn.
      apply sum_sizes_nonneg, Forall_forall. intros f Hf.
      assert (Hin : f ∈ concat chunks).
      { apply list_elem_of_In, in_concat. exists c.
        split; apply list_elem_of_In; [|done].
        by eapply list_elem_of_lookup_2. }
      rewrite Hcat, (Hperm _) in Hin.
      apply list_elem_of_In, filter_In in Hin as [Hin _].
      by apply (proj1 (Forall_forall _ _) Hpos), list_elem_of_In.
  - apply Forall_app. split; apply Forall_forall; intros t Ht.
    + by apply elem_of_move_large_tasks in Ht as (i & fi & -> & _).
    + by apply elem_of_pack_tasks in Ht as (i & c & -> & _).
Qed.

(** ** The bytes of a resumed run *)

Lemma sum_task_sizes_cons t l :
  sum_task_sizes (t :: l) = task_size t + sum_task_sizes l.
Proof. reflexivity. Qed.

Lemma sum_task_sizes_partition (P : task -> bool) l :
  sum_task_sizes (List.filter P l)
  + sum_task_sizes (List.filter (fun t => negb (P t)) l)
  = sum_task_sizes l.
Proof.
  induction l as [|t l IH]; [done|]. cbn [List.filter].
  destruct (P t); cbn [negb]; rewrite !sum_task_sizes_cons; lia.
Qed.

(** What [self] holds once a session is resumed. *)
Lemma run_resume_accounts cfg file s :
  resume_session (run_resume cfg file s) = true ->
  exists sd,
    file = Some sd
    /\ let s1 := run_resume cfg file s in
       let ids : gset string := list_to_set (sd_completed_task_ids sd) in
       total_transfer_size s1 = sd_total_transfer_size sd
       /\ completed_task_ids s1 = ids
       /\ task_plan s1
          = List.filter (fun t => negb (completed_in ids t)) (sd_task_plan sd)
       /\ processed_size s1
          = sum_task_sizes
              (List.filter (fun t => completed_in ids t
                                     && negb (is_resume_extract t))
                 (sd_task_plan sd))
       /\ recovery_tasks s1 = [].
Proof.
  intros Hr.
  destruct (run_resume_resumed cfg file s Hr)
    as (sd & s1 & -> & Hsrc & Htgt & Hload & Heq).
  exists sd. split; [done|]. cbv zeta. rewrite Heq.
  destruct (load_session_accepted cfg sd s Hsrc Htgt)
    as (s1' & Hload' & Ht & Hc & Hp & Hz).
  rewrite Hload in Hload'. injection Hload' as <-. by split_and!.
Qed.

Lemma pack_id_to_task_elem plan p t :
  pack_id_to_task plan !! p = Some t ->
  t ∈ plan /\ exists i fs, t = Pack i p fs.
Proof.
  unfold pack_id_to_task.
  assert (H : forall m : gmap Z task,
    (forall q u, m !! q = Some u -> False) \/ True ->
    fold_left index_pack plan m !! p = Some t ->
    (m !! p = Some t) \/ (t ∈ plan /\ exists i fs, t = Pack i p fs)).
  { induction plan as [|u plan IH]; intros m Hm; cbn [fold_left]; [by left|].
    intros Hf. destruct (IH _ (or_intror I) Hf) as [Hl|[Hin Hex]].
    - destruct u as [i q fs|i fi|i q fs]; cbn in Hl; [|by left|by left].
      rewrite lookup_insert in Hl. case_decide as Hq; [|by left].
      injection Hl as <-. subst q. right. split; [apply list_elem_of_here|].
      eauto.
    - right. split; [by apply list_elem_of_further|done]. }
  intros Hf. destruct (H ∅ (or_intror I) Hf) as [Hl|?]; [|done].
  by rewrite lookup_empty in Hl.
Qed.

(** Taking the one task of a given id out of a plan. *)
Lemma sum_task_sizes_remove l t :
  NoDup (task_id <$> l) -> t ∈ l ->
  sum_task_sizes
    (List.filter (fun u => negb (String.eqb (task_id u) (task_id t))) l)
  = sum_task_sizes l - task_size t.
Proof.
  induction l as [|u l IH]; intros Hnd Hin; [by apply elem_of_nil in Hin|].
  rewrite fmap_cons in Hnd. apply NoDup_cons in Hnd as [Hu Hnd].
  cbn [List.filter]. apply elem_of_cons in Hin as [<-|Hin].
  - rewrite String.eqb_refl. cbn [negb]. rewrite sum_task_sizes_cons.
    assert (Hall : List.filter
                     (fun u => negb (String.eqb (task_id u) (task_id t))) l
                   = l).
    { clear -Hu. induction l as [|v l IH]; [done|]. cbn [List.filter].
      rewrite fmap_cons in Hu. apply not_elem_of_cons in Hu as [Hne Hu].
      destruct (String.eqb_spec (task_id v) (task_id t)); [congruence|].
      cbn [negb]. by rewrite IH. }
    rewrite Hall. lia.
  - destruct (String.eqb_spec (task_id u) (task_id t)) as [E|_].
    + exfalso. apply Hu. rewrite E. by apply list_elem_of_fmap_2.
    + cbn [negb]. rewrite !sum_task_sizes_cons, IH by done. lia.
Qed.

Lemma NoDup_fmap_filter {A B} (f : A -> B) (P : A -> bool) l :
  NoDup (f <$> l) -> NoDup (f <$> List.filter P l).
Proof.
  induction l as [|x l IH]; [done|]. rewrite fmap_cons. intros Hnd.
  apply NoDup_cons in Hnd as [Hx Hnd]. cbn [List.filter].
  destruct (P x); [|by apply IH]. rewrite fmap_cons.
  apply NoDup_cons. split; [|by apply IH].
  intros Hin. apply Hx. apply list_elem_of_fmap in Hin as (y & -> & Hy).
  apply list_elem_of_fmap_2. apply list_elem_of_In, filter_In in Hy as [Hy _].
  by apply list_elem_of_In.
Qed.

Lemma task_size_as_resume_extract t :
  task_size (as_resume_extract t) = task_size t.
Proof. by destruct t. Qed.

Lemma listed_pack_id_archive_name p :
  listed_pack_id (archive_name p) = Some p.
Proof.
  unfold listed_pack_id. by destruct (parse_archive_name p) as (-> & -> & ->).
Qed.

(** In such a listing no two names give the same pack id. *)
Lemma engine_cache_NoDup items :
  engine_cache items -> NoDup (omap listed_pack_id items).
Proof.
  intros [Hnd Hall]. induction Hall as [|item items Hitem Hall IH].
  - constructor.
  - apply NoDup_cons in Hnd as [Hfresh Hnd].
    change (omap listed_pack_id (item :: items))
      with (match listed_pack_id item with
            | Some p => p :: omap listed_pack_id items
            | None => omap listed_pack_id items
            end).
    destruct (listed_pack_id item) as [p|] eqn:Hp; [|by apply IH].
    apply NoDup_cons. split; [|by apply IH]. intros Hin.
    apply list_elem_of_omap in Hin as (item' & Hin' & Hp').
    assert (Hname : forall x q, listed_pack_id x = Some q ->
              (PyStr.startswith x "pack_" && PyStr.endswith x ".7z" = true ->
               exists r, x = archive_name r) -> x = archive_name q).
    { intros x q Hq Hx. unfold listed_pack_id in Hq.
      destruct (PyStr.startswith x "pack_" && PyStr.endswith x ".7z");
        [|discriminate].
      destruct (Hx eq_refl) as [r ->].
      destruct (parse_archive_name r) as (_ & _ & Hr). congruence. }
    apply Hfresh. rewrite (Hname item p Hp Hitem).
    rewrite <- (Hname item' p Hp'); [done|].
    by apply (proj1 (Forall_forall _ _) Hall).
Qed.

(** With at most one archive per pack id in the cache directory and
    distinct task ids, [_plan_recovery_tasks] moves tasks from the plan
    to the recovery list: no byte is added and none is lost. *)
Lemma recovery_fold_bytes (m : gmap Z task) items : forall s,
  NoDup (omap listed_pack_id items) ->
  NoDup (task_id <$> task_plan s) ->
  (forall p t, m !! p = Some t -> exists i fs, t = Pack i p fs) ->
  (forall p t, m !! p = Some t -> p ∈ omap listed_pack_id items ->
     task_id t ∉ completed_task_ids s -> t ∈ task_plan s) ->
  Forall (fun t => 0 <= task_size t) (recovery_tasks s ++ task_plan s) ->
  let s' := fold_left (recovery_step m) items s in
  sum_task_sizes (recovery_tasks s' ++ task_plan s')
  = sum_task_sizes (recovery_tasks s ++ task_plan s)
  /\ Forall (fun t => 0 <= task_size t) (recovery_tasks s' ++ task_plan s')
  /\ processed_size s' = processed_size s
  /\ total_transfer_size s' = total_transfer_size s.
Proof.
  induction items as [|item items IH]; intros s Hitems Hnd Hm Hin Hpos;
    cbn [fold_left]; [done|].
  cbv zeta in IH.
  assert (Hskip : listed_pack_id item = None
                  \/ (exists p, listed_pack_id item = Some p
                                /\ (m !! p = None
                                    \/ exists t, m !! p = Some t
                                         /\ task_id t ∈ completed_task_ids s)) ->
                  recovery_step m s item = s).
  { unfold listed_pack_id, recovery_step.
    destruct (_ && _); [|done].
    intros [->|(p & -> & [->|(t & -> & Ht)])]; [done|done|].
    by rewrite bool_decide_eq_true_2. }
  assert (Hom : omap listed_pack_id (item :: items)
                = match listed_pack_id item with
                  | Some p => p :: omap listed_pack_id items
                  | None => omap listed_pack_id items
                  end) by reflexivity.
  rewrite Hom in Hitems, Hin. clear Hom.
  destruct (listed_pack_id item) as [p|] eqn:Hp.
  2:{ rewrite Hskip by (by left). by apply IH. }
  apply NoDup_cons in Hitems as [Hfresh Hitems].
  destruct (m !! p) as [t|] eqn:Ht.
  2:{ rewrite Hskip by (right; exists p; split; [done|by left]).
      apply IH; try done. intros q u Hu Hq. apply (Hin q); [done|].
      by apply list_elem_of_further. }
  destruct (decide (task_id t ∈ completed_task_ids s)) as [Hc|Hc].
  { rewrite Hskip by (right; exists p; split; [done|right; eauto]).
    apply IH; try done. intros q u Hu Hq. apply (Hin q); [done|].
    by apply list_elem_of_further. }
  assert (Htin : t ∈ task_plan s)
    by (apply (Hin p); [done|apply list_elem_of_here|done]).
  assert (Hstep : recovery_step m s item
                  = set_task_plan
                      (List.filter
                         (fun u => negb (String.eqb (task_id u) (task_id t)))
                         (task_plan s))
                      (set_recovery_tasks
                         (recovery_tasks s ++ [as_resume_extract t]) s)).
  { unfold listed_pack_id in Hp. unfold recovery_step.
    destruct (_ && _); [|done]. rewrite Hp, Ht.
    by rewrite bool_decide_eq_false_2. }
  rewrite Hstep. set (s1 := set_task_plan _ _).
  apply Forall_app in Hpos as [Hpr Hpp].
  destruct (IH s1) as (Hsum & Hpos' & Hproc & Htot); try done.
  - by apply NoDup_fmap_filter.
  - intros q u Hu Hq Hcu. cbn.
    assert (Huin : u ∈ task_plan s)
      by (apply (Hin q); [done|by apply list_elem_of_further|done]).
    apply list_elem_of_In, filter_In. split; [by apply list_elem_of_In|].
    apply negb_true_iff, String.eqb_neq. intros Heq.
    assert (u = t).
    { apply list_elem_of_lookup in Huin as [i Hi], Htin as [j Hj].
      assert (i = j).
      { eapply NoDup_lookup; [exact Hnd| |];
          rewrite list_lookup_fmap; [by rewrite Hi|by rewrite Hj, Heq]. }
      congruence. }
    subst u. destruct (Hm _ _ Hu) as (i & fs & Eu).
    destruct (Hm _ _ Ht) as (i' & fs' & Et).
    assert (q = p) by congruence. subst q. done.
  - cbn. apply Forall_app. split.
    + apply Forall_app. split; [done|]. constructor; [|done].
      rewrite task_size_as_resume_extract.
      by apply (proj1 (Forall_forall _ _) Hpp).
    + apply Forall_forall. intros u Hu.
      apply list_elem_of_In, filter_In in Hu as [Hu _].
      by apply (proj1 (Forall_forall _ _) Hpp), list_elem_of_In.
  - split_and!; [|done|done|done].
    rewrite Hsum. cbn. rewrite !sum_task_sizes_app.
    rewrite sum_task_sizes_remove by done.
    rewrite sum_task_sizes_cons, task_size_as_resume_extract.
    change (sum_task_sizes []) with 0. lia.
Qed.

Lemma sum_task_sizes_nonneg l :
  Forall (fun t => 0 <= task_size t) l -> 0 <= sum_task_sizes l.
Proof. induction 1; rewrite ?sum_task_sizes_cons; [done|lia]. Qed.

Lemma filter_completed_no_resume_extract (ids : gset string) l :
  Forall (fun t => is_resume_extract t = false) l ->
  List.filter (fun t => completed_in ids t && negb (is_resume_extract t)) l
  = List.filter (completed_in ids) l.
Proof.
  induction 1 as [|t l Ht _ IH]; [done|]. cbn [List.filter].
  rewrite Ht, andb_true_r, IH. done.
Qed.

(** A run that does not resume starts from an empty plan. *)
Lemma run_resume_fresh cfg file resume :
  let s1 := run_resume cfg file (init_state resume) in
  resume_session s1 = false ->
  task_plan s1 = [] /\ processed_size s1 = 0 /\ recovery_tasks s1 = []
  /\ status_calls s1 = [].
Proof.
  cbv zeta. unfold run_resume. destruct resume; cbn [resume_session init_state];
    [|done].
  destruct (load_session cfg file (init_state true)) as [[|] s1] eqn:Hl.
  - cbn. intros Hr.
    destruct (load_session_pools cfg file (init_state true)) as (_ & _ & H).
    cbv zeta in H. rewrite Hl in H. cbn in H. congruence.
  - cbn. intros _. split_and!; try done.
    unfold load_session in Hl. destruct file as [sd|]; [|by injection Hl as <-].
    destruct (_ || _); [by injection Hl as <-|done].
Qed.

(** What [self] holds when [_execute_plan] is called: the bytes
    credited by the session and those of the tasks to run make up
    [total_transfer_size]. *)
Lemma prepared_accounts uuid4 shuffle cfg resume file listing all_files s0 :
  (forall l, shuffle l ≡ₚ l) ->
  Forall (fun f => 0 <= size f) all_files ->
  (forall sd, file = Some sd ->
     session_of_scan sd /\ NoDup (task_id <$> sd_task_plan sd)) ->
  (forall items, listing = Some items -> engine_cache items) ->
  prepared uuid4 shuffle cfg file listing all_files (init_state resume)
  = Some s0 ->
  pending s0 = ∅
  /\ 0 <= processed_size s0
  /\ Forall (fun t => 0 <= task_size t) (recovery_tasks s0 ++ task_plan s0)
  /\ processed_size s0 + sum_task_sizes (recovery_tasks s0 ++ task_plan s0)
     = total_transfer_size s0.
Proof.
  intros Hperm Hsizes Hsession Hcache. unfold prepared.
  set (s1 := run_resume cfg file (init_state resume)).
  assert (Hpend : pending s1 = ∅)
    by (unfold s1; by rewrite (proj1 (run_resume_pools _ _ _))).
  destruct (resume_session s1) eqn:Hr.
  - intros [= <-].
    destruct (run_resume_accounts cfg file (init_state resume) Hr)
      as (sd & -> & Htot & Hids & Hplan & Hproc & Hrec).
    cbv zeta in *. fold s1 in Htot, Hids, Hplan, Hproc, Hrec.
    destruct (Hsession sd eq_refl)
      as ((u & sh & W & lim & cfl & fs & ps & Hp & Hs & Hscan & Hsd) & Hnd).
    destruct (scan_and_plan_bytes u sh W lim cfl fs _ ps Hp Hs Hscan)
      as (Hsum & Hpos & Hre).
    rewrite <- Hsd in Hsum, Hpos, Hre.
    set (ids := list_to_set (sd_completed_task_ids sd) : gset string) in *.
    rewrite filter_completed_no_resume_extract in Hproc by done.
    assert (Hpos1 : Forall (fun t => 0 <= task_size t)
                      (recovery_tasks s1 ++ task_plan s1)).
    { rewrite Hrec, Hplan. cbn [app]. apply Forall_forall. intros t Ht.
      apply list_elem_of_In, filter_In in Ht as [Ht _].
      by apply (proj1 (Forall_forall _ _) Hpos), list_elem_of_In. }
    assert (Hp0 : 0 <= processed_size s1).
    { rewrite Hproc. apply sum_task_sizes_nonneg, Forall_forall. intros t Ht.
      apply list_elem_of_In, filter_In in Ht as [Ht _].
      by apply (proj1 (Forall_forall _ _) Hpos), list_elem_of_In. }
    assert (Hsum1 : processed_size s1
                    + sum_task_sizes (recovery_tasks s1 ++ task_plan s1)
                    = total_transfer_size s1).
    { rewrite Hrec, Hplan, Hproc, Htot, <- Hsum. cbn [app].
      apply sum_task_sizes_partition. }
    destruct (plan_recovery_tasks_pools (Some sd) listing s1) as [Hpp _].
    cbv zeta in Hpp. rewrite Hpp. split; [done|].
    unfold plan_recovery_tasks. destruct listing as [items|];
      [|by split_and!].
    destruct (recovery_fold_bytes (pack_id_to_task (sd_task_plan sd)) items s1)
      as (E1 & E2 & E3 & E4); try done.
    + by apply engine_cache_NoDup, Hcache.
    + rewrite Hplan. by apply NoDup_fmap_filter.
    + intros p t Ht. by apply pack_id_to_task_elem in Ht as [_ ?].
    + intros p t Ht _ Hc. apply pack_id_to_task_elem in Ht as [Ht _].
      rewrite Hplan. apply list_elem_of_In, filter_In.
      split; [by apply list_elem_of_In|]. unfold completed_in.
      rewrite Hids in Hc. by rewrite bool_decide_eq_false_2.
    + cbv zeta in *. rewrite E1, E3, E4. by split_and!.
  - destruct (run_resume_fresh cfg file resume Hr) as (Hplan & Hproc & Hrec & _).
    fold s1 in Hplan, Hproc, Hrec. clearbody s1.
    unfold scan_into. rewrite Hplan.
    destruct (Planner.scan_and_plan _ _ _ _ _ _ _) as [[total ps]|] eqn:Hscan;
      [|done].
    cbn [mbind option_bind]. intros [= <-].
    destruct (scan_and_plan_bytes _ _ _ _ _ _ _ _ Hperm Hsizes Hscan)
      as (Hsum & Hpos & _).
    cbn [pending recovery_tasks task_plan processed_size total_transfer_size
         set_task_plan set_total_transfer_size].
    rewrite Hrec, Hproc. cbn [app]. split_and!; try done; lia.
Qed.

(** C6, amended. In a run that starts afresh, or that resumes a
    session file this engine wrote, with distinct task ids, from a
    cache directory that holds no archive but those this engine
    writes: when
    [_execute_plan] is called, the bytes already credited and those of
    the tasks to run make up [total_transfer_size]; from then on
    [processed_size] only grows and stays within the total, and the
    progress values that [_update_progress] passes to the status
    callback never decrease and never exceed 100. *)
Theorem progress_values_non_decreasing_at_most_100 (uuid4 : nat -> string)
    (shuffle : list file_info -> list file_info) (cfg : config)
    (resume : bool) (file : option session_data)
    (listing : option (list string)) (all_files : list file_info)
    (evs : list event) (s0 s : state) :
  (forall l, shuffle l ≡ₚ l) ->
  Forall (fun f => 0 <= size f) all_files ->
  (forall sd, file = Some sd ->
     session_of_scan sd /\ NoDup (task_id <$> sd_task_plan sd)) ->
  (forall items, listing = Some items -> engine_cache items) ->
  prepared uuid4 shuffle cfg file listing all_files (init_state resume)
  = Some s0 ->
  run_events cfg evs (execute_plan_submit s0) = Some s ->
  processed_size s0 + sum_task_sizes (recovery_tasks s0 ++ task_plan s0)
  = total_transfer_size s0
  /\ processed_size s0 <= processed_size s <= total_transfer_size s0
  /\ exists calls,
       status_calls s = status_calls s0 ++ calls
       /\ non_decreasing calls
       /\ Forall (fun c => py_le (call_progress c)
                             (PyFloat (float_of_int 100)) = true) calls.
Proof.
  intros Hperm Hsizes Hsession Hcache Hprep Hrun.
  destruct (prepared_accounts uuid4 shuffle cfg resume file listing all_files
              s0 Hperm Hsizes Hsession Hcache Hprep)
    as (Hpend & Hp0 & Hpos & Hsum).
  split; [exact Hsum|].
  apply (run_events_progress cfg s0 s evs); try done. lia.
Qed.

Lemma progress_values_non_decreasing_at_most_100_witness :
  let cfg := Config "C:\data" "D:\backup" 4 (64 * Planner.MiB) 500 300
               false false FileList.windows in
  let uuid4 := fun k : nat => match k with O => "id-1" | _ => "id-2" end in
  let shuffle := fun l : list file_info => l in
  let f1 := FileInfo "C:\data\big.bin" 1 in
  let f2 := FileInfo "C:\data\a.txt" 2 in
  let s0 := set_task_plan [Pack "id-1" 1 [f1]; Pack "id-2" 2 [f2]]
              (set_total_transfer_size 3 (init_state false)) in
  let evs := [MainDone 0 (MainIO None None None);
              DeleteDone 2 None false None None;
              MainDone 1 (MainIO None None None);
              DeleteDone 3 None false None None] in
  prepared uuid4 shuffle cfg None None [f1; f2] (init_state false) = Some s0
  /\ exists s calls,
       run_events cfg evs (execute_plan_submit s0) = Some s
       /\ processed_size s = 3
       /\ call_message <$> status_calls s = [MsgProgress 33; MsgProgress 100]
       /\ status_calls s = status_calls s0 ++ calls
       /\ non_decreasing calls
       /\ Forall (fun c => py_le (call_progress c)
                             (PyFloat (float_of_int 100)) = true) calls.
Proof.
  intros cfg uuid4 shuffle f1 f2 s0 evs.
  assert (E0 : prepared uuid4 shuffle cfg None None [f1; f2]
                 (init_state false) = Some s0) by (vm_compute; reflexivity).
  assert (E : exists s, run_events cfg evs (execute_plan_submit s0) = Some s
                        /\ processed_size s = 3
                        /\ call_message <$> status_calls s
                           = [MsgProgress 33; MsgProgress 100]).
  { vm_compute. eexists. split_and!; reflexivity. }
  destruct E as (s & E1 & E2 & E3).
  destruct (progress_values_non_decreasing_at_most_100 uuid4 shuffle cfg
              false None None [f1; f2] evs s0 s)
    as (_ & _ & calls & Hcalls & Hnd & Hle).
  - intros l. reflexivity.
  - repeat constructor; discriminate.
  - intros sd H. discriminate H.
  - intros items H. discriminate H.
  - exact E0.
  - exact E1.
  - split; [exact E0|]. exists s, calls. split; [exact E1|].
    split; [exact E2|]. split; [exact E3|]. split; [exact Hcalls|].
    split; [exact Hnd|]. exact Hle.
Defined.

(** C6, as stated, fails in a run that resumes with two archives of
    one pack id in the cache directory: the pack is planned for
    recovery twice and credited twice, and a progress value of 200 is
    passed to the status callback. *)
Lemma progress_exceeds_100_counterexample :
  let cfg := Config "C:\data" "D:\backup" 4 (64 * Planner.MiB) 500 300
               false false FileList.windows in
  let f := FileInfo "C:\data\a.txt" 2 in
  let sd := SessionData "C:\data" "D:\backup" 2 [Pack "id-1" 1 [f]] [] in
  let listing := Some ["pack_1.7z"; "pack_1.bak.7z"] in
  let s0 := set_recovery_tasks
              [ResumeExtract "id-1" 1 [f]; ResumeExtract "id-1" 1 [f]]
              (emit MsgRestored (PyFloat (S754_zero false))
                 (set_total_transfer_size 2 (init_state true))) in
  let evs := [MainDone 0 (MainIO None None None);
              DeleteDone 2 None false None None;
              MainDone 1 (MainIO None (Some RuntimeError) None)] in
  session_of_scan sd
  /\ NoDup (task_id <$> sd_task_plan sd)
  /\ prepared (fun _ => "id-1") (fun l => l) cfg (Some sd) listing []
       (init_state true) = Some s0
  /\ total_transfer_size s0 = 2
  /\ exists s c f200,
       run_events cfg evs (execute_plan_submit s0) = Some s
       /\ processed_size s = 4
       /\ c ∈ status_calls s
       /\ call_progress c = PyFloat f200
       /\ SF_compare_Z f200 200 = Some Eq
       /\ py_le (call_progress c) (PyFloat (float_of_int 100)) = false.
Proof.
  intros cfg f sd listing s0 evs.
  assert (E : exists s,
            run_events cfg evs (execute_plan_submit s0) = Some s
            /\ processed_size s = 4
            /\ status_calls s !! 2%nat
               = Some (StatusCall MsgTaskSkipped
                         (PyFloat (S754_finite false 7036874417766400
                                     (-45))))).
  { vm_compute. eexists. split_and!; reflexivity. }
  destruct E as (s & E1 & E2 & E3).
  split.
  { exists (fun _ => "id-1"), (fun l => l), 4, (64 * Planner.MiB), 500, [f],
      (Planner.PlanState [Pack "id-1" 1 [f]] 1).
    split; [intros l; reflexivity|].
    split; [repeat constructor; discriminate|].
    split; [vm_compute; reflexivity|reflexivity]. }
  split; [apply NoDup_singleton|].
  split; [vm_compute; reflexivity|]. split; [reflexivity|].
  exists s, (StatusCall MsgTaskSkipped
               (PyFloat (S754_finite false 7036874417766400 (-45)))),
    (S754_finite false 7036874417766400 (-45)).
  split; [exact E1|]. split; [exact E2|].
  split; [exact (list_elem_of_lookup_2 _ _ _ E3)|].
  split; [reflexivity|]. split; vm_compute; reflexivity.
Qed.
